(** * Expression compiler, depth verifier and map iterators of the debugger

    Shallow embedding of [pkg/proc/evalop/evalcompile.go] (the bytecode
    compiler of debugger expressions and its stack-depth check) and of
    [pkg/proc/mapiter.go] (the iterators over the maps of the inferior),
    followed by the properties proved about them. *)

From Stdlib Require Import ZArith Lia Bool.
From stdpp Require Import base list strings.

Set Warnings "-register-all".
Local Open Scope Z_scope.

(** ** Machine integers

    Go's [int] is a 64-bit signed integer and [uint64] a 64-bit unsigned one;
    both wrap around silently. *)

Definition wrap_int (z : Z) : Z := (z + 2 ^ 63) mod 2 ^ 64 - 2 ^ 63.
Definition wrap_u64 (z : Z) : Z := z mod 2 ^ 64.

(** ** Syntax trees ([go/ast], [go/token])

    Only the node kinds that the compiler distinguishes carry their
    children; the interior of type literals is never inspected by the
    compiler (it is handed to [FindTypeExpr] as a whole). *)

Module token.
Inductive Token :=
| INT | FLOAT | IMAG | CHAR | STRING
| ADD | SUB | MUL | QUO | REM
| AND | OR | XOR | SHL | SHR | AND_NOT
| LAND | LOR | ARROW | INC | DEC
| EQL | LSS | GTR | NOT | NEQ | LEQ | GEQ | TILDE.

Definition eqb (a b : Token) : bool :=
  match a, b with
  | INT, INT | FLOAT, FLOAT | IMAG, IMAG | CHAR, CHAR | STRING, STRING
  | ADD, ADD | SUB, SUB | MUL, MUL | QUO, QUO | REM, REM
  | AND, AND | OR, OR | XOR, XOR | SHL, SHL | SHR, SHR | AND_NOT, AND_NOT
  | LAND, LAND | LOR, LOR | ARROW, ARROW | INC, INC | DEC, DEC
  | EQL, EQL | LSS, LSS | GTR, GTR | NOT, NOT | NEQ, NEQ | LEQ, LEQ
  | GEQ, GEQ | TILDE, TILDE => true
  | _, _ => false
  end.
End token.

Module ast.
Inductive Expr :=
| Ident (Name : string)
| BasicLit (Kind : token.Token) (Value : string)
| ParenExpr (X : Expr)
| SelectorExpr (X : Expr) (Sel : string)
| TypeAssertExpr (X : Expr) (Type_ : option Expr)
| IndexExpr (X : Expr) (Index : Expr)
| IndexListExpr (X : Expr) (Indices : list Expr)
| SliceExpr (X : Expr) (Low High : option Expr) (Slice3 : bool)
| StarExpr (X : Expr)
| UnaryExpr (Op : token.Token) (X : Expr)
| BinaryExpr (X : Expr) (Op : token.Token) (Y : Expr)
| CallExpr (Fun : Expr) (Args : list Expr)
| CompositeLit (Type_ : option Expr) (Elts : list Expr)
| KeyValueExpr (Key : Expr) (Value : Expr)
| ArrayType (Elt : Expr)
| StructType
| FuncType
| InterfaceType
| MapType (Key : Expr) (Value : Expr)
| ChanType (Value : Expr)
| FuncLit
| BadExpr.
End ast.

(** ** Debug-info types ([godwarf]) and typed constants ([go/constant]) *)

Module godwarf.
Inductive Type_ :=
| StructType (Field : list string)
| TypedefType (Name : string) (Type_0 : Type_)
| QualType (Type_0 : Type_)
| PtrType (Type_0 : Type_)
| SliceType (ElemType : Type_)
| ArrayType (ElemType : Type_)
| MapType (KeyType ElemType : Type_) (Type_0 : Type_)
| BasicType (Name : string) (BitSize : Z).

Definition FakeBasicType (name : string) (bitSize : Z) : Type_ :=
  BasicType name bitSize.
Definition FakeSliceType (fieldType : Type_) : Type_ := SliceType fieldType.
End godwarf.

Module constant.
Inductive Value :=
| MakeBool (b : bool)
| MakeInt64 (x : Z)
| MakeFromLiteral (lit : string) (tok : token.Token).
End constant.

(** ** Operations of the stack machine

    The variants and fields are the ones the compiler constructs. A
    [Jump]'s [Target] is an absolute instruction index. *)

Inductive JumpCond :=
| JumpIfFalse | JumpIfTrue | JumpIfAllocStringChecksFail
| JumpAlways | JumpIfPinningDone.

Inductive Op :=
| PushCurg
| PushFrameoff
| PushThreadID
| PushLocal (Name : string) (Frame : Z)
| PushPackageVar (PkgName Name : string)
| PushConst (Value : constant.Value)
| PushNil
| PushRegister (Regnum : Z) (Regname : string)
| PushRuntimeType (Type_ : godwarf.Type_)
| PushLen
| PushDebugPinner
| PushPinAddress
| Select (Name : string)
| TypeAssert (DwarfType : option godwarf.Type_) (Node : ast.Expr)
| TypeCast (DwarfType : option godwarf.Type_) (Node : option ast.Expr)
| PointerDeref (Node : ast.Expr)
| AddrOf (Node : ast.Expr)
| Unary (Node : ast.Expr)
| Binary (Node : ast.Expr)
| Index (Node : ast.Expr)
| Reslice (HasHigh : bool) (Node : ast.Expr)
| BoolToConst
| Pop
| Dup
| Roll (N : Z)
| BuiltinCall (Name : string) (Args : list ast.Expr)
| Jump (When : JumpCond) (Target : Z) (Pop_ : bool) (Node : option ast.Expr)
| SetValue (lhe : option ast.Expr) (Rhe : ast.Expr)
| CallInjectionStart (HasFunc : bool) (id : Z) (Node : ast.Expr)
| CallInjectionStartSpecial (id : Z) (FnName : string) (ArgAst : list (option ast.Expr))
| CallInjectionSetTarget (id : Z)
| CallInjectionCopyArg (id : Z) (ArgNum : Z) (ArgExpr : option ast.Expr)
| CallInjectionComplete (id : Z) (DoPinning : bool)
| CallInjectionComplete2 (id : Z)
| ConvertAllocToString
| SetDebugPinner.

(** The per-operation method [depthCheck() (npop, npush int)] lives with the
    operation set, outside the compiler's file: the compiler and the
    verifier are stated over any such table. *)
Class OpArity := Op_depthCheck : Op -> Z * Z.

(** ** Errors

    One constructor per error site; the depth-check errors carry the depth
    table that the source prints through [Listing]. *)

Inductive error :=
| ErrFuncCallNotAllowed
| errFuncCallNotAllowedLitAlloc
| ErrTypeNotFound
| ErrLookup (msg : string)
| ErrParse (msg : string)
| ErrAssignment (eqOff : Z)
| ErrFrameValue
| ErrOperatorNotSupported (op : token.Token)
| ErrSlice3
| ErrNotImplemented (t : ast.Expr)
| ErrSymbolNotFound (name : string)
| ErrFunctionOrType (fn : ast.Expr) (ambiguousErr : error)
| ErrArgument (arg : ast.Expr) (argNum : Z) (fn : ast.Expr) (err : error)
| ErrDepthUnderflow (i : nat) (npop have : Z) (depth : list Z)
| ErrDepthJumpTarget (j d have : Z) (depth : list Z)
| ErrPinningBeforeDebugPinner (i : nat)
| ErrDepthEnd (got endDepth : Z) (depth : list Z).

Definition is_ErrFuncCallNotAllowed (e : error) : bool :=
  match e with ErrFuncCallNotAllowed => true | _ => false end.
Definition is_ErrTypeNotFound (e : error) : bool :=
  match e with ErrTypeNotFound => true | _ => false end.

(** ** The depth verifier ([compileCtx.depthCheck]) *)

(** Outcome of a Go function returning [error]: [Done] is a nil error,
    [Fail] a non-nil one, [Panic] a run-time panic (index out of range,
    failed type assertion). *)
Inductive outcome :=
| Done
| Fail (e : error)
| Panic.

Section DepthCheck.
Context `{OpArity}.

(** The closure [checkAndSet]: [None] is the index-out-of-range panic of
    [depth[j]]; otherwise the updated table and the updated [err]. *)
Definition checkAndSet (depth : list Z) (err : option error) (j d : Z)
  : option (list Z * option error) :=
  if (j <? 0) || (Z.of_nat (length depth) <=? j) then None
  else
    let depth1 :=
      if (depth !!! Z.to_nat j) <? 0 then <[Z.to_nat j := d]> depth else depth in
    let err1 :=
      if negb (d =? depth1 !!! Z.to_nat j)
      then Some (ErrDepthJumpTarget j d (depth1 !!! Z.to_nat j) depth1)
      else err in
    Some (depth1, err1).

(** The type switch in the loop body. *)
Definition depthCheck_switch (i : nat) (op : Op) (d : Z)
    (depth : list Z) (err : option error) (debugPinnerSeen : bool)
  : option (list Z * option error * bool) :=
  match op with
  | Jump _ Target _ _ =>
      match checkAndSet depth err Target d with
      | None => None
      | Some (depth1, err1) => Some (depth1, err1, debugPinnerSeen)
      end
  | CallInjectionStartSpecial _ _ _ => Some (depth, err, true)
  | CallInjectionComplete _ DoPinning =>
      if DoPinning && negb debugPinnerSeen
      then Some (depth, Some (ErrPinningBeforeDebugPinner i), debugPinnerSeen)
      else Some (depth, err, debugPinnerSeen)
  | _ => Some (depth, err, debugPinnerSeen)
  end.

(** The loop [for i, op := range ctx.ops]: [rest] is what remains of the
    program from index [i] on. The result is the outcome and the table. *)
Fixpoint depthCheck_loop (i : nat) (rest : list Op) (depth : list Z)
    (debugPinnerSeen : bool) : outcome * list Z :=
  match rest with
  | [] => (Done, depth)
  | op :: rest1 =>
      let '(npop, npush) := Op_depthCheck op in
      if (depth !!! i) <? npop
      then (Fail (ErrDepthUnderflow i npop (depth !!! i) depth), depth)
      else
        let d := wrap_int (depth !!! i - npop + npush) in
        match checkAndSet depth None (Z.of_nat i + 1) d with
        | None => (Panic, depth)
        | Some (depth1, err1) =>
            match depthCheck_switch i op d depth1 err1 debugPinnerSeen with
            | None => (Panic, depth1)
            | Some (depth2, Some e, _) => (Fail e, depth2)
            | Some (depth2, None, seen2) =>
                depthCheck_loop (S i) rest1 depth2 seen2
            end
        end
  end.

(** [depth := make([]int, len(ctx.ops)+1)], all -1, then [depth[0] = 0]. *)
Definition depthCheck_init (ops : list Op) : list Z :=
  <[0%nat := 0]> (replicate (length ops + 1) (-1)).

Definition depthCheck_run (ops : list Op) (endDepth : Z) : outcome * list Z :=
  match depthCheck_loop 0 ops (depthCheck_init ops) false with
  | (Done, depth) =>
      if negb (depth !!! length ops =? endDepth)
      then (Fail (ErrDepthEnd (depth !!! length ops) endDepth depth), depth)
      else (Done, depth)
  | r => r
  end.

Definition depthCheck (ops : list Op) (endDepth : Z) : outcome :=
  fst (depthCheck_run ops endDepth).

(** The table the verifier has filled when it returns. *)
Definition depthCheck_depths (ops : list Op) (endDepth : Z) : list Z :=
  snd (depthCheck_run ops endDepth).
End DepthCheck.

(** ** The compiler ([compileCtx] and its methods) *)

(** The interface [evalLookup]. [FindTypeExpr] returns a (possibly nil) type
    and a (possibly nil) error; its argument is a possibly nil expression. *)
Record evalLookup := {
  FindTypeExpr : option ast.Expr -> option godwarf.Type_ * option error;
  HasLocal : string -> bool;
  HasGlobal : string -> string -> bool;
  HasBuiltin : string -> bool;
  LookupRegisterName : string -> option Z;
}.

(** Functions of Go's standard library that the compiler calls:
    [parser.ParseExpr], [strconv.ParseInt(s, 10, 8)], [strconv.Unquote] and
    the printer behind [ExprToString]. *)
Record golib := {
  ParseExpr : string -> ast.Expr + error;
  ParseInt_10_8 : string -> Z + error;
  Unquote : string -> string + error;
  ExprToString : ast.Expr -> string;
}.

Definition CanSet : Z := 1.
Definition HasDebugPinner : Z := 2.

Definition DebugPinnerFunctionName : string := "runtime.debugPinner".

Record compileCtx := {
  elookup : evalLookup;
  ops : list Op;
  allowCalls : bool;
  curCall : Z;
  flags : Z;
  firstCall : bool;
}.

Definition set_ops (ctx : compileCtx) (o : list Op) : compileCtx :=
  {| elookup := elookup ctx; ops := o; allowCalls := allowCalls ctx;
     curCall := curCall ctx; flags := flags ctx; firstCall := firstCall ctx |}.
Definition set_allowCalls (ctx : compileCtx) (b : bool) : compileCtx :=
  {| elookup := elookup ctx; ops := ops ctx; allowCalls := b;
     curCall := curCall ctx; flags := flags ctx; firstCall := firstCall ctx |}.
Definition set_curCall (ctx : compileCtx) (n : Z) : compileCtx :=
  {| elookup := elookup ctx; ops := ops ctx; allowCalls := allowCalls ctx;
     curCall := n; flags := flags ctx; firstCall := firstCall ctx |}.
Definition set_firstCall (ctx : compileCtx) (b : bool) : compileCtx :=
  {| elookup := elookup ctx; ops := ops ctx; allowCalls := allowCalls ctx;
     curCall := curCall ctx; flags := flags ctx; firstCall := b |}.

(** [ctx.flags&HasDebugPinner != 0] *)
Definition hasDebugPinner (ctx : compileCtx) : bool :=
  negb (Z.land (flags ctx) HasDebugPinner =? 0).

(** A method of [*compileCtx] returning [error]: the context is threaded
    through, and is still there after an error (some callers go on). *)
Definition M : Type := compileCtx -> outcome * compileCtx.

Definition ret : M := fun ctx => (Done, ctx).
Definition fail (e : error) : M := fun ctx => (Fail e, ctx).
Definition panic : M := fun ctx => (Panic, ctx).

(** [err := m; if err != nil { return err }; k] *)
Definition andThen (m k : M) : M :=
  fun ctx => match m ctx with
             | (Done, ctx1) => k ctx1
             | r => r
             end.

Declare Scope compile_scope.
Delimit Scope compile_scope with compile.
Notation "m ;> k" := (andThen m k)
  (at level 100, k at level 200, right associativity) : compile_scope.

(** A method without result. *)
Definition lift (f : compileCtx -> compileCtx) : M := fun ctx => (Done, f ctx).

Definition pushOp (op : Op) (ctx : compileCtx) : compileCtx :=
  set_ops ctx (ops ctx ++ [op]).

(** [jmp.Target = target] for the [*Jump] stored at index [at_] of [ops]:
    every jump the compiler creates is appended once, so the pointer it keeps
    is the cell at the index where it was appended. *)
Definition setTarget (at_ : nat) (target : Z) (o : list Op) : list Op :=
  match o !! at_ with
  | Some (Jump When _ Pop_ Node) => <[at_ := Jump When target Pop_ Node]> o
  | _ => o
  end.

Definition patchJump (at_ : nat) (ctx : compileCtx) : compileCtx :=
  set_ops ctx (setTarget at_ (Z.of_nat (length (ops ctx))) (ops ctx)).

(** The loop [for i := range args] of [compileSpecialCall]. *)
Fixpoint compileSpecialCall_args (id : Z) (i : nat) (args : list (option Op))
    (ctx : compileCtx) : compileCtx :=
  match args with
  | [] => ctx
  | a :: rest =>
      let ctx1 := match a with Some op => pushOp op ctx | None => ctx end in
      compileSpecialCall_args id (S i) rest
        (pushOp (CallInjectionCopyArg id (Z.of_nat i) None) ctx1)
  end.

(** [compileSpecialCall], [compileGetDebugPinner] and [compilePinningLoop]
    call each other, the last two always with [doPinning = false], where
    [compileSpecialCall] calls neither back. The body is therefore stated
    over its two callees and the knot is tied in two steps. *)
Definition compileSpecialCall_with
    (getDebugPinner : compileCtx -> compileCtx)
    (pinningLoop : Z -> compileCtx -> compileCtx)
    (fnname : string) (argAst : list (option ast.Expr)) (args : list (option Op))
    (doPinning : bool) (ctx : compileCtx) : compileCtx :=
  let ctx := if doPinning then getDebugPinner ctx else ctx in
  let id := curCall ctx in
  let ctx := set_curCall ctx (wrap_int (id + 1)) in
  let ctx := pushOp (CallInjectionStartSpecial id fnname argAst) ctx in
  let ctx := pushOp (CallInjectionSetTarget id) ctx in
  let ctx := compileSpecialCall_args id 0 args ctx in
  let doPinning := doPinning && hasDebugPinner ctx in
  let ctx := pushOp (CallInjectionComplete id doPinning) ctx in
  if doPinning then pinningLoop id ctx else ctx.

Definition compileSpecialCall_nopin
    (fnname : string) (argAst : list (option ast.Expr)) (args : list (option Op))
    (ctx : compileCtx) : compileCtx :=
  compileSpecialCall_with (fun c => c) (fun _ c => c) fnname argAst args false ctx.

Definition compileGetDebugPinner (ctx : compileCtx) : compileCtx :=
  if firstCall ctx && hasDebugPinner ctx then
    let ctx := compileSpecialCall_nopin DebugPinnerFunctionName [] [] ctx in
    let ctx := pushOp SetDebugPinner ctx in
    set_firstCall ctx false
  else ctx.

Definition compilePinningLoop (id : Z) (ctx : compileCtx) : compileCtx :=
  let loopStart := length (ops ctx) in
  let ctx := pushOp (Jump JumpIfPinningDone 0 false None) ctx in
  let ctx := pushOp PushPinAddress ctx in
  let ctx := compileSpecialCall_nopin "runtime.(*Pinner).Pin"
               [Some (ast.Ident "debugPinner"); Some (ast.Ident "pinAddress")]
               [Some PushDebugPinner; None] ctx in
  let ctx := pushOp Pop ctx in
  let ctx := pushOp (Jump JumpAlways (Z.of_nat loopStart) false None) ctx in
  let ctx := patchJump loopStart ctx in
  pushOp (CallInjectionComplete2 id) ctx.

Definition compileSpecialCall : string -> list (option ast.Expr) -> list (option Op) ->
    bool -> compileCtx -> compileCtx :=
  compileSpecialCall_with compileGetDebugPinner compilePinningLoop.

Definition compileAllocLiteralString (ctx : compileCtx) : compileCtx :=
  let jmp := length (ops ctx) in
  let ctx := pushOp (Jump JumpIfAllocStringChecksFail 0 false None) ctx in
  let ctx := compileSpecialCall "runtime.mallocgc"
               [Some (ast.BasicLit token.INT "0"); Some (ast.Ident "nil");
                Some (ast.Ident "false")]
               [Some PushLen; Some PushNil;
                Some (PushConst (constant.MakeBool false))] true ctx in
  let ctx := pushOp ConvertAllocToString ctx in
  patchJump jmp ctx.

Definition compileDebugUnpin (ctx : compileCtx) : compileCtx :=
  if negb (firstCall ctx) && hasDebugPinner ctx then
    let ctx := compileSpecialCall "runtime.(*Pinner).Unpin"
                 [Some (ast.Ident "debugPinner")] [Some PushDebugPinner] false ctx in
    let ctx := pushOp Pop ctx in
    let ctx := pushOp PushNil ctx in
    pushOp SetDebugPinner ctx
  else ctx.

Fixpoint isStringLiteral (expr : ast.Expr) : bool :=
  match expr with
  | ast.BasicLit Kind _ => token.eqb Kind token.STRING
  | ast.BinaryExpr X Op Y =>
      if token.eqb Op token.ADD
      then isStringLiteral X && isStringLiteral Y
      else false
  | ast.ParenExpr X => isStringLiteral X
  | _ => false
  end.

Fixpoint removeParen (n : ast.Expr) : ast.Expr :=
  match n with
  | ast.ParenExpr X => removeParen X
  | _ => n
  end.

(** The loop at the head of [compileTypeCastOrFuncCall], which removes the
    parentheses and then one star, again and again. *)
Fixpoint removeParenStar (fnnode : ast.Expr) : ast.Expr :=
  match fnnode with
  | ast.ParenExpr X => removeParenStar X
  | ast.StarExpr X => removeParenStar X
  | _ => fnnode
  end.

Fixpoint ResolveTypedef (typ : godwarf.Type_) : godwarf.Type_ :=
  match typ with
  | godwarf.TypedefType _ t => ResolveTypedef t
  | godwarf.QualType t => ResolveTypedef t
  | _ => typ
  end.

Local Open Scope compile_scope.

Definition compileIdent (Name : string) : M := fun ctx =>
  if HasLocal (elookup ctx) Name then
    lift (pushOp (PushLocal Name 0)) ctx
  else if HasGlobal (elookup ctx) "" Name then
    lift (pushOp (PushPackageVar "" Name)) ctx
  else if String.eqb Name "true" || String.eqb Name "false" then
    lift (pushOp (PushConst (constant.MakeBool (String.eqb Name "true")))) ctx
  else if String.eqb Name "nil" then
    lift (pushOp PushNil) ctx
  else
    match LookupRegisterName (elookup ctx) Name with
    | Some regnum => lift (pushOp (PushRegister regnum Name)) ctx
    | None => fail (ErrSymbolNotFound Name) ctx
    end.

(** The methods below call [compileAST] on parts of their node; they are
    stated over it, and [compileAST] closes the recursion further down. A
    call node is passed as a whole (it is stored in operations) together
    with its [Fun] and [Args]. *)
Section Methods.
Variable lib : golib.
Variable compileAST : ast.Expr -> M.

Definition compileUnary (expr : ast.Expr) (op : Op) : M :=
  compileAST expr ;> lift (pushOp op).

Definition compileTypeAssert (node X : ast.Expr) (Type_ : option ast.Expr) : M :=
  compileAST X ;> fun ctx =>
    let isdata := match Type_ with
                  | Some (ast.Ident Name) => String.eqb Name "data"
                  | _ => false
                  end in
    if negb isdata then
      match FindTypeExpr (elookup ctx) Type_ with
      | (_, Some err) => fail err ctx
      | (typ, None) => lift (pushOp (TypeAssert typ node)) ctx
      end
    else lift (pushOp (TypeAssert None node)) ctx.

(** [sop] is the jump the caller has created and keeps a pointer to; the
    last component of the result is the index at which it was appended. *)
Definition compileBinary (a b : ast.Expr) (sop : option Op) (op : Op)
  : compileCtx -> outcome * compileCtx * nat :=
  fun ctx =>
    match compileAST a ctx with
    | (Done, ctx1) =>
        let at_ := length (ops ctx1) in
        let ctx2 := match sop with
                    | Some jmp => pushOp jmp ctx1
                    | None => ctx1
                    end in
        match compileAST b ctx2 with
        | (Done, ctx3) => (Done, pushOp op ctx3, at_)
        | (r, ctx3) => (r, ctx3, at_)
        end
    | (r, ctx1) => (r, ctx1, 0%nat)
    end.

Definition compileReslice (node X : ast.Expr) (Low High : option ast.Expr) : M :=
  compileAST X ;>
  (match High with
   | Some h => compileAST h
   | None => ret
   end) ;>
  (match Low with
   | Some l => compileAST l
   | None => lift (pushOp (PushConst (constant.MakeInt64 0)))
   end) ;>
  lift (pushOp (Reslice (bool_decide (is_Some High)) node)).

Fixpoint compileBuiltinCall_args (args : list ast.Expr) : M :=
  match args with
  | [] => ret
  | arg :: rest => compileAST arg ;> compileBuiltinCall_args rest
  end.

Definition compileBuiltinCall (builtin : string) (args : list ast.Expr) : M :=
  compileBuiltinCall_args args ;> lift (pushOp (BuiltinCall builtin args)).

Definition compileTypeCast (node Fun : ast.Expr) (Args : list ast.Expr)
    (ambiguousErr : option error) : M :=
  match Args with
  | [] => panic
  | arg0 :: _ =>
      compileAST arg0 ;> fun ctx =>
        let fnnode := removeParen Fun in
        let targetTypeStr := ExprToString lib (removeParen Fun) in
        match FindTypeExpr (elookup ctx) (Some fnnode) with
        | (styp, None) => lift (pushOp (TypeCast styp (Some node))) ctx
        | (_, Some err) =>
            if String.eqb targetTypeStr "[]byte" || String.eqb targetTypeStr "[]uint8" then
              lift (pushOp (TypeCast
                (Some (godwarf.FakeSliceType (godwarf.FakeBasicType "uint" 8)))
                (Some node))) ctx
            else if String.eqb targetTypeStr "[]int32" || String.eqb targetTypeStr "[]rune" then
              lift (pushOp (TypeCast
                (Some (godwarf.FakeSliceType (godwarf.FakeBasicType "int" 32)))
                (Some node))) ctx
            else
              match ambiguousErr with
              | Some aerr =>
                  if is_ErrTypeNotFound err
                  then fail (ErrFunctionOrType Fun aerr) ctx
                  else fail err ctx
              | None => fail err ctx
              end
        end
  end.

(** The argument loop of [compileFunctionCallOld]. *)
Fixpoint compileFunctionCallOld_args (Fun : ast.Expr) (id : Z) (i : nat)
    (args : list ast.Expr) : M :=
  match args with
  | [] => ret
  | arg :: rest => fun ctx =>
      match compileAST arg ctx with
      | (Done, ctx1) =>
          let ctx2 := if isStringLiteral arg
                      then compileAllocLiteralString ctx1 else ctx1 in
          compileFunctionCallOld_args Fun id (S i) rest
            (pushOp (CallInjectionCopyArg id (Z.of_nat i) (Some arg)) ctx2)
      | (Fail err, ctx1) =>
          (Fail (ErrArgument arg (Z.of_nat i + 1) Fun err), ctx1)
      | (Panic, ctx1) => (Panic, ctx1)
      end
  end.

Definition compileFunctionCallOld (node Fun : ast.Expr) (Args : list ast.Expr)
    (id : Z) : M := fun ctx =>
  let oldAllowCalls := allowCalls ctx in
  let oldOps := ops ctx in
  match compileAST Fun (set_allowCalls ctx false) with
  | (Panic, ctx1) => (Panic, ctx1)
  | (r, ctx1) =>
      let ctx1 := set_allowCalls ctx1 oldAllowCalls in
      let restored :=
        match r with
        | Fail err =>
            if negb (is_ErrFuncCallNotAllowed err)
            then inr (err, set_ops ctx1 oldOps)
            else inl (false, set_ops ctx1 oldOps)
        | _ => inl (true, ctx1)
        end in
      match restored with
      | inr (err, ctx2) => (Fail err, ctx2)
      | inl (hasFunc, ctx2) =>
          let ctx3 := pushOp (CallInjectionStart hasFunc id node) ctx2 in
          let jmpif := length (ops ctx3) in
          let ctx4 := if hasFunc
                      then pushOp (Jump JumpIfFalse 0 true None) ctx3
                      else ctx3 in
          let ctx5 := pushOp Pop ctx4 in
          (compileAST Fun ;>
           lift (fun c => if hasFunc then patchJump jmpif c else c) ;>
           lift (pushOp (CallInjectionSetTarget id)) ;>
           compileFunctionCallOld_args Fun id 0 Args ;>
           lift (pushOp (CallInjectionComplete id false))) ctx5
      end
  end.

(** The argument loop of [compileFunctionCallNew]: the string allocation
    is emitted before the argument's error is looked at. *)
Fixpoint compileFunctionCallNew_args (Fun : ast.Expr) (i : nat)
    (args : list ast.Expr) : M :=
  match args with
  | [] => ret
  | arg :: rest => fun ctx =>
      let '(err, ctx1) := compileAST arg ctx in
      match err with
      | Panic => (Panic, ctx1)
      | _ =>
          let ctx2 := if isStringLiteral arg
                      then compileAllocLiteralString ctx1 else ctx1 in
          match err with
          | Fail e => (Fail (ErrArgument arg (Z.of_nat i + 1) Fun e), ctx2)
          | _ => compileFunctionCallNew_args Fun (S i) rest ctx2
          end
      end
  end.

(** [for i := len(node.Args) - 1; i >= 0; i--], given the arguments in
    reverse order and the index of the first of them. *)
Fixpoint compileFunctionCallNew_copy (id : Z) (revArgs : list ast.Expr)
    (ctx : compileCtx) : compileCtx :=
  match revArgs with
  | [] => ctx
  | arg :: rest =>
      compileFunctionCallNew_copy id rest
        (pushOp (CallInjectionCopyArg id (Z.of_nat (length rest)) (Some arg)) ctx)
  end.

Definition compileFunctionCallNew (node Fun : ast.Expr) (Args : list ast.Expr)
    (id : Z) : M :=
  lift compileGetDebugPinner ;>
  compileAST Fun ;>
  compileFunctionCallNew_args Fun 0 Args ;>
  lift (pushOp (Roll (Z.of_nat (length Args)))) ;>
  lift (pushOp (CallInjectionStart true id node)) ;>
  lift (pushOp Pop) ;>
  lift (pushOp (CallInjectionSetTarget id)) ;>
  lift (compileFunctionCallNew_copy id (rev Args)) ;>
  lift (pushOp (CallInjectionComplete id true)) ;>
  lift (compilePinningLoop id).

Definition compileFunctionCall (node Fun : ast.Expr) (Args : list ast.Expr) : M :=
  fun ctx =>
    let builtin := match Fun with
                   | ast.Ident Name =>
                       if HasBuiltin (elookup ctx) Name then Some Name else None
                   | _ => None
                   end in
    match builtin with
    | Some Name => compileBuiltinCall Name Args ctx
    | None =>
        if negb (allowCalls ctx) then fail ErrFuncCallNotAllowed ctx
        else
          let id := curCall ctx in
          let ctx := set_curCall ctx (wrap_int (id + 1)) in
          if hasDebugPinner ctx
          then compileFunctionCallNew node Fun Args id ctx
          else compileFunctionCallOld node Fun Args id ctx
    end.

Definition compileTypeCastOrFuncCall (node Fun : ast.Expr) (Args : list ast.Expr) : M :=
  fun ctx =>
    if negb (length Args =? 1)%nat then compileFunctionCall node Fun Args ctx
    else
      let ambiguous : M := fun ctx =>
        let ctx2 := {| elookup := elookup ctx; ops := []; allowCalls := false;
                       curCall := 0; flags := 0; firstCall := false |} in
        match compileAST Fun ctx2 with
        | (Done, _) => compileFunctionCall node Fun Args ctx
        | (Fail err0, _) => compileTypeCast node Fun Args (Some err0) ctx
        | (Panic, _) => (Panic, ctx)
        end in
      match removeParenStar Fun with
      | ast.BasicLit _ _ => compileTypeCast node Fun Args None ctx
      | ast.ArrayType _ | ast.StructType | ast.FuncType | ast.InterfaceType
      | ast.MapType _ _ | ast.ChanType _ => compileTypeCast node Fun Args None ctx
      | ast.SelectorExpr nX nSel =>
          match nX with
          | ast.Ident _ =>
              match FindTypeExpr (elookup ctx) (Some (ast.SelectorExpr nX nSel)) with
              | (Some _, _) => compileTypeCast node Fun Args None ctx
              | (None, _) => ambiguous ctx
              end
          | _ => compileFunctionCall node Fun Args ctx
          end
      | ast.Ident Name =>
          if HasBuiltin (elookup ctx) Name then compileFunctionCall node Fun Args ctx
          else if HasGlobal (elookup ctx) "" Name || HasLocal (elookup ctx) Name
          then compileFunctionCall node Fun Args ctx
          else compileTypeCast node Fun Args (Some (ErrSymbolNotFound Name)) ctx
      | ast.IndexExpr nX _ =>
          match nX with
          | ast.Ident _ | ast.SelectorExpr _ _ =>
              match compileTypeCast node Fun Args None ctx with
              | (Fail err, ctx1) =>
                  if negb (is_ErrTypeNotFound err) then (Fail err, ctx1)
                  else compileFunctionCall node Fun Args ctx1
              | r => r
              end
          | _ => compileFunctionCall node Fun Args ctx
          end
      | ast.IndexListExpr _ _ => compileTypeCast node Fun Args None ctx
      | _ => compileFunctionCall node Fun Args ctx
      end.

(** The element loop of the composite-literal case: the error of
    compiling an element is dropped, a panic is not. *)
Fixpoint compileCompositeLit_elts (Field : list string) (i : nat)
    (elts : list ast.Expr) : M :=
  match elts with
  | [] => ret
  | elt :: rest => fun ctx =>
      let '(rhe, r, ctx1, field) :=
        match elt with
        | ast.KeyValueExpr Key Value =>
            let '(r, ctx1) := compileAST Value ctx in
            (Value, r, ctx1,
             match Key with ast.Ident Name => Some Name | _ => None end)
        | _ =>
            let '(r, ctx1) := compileAST elt ctx in
            (elt, r, ctx1, Field !! i)
        end in
      match r, field with
      | Panic, _ | _, None => (Panic, ctx1)
      | _, Some field =>
          compileCompositeLit_elts Field (S i) rest
            (pushOp (SetValue None rhe)
               (pushOp (Select field) (pushOp Dup ctx1)))
      end
  end.
End Methods.

Section Compiler.
Variable lib : golib.

Fixpoint compileAST (t : ast.Expr) {struct t} : M :=
  match t with
  | ast.CallExpr Fun Args =>
      compileTypeCastOrFuncCall lib compileAST t Fun Args

  | ast.Ident Name => compileIdent Name

  | ast.ParenExpr X => compileAST X

  | ast.SelectorExpr X Sel =>
      match X with
      | ast.Ident xName => fun ctx =>
          if String.eqb xName "runtime" && String.eqb Sel "curg" then
            lift (pushOp PushCurg) ctx
          else if String.eqb xName "runtime" && String.eqb Sel "frameoff" then
            lift (pushOp PushFrameoff) ctx
          else if String.eqb xName "runtime" && String.eqb Sel "threadid" then
            lift (pushOp PushThreadID) ctx
          else if HasLocal (elookup ctx) xName then
            lift (fun c => pushOp (Select Sel) (pushOp (PushLocal xName 0) c)) ctx
          else if HasGlobal (elookup ctx) xName Sel then
            lift (pushOp (PushPackageVar xName Sel)) ctx
          else compileUnary compileAST X (Select Sel) ctx
      | ast.CallExpr xFun xArgs =>
          let isframe :=
            match xFun with
            | ast.SelectorExpr (ast.Ident fName) identSel =>
                String.eqb fName "runtime" && String.eqb identSel "frame"
            | _ => false
            end in
          if isframe then
            match xArgs with
            | [] => panic
            | ast.BasicLit _ argValue :: _ =>
                match ParseInt_10_8 lib argValue with
                | inr err => fail err
                | inl fr => lift (pushOp (PushLocal Sel fr))
                end
            | _ :: _ => fail ErrFrameValue
            end
          else compileUnary compileAST X (Select Sel)
      | ast.BasicLit _ xValue =>
          match Unquote lib xValue with
          | inr err => fail err
          | inl s => fun ctx =>
              if HasGlobal (elookup ctx) s Sel
              then lift (pushOp (PushPackageVar s Sel)) ctx
              else compileUnary compileAST X (Select Sel) ctx
          end
      | _ => compileUnary compileAST X (Select Sel)
      end

  | ast.TypeAssertExpr X Type_ => compileTypeAssert compileAST t X Type_

  | ast.IndexExpr X Index_ => fun ctx =>
      fst (compileBinary compileAST X Index_ None (Index t) ctx)

  | ast.SliceExpr X Low High Slice3 =>
      if Slice3 then fail ErrSlice3
      else compileReslice compileAST t X Low High

  | ast.StarExpr X => compileUnary compileAST X (PointerDeref t)

  | ast.UnaryExpr Op_ X =>
      match Op_ with
      | token.AND => compileUnary compileAST X (AddrOf t)
      | _ => compileUnary compileAST X (Unary t)
      end

  | ast.BinaryExpr X Op_ Y =>
      match Op_ with
      | token.INC | token.DEC | token.ARROW => fail (ErrOperatorNotSupported Op_)
      | _ =>
          let sop := match Op_ with
                     | token.LAND => Some (Jump JumpIfFalse 0 false (Some X))
                     | token.LOR => Some (Jump JumpIfTrue 0 false (Some X))
                     | _ => None
                     end in
          fun ctx =>
            match compileBinary compileAST X Y sop (Binary t) ctx with
            | (Done, ctx1, at_) =>
                match sop with
                | Some _ => (Done, pushOp BoolToConst (patchJump at_ ctx1))
                | None => (Done, ctx1)
                end
            | (r, ctx1, _) => (r, ctx1)
            end
      end

  | ast.BasicLit Kind Value =>
      lift (pushOp (PushConst (constant.MakeFromLiteral Value Kind)))

  | ast.CompositeLit Type_ Elts => fun ctx =>
      if hasDebugPinner ctx then
        match FindTypeExpr (elookup ctx) Type_ with
        | (_, Some err) => fail err ctx
        | (None, None) => fail (ErrNotImplemented t) ctx
        | (Some dtyp, None) =>
            match ResolveTypedef dtyp with
            | godwarf.StructType Field =>
                if negb (allowCalls ctx) then fail errFuncCallNotAllowedLitAlloc ctx
                else
                  let ctx := compileSpecialCall "runtime.mallocgc"
                    [Some (ast.BasicLit token.INT "1"); Type_;
                     Some (ast.Ident "true")]
                    [Some (PushConst (constant.MakeInt64 1));
                     Some (PushRuntimeType dtyp);
                     Some (PushConst (constant.MakeBool true))] true ctx in
                  let ctx := pushOp (TypeCast (Some (godwarf.PtrType dtyp)) None) ctx in
                  let ctx := pushOp (PointerDeref
                    (ast.StarExpr (ast.Ident "runtime.mallocgc"))) ctx in
                  compileCompositeLit_elts compileAST Field 0 Elts ctx
            | _ => fail (ErrNotImplemented t) ctx
            end
        end
      else fail (ErrNotImplemented t) ctx

  | _ => fail (ErrNotImplemented t)
  end.

Context `{OpArity}.

(** [CompileAST] and [CompileSet] return the program and the error; a nil
    program is the empty list. *)
Definition CompileAST (lk : evalLookup) (t : ast.Expr) (fl : Z)
  : list Op * outcome :=
  let ctx := {| elookup := lk; ops := []; allowCalls := true; curCall := 0;
                flags := fl; firstCall := true |} in
  match compileAST t ctx with
  | (Done, ctx) =>
      let ctx := compileDebugUnpin ctx in
      (ops ctx, depthCheck (ops ctx) 1)
  | (r, _) => ([], r)
  end.

Definition CompileSet (lk : evalLookup) (lhexpr rhexpr : string) (fl : Z)
  : list Op * outcome :=
  match ParseExpr lib lhexpr with
  | inr err => ([], Fail err)
  | inl lhe =>
      match ParseExpr lib rhexpr with
      | inr err => ([], Fail err)
      | inl rhe =>
          let ctx := {| elookup := lk; ops := []; allowCalls := true;
                        curCall := 0; flags := fl; firstCall := true |} in
          match compileAST rhe ctx with
          | (Done, ctx) =>
              let ctx := if isStringLiteral rhe
                         then compileAllocLiteralString ctx else ctx in
              match compileAST lhe ctx with
              | (Done, ctx) =>
                  let ctx := pushOp (SetValue (Some lhe) rhe) ctx in
                  (ops ctx, depthCheck (ops ctx) 0)
              | (r, _) => ([], r)
              end
          | (r, _) => ([], r)
          end
      end
  end.

Definition isAssignment (err : error) : Z * bool :=
  match err with
  | ErrAssignment eqOff => (eqOff, true)
  | _ => (0, false)
  end.

(** [expr[:eqOff]] and [expr[eqOff+1:]]. *)
Definition Compile (lk : evalLookup) (expr : string) (fl : Z)
  : list Op * outcome :=
  match ParseExpr lib expr with
  | inr err =>
      if negb (Z.land fl CanSet =? 0) then
        match isAssignment err with
        | (eqOff, true) =>
            if (eqOff <? 0) || (Z.of_nat (String.length expr) <=? eqOff)
            then ([], Panic)
            else CompileSet lk
                   (String.substring 0 (Z.to_nat eqOff) expr)
                   (String.substring (Z.to_nat eqOff + 1)
                      (String.length expr - (Z.to_nat eqOff + 1)) expr) fl
        | _ => ([], Fail err)
        end
      else ([], Fail err)
  | inl t => CompileAST lk t fl
  end.
End Compiler.

(** ** Variables of the inferior ([proc.Variable])

    The map iterators read the inferior through [*Variable] values. The
    fields are the ones the iterators touch; the memory cache behind
    [cacheMemory] and [DereferenceMemory] only changes how reads are served
    and is left out. *)

Module reflect.
Inductive Kind := Invalid | Struct | Array | Slice | Ptr | Map | Uint | Int.

Definition eqb (a b : Kind) : bool :=
  match a, b with
  | Invalid, Invalid | Struct, Struct | Array, Array | Slice, Slice
  | Ptr, Ptr | Map, Map | Uint, Uint | Int, Int => true
  | _, _ => false
  end.
End reflect.

Inductive merror :=
| errWrongRealType
| errMalformedMapType
| errMapBucketContentsNotArray
| errMapBucketContentsInconsistentLen
| errMapBucketsNotStruct
| errMapDirectoryNotSlice
| errMapNoTyp
| errSwissTableCouldNotLoad
| errSwissMapNoGroups
| errSwissMapTypeNoGroup
| errSwissMapGroupTypeNoSize
| errSwissMapTypeNotStruct
| errSwissTableNotStruct
| errSwissGroupsNotStruct
| errMemory (msg : string)
| errWrap (where_ : string) (err : merror).

Inductive Variable_ := mkVariable {
  Addr : Z;
  Base : Z;
  Kind : reflect.Kind;
  Len : Z;
  RealType : option godwarf.Type_;
  DwarfType : option godwarf.Type_;
  fieldType : option godwarf.Type_;
  Unreadable : option merror;
  Children : list Variable_;
  Producer : string;
}.

Definition set_Addr (v : Variable_) (a : Z) : Variable_ :=
  mkVariable a (Base v) (Kind v) (Len v) (RealType v) (DwarfType v)
    (fieldType v) (Unreadable v) (Children v) (Producer v).
Definition set_Base (v : Variable_) (a : Z) : Variable_ :=
  mkVariable (Addr v) a (Kind v) (Len v) (RealType v) (DwarfType v)
    (fieldType v) (Unreadable v) (Children v) (Producer v).
Definition set_Len (v : Variable_) (n : Z) : Variable_ :=
  mkVariable (Addr v) (Base v) (Kind v) n (RealType v) (DwarfType v)
    (fieldType v) (Unreadable v) (Children v) (Producer v).
Definition set_RealType (v : Variable_) (t : option godwarf.Type_) : Variable_ :=
  mkVariable (Addr v) (Base v) (Kind v) (Len v) t (DwarfType v)
    (fieldType v) (Unreadable v) (Children v) (Producer v).
Definition set_Unreadable (v : Variable_) (e : option merror) : Variable_ :=
  mkVariable (Addr v) (Base v) (Kind v) (Len v) (RealType v) (DwarfType v)
    (fieldType v) e (Children v) (Producer v).

(** The methods of [*Variable] and the helpers of package [proc] that the
    iterators call and whose bodies are elsewhere: they decode debug
    information and read the memory of the stopped inferior, so for one
    inspection they are fixed functions. A [*Variable] that may be nil is an
    [option Variable_]. The four tophash constants come from the same place. *)
Record varops := {
  Type_Size : godwarf.Type_ -> Z;
  toField : Variable_ -> string -> option Variable_ * option merror;
  maybeDereference : option Variable_ -> option Variable_;
  sliceAccess : option Variable_ -> Z -> option Variable_ * option merror;
  asUint : option Variable_ -> Z * option merror;
  asInt : option Variable_ -> Z * option merror;
  loadFieldNamed : Variable_ -> string -> option Variable_;
  loadPtr : Variable_ -> Variable_;
  newVariable : Variable_ -> Z -> option godwarf.Type_ -> Variable_;
  readUintRaw : Z -> Z -> Z * option merror;
  ProducerAfterOrEqual : string -> Z -> Z -> bool;
  hashTophashEmptyZero : Z;
  hashTophashEmptyOne : Z;
  hashMinTopHashGo111 : Z;
  hashMinTopHashGo112 : Z;
}.

(** Result of a method of an iterator: a value, a run-time panic (nil
    dereference, failed type assertion, index out of range), or a loop that
    has not finished within the given number of iterations. *)
Inductive run (A : Type) :=
| Ret (a : A)
| GoPanic
| OutOfFuel.
Arguments Ret {A} a.
Arguments GoPanic {A}.
Arguments OutOfFuel {A}.

(** [x << s] on [uint64]. *)
Definition shl_u64 (x s : Z) : Z :=
  if 64 <=? s then 0 else wrap_u64 (Z.shiftl x s).

(** ** The iterator over classic maps ([mapIteratorClassic]) *)

Module Classic.
Record mapIteratorClassic := mk {
  v : Variable_;
  numbuckets : Z;
  oldmask : Z;
  buckets : option Variable_;
  oldbuckets : option Variable_;
  b : option Variable_;
  bidx : Z;
  tophashes : option Variable_;
  keys : option Variable_;
  values : option Variable_;
  overflow : option Variable_;
  maxNumBuckets : Z;
  idx : Z;
  hashTophashEmptyOne_ : Z;
  hashMinTopHash : Z;
}.

Definition set_v it x := mk x (numbuckets it) (oldmask it) (buckets it)
  (oldbuckets it) (b it) (bidx it) (tophashes it) (keys it) (values it)
  (overflow it) (maxNumBuckets it) (idx it) (hashTophashEmptyOne_ it)
  (hashMinTopHash it).
Definition set_b it x := mk (v it) (numbuckets it) (oldmask it) (buckets it)
  (oldbuckets it) x (bidx it) (tophashes it) (keys it) (values it)
  (overflow it) (maxNumBuckets it) (idx it) (hashTophashEmptyOne_ it)
  (hashMinTopHash it).
Definition set_bidx it x := mk (v it) (numbuckets it) (oldmask it) (buckets it)
  (oldbuckets it) (b it) x (tophashes it) (keys it) (values it)
  (overflow it) (maxNumBuckets it) (idx it) (hashTophashEmptyOne_ it)
  (hashMinTopHash it).
Definition set_idx it x := mk (v it) (numbuckets it) (oldmask it) (buckets it)
  (oldbuckets it) (b it) (bidx it) (tophashes it) (keys it) (values it)
  (overflow it) (maxNumBuckets it) x (hashTophashEmptyOne_ it)
  (hashMinTopHash it).
Definition set_fields it t k vl o := mk (v it) (numbuckets it) (oldmask it)
  (buckets it) (oldbuckets it) (b it) (bidx it) t k vl o
  (maxNumBuckets it) (idx it) (hashTophashEmptyOne_ it) (hashMinTopHash it).
Definition fail_with it (e : merror) : mapIteratorClassic :=
  set_v it (set_Unreadable (v it) (Some e)).

Section WithInferior.
Variable vo : varops.

(** The fields of [b.DwarfType] asserted to be a struct type; [None] is
    the panic of the type assertion. *)
Definition structFields (x : Variable_) : option (list string) :=
  match DwarfType x with
  | Some (godwarf.StructType Field) => Some Field
  | _ => None
  end.

Definition mapEvacuated (it : mapIteratorClassic) (b : Variable_) : run bool :=
  if Addr b =? 0 then Ret true
  else
    match structFields b with
    | None => GoPanic
    | Some Field =>
        if existsb (String.eqb "tophash") Field then
          let '(tophashes, _) := toField vo b "tophash" in
          let '(tophash0var, _) := sliceAccess vo tophashes 0 in
          match asUint vo tophash0var with
          | (_, Some _) => Ret true
          | (tophash0, None) =>
              Ret ((hashTophashEmptyOne_ it <? tophash0)
                   && (tophash0 <? hashMinTopHash it))
          end
        else Ret true
    end.

(** [x.clone()] with [Addr += uint64(x.DwarfType.Size()) * i]. *)
Definition bucketAt (x : option Variable_) (i : Z) : run Variable_ :=
  match x with
  | None => GoPanic
  | Some x =>
      match DwarfType x with
      | None => GoPanic
      | Some t =>
          Ret (set_Addr x
                 (wrap_u64 (Addr x + wrap_u64 (wrap_u64 (Type_Size vo t) * i))))
      end
  end.

(** The loop [for it.bidx < it.numbuckets]; every iteration that does not
    leave the loop increments [bidx], so [fuel] bounds it. *)
Fixpoint nextBucket_loop (fuel : nat) (it : mapIteratorClassic)
  : run mapIteratorClassic :=
  if bidx it <? numbuckets it then
    match fuel with
    | O => OutOfFuel
    | S fuel =>
        match bucketAt (buckets it) (bidx it) with
        | Ret newb =>
            let it := set_b it (Some newb) in
            match oldbuckets it with
            | None => GoPanic
            | Some ob =>
                if Addr ob <=? 0 then Ret it
                else
                  let oldbidx := Z.land (bidx it) (oldmask it) in
                  match bucketAt (oldbuckets it) oldbidx with
                  | Ret oldb =>
                      match mapEvacuated it oldb with
                      | Ret true => Ret it
                      | Ret false =>
                          if oldbidx =? bidx it then Ret (set_b it (Some oldb))
                          else
                            nextBucket_loop fuel
                              (set_bidx (set_b it None) (wrap_u64 (bidx it + 1)))
                      | GoPanic => GoPanic
                      | OutOfFuel => OutOfFuel
                      end
                  | GoPanic => GoPanic
                  | OutOfFuel => OutOfFuel
                  end
            end
        | GoPanic => GoPanic
        | OutOfFuel => OutOfFuel
        end
    end
  else Ret it.

(** The field loop of [nextBucket]: [Ret (false, _)] is an early
    [return false], [Ret (true, _)] the end of the loop. *)
Fixpoint nextBucket_fields (bv : Variable_) (Field : list string)
    (it : mapIteratorClassic) : run (bool * mapIteratorClassic) :=
  match Field with
  | [] => Ret (true, it)
  | f :: rest =>
      match toField vo bv f with
      | (_, Some err) => Ret (false, fail_with it err)
      | (None, None) => GoPanic
      | (Some field, None) =>
          match Unreadable field with
          | Some e => Ret (false, fail_with it e)
          | None =>
              let it :=
                if String.eqb f "tophash" then
                  set_fields it (Some field) (keys it) (values it) (overflow it)
                else if String.eqb f "keys" then
                  set_fields it (tophashes it) (Some field) (values it) (overflow it)
                else if String.eqb f "values" then
                  set_fields it (tophashes it) (keys it) (Some field) (overflow it)
                else if String.eqb f "overflow" then
                  set_fields it (tophashes it) (keys it) (values it)
                    (maybeDereference vo (Some field))
                else it in
              nextBucket_fields bv rest it
          end
      end
  end.

(** [it.values.fieldType.Size()] *)
Definition fieldTypeSize (x : Variable_) : run Z :=
  match fieldType x with
  | None => GoPanic
  | Some t => Ret (Type_Size vo t)
  end.

(** The second half of [nextBucket], from [if it.b.Addr <= 0] on. *)
Definition nextBucket_load (it : mapIteratorClassic)
  : run (bool * mapIteratorClassic) :=
  match b it with
  | None => GoPanic
  | Some bv =>
      if Addr bv <=? 0 then Ret (false, it)
      else
        let it := set_fields it None None None None in
        match RealType bv, structFields bv with
        | None, _ | _, None => GoPanic
        | Some _, Some Field =>
            match nextBucket_fields bv Field it with
            | Ret (false, it) => Ret (false, it)
            | GoPanic => GoPanic
            | OutOfFuel => OutOfFuel
            | Ret (true, it) =>
                match tophashes it, keys it, values it with
                | Some th, Some ks, Some vs =>
                    if negb (reflect.eqb (Kind th) reflect.Array)
                       || negb (reflect.eqb (Kind ks) reflect.Array)
                       || negb (reflect.eqb (Kind vs) reflect.Array)
                    then Ret (false, fail_with it errMapBucketContentsNotArray)
                    else if negb (Len th =? Len ks)
                    then Ret (false, fail_with it errMapBucketContentsInconsistentLen)
                    else
                      match fieldTypeSize vs with
                      | Ret sz =>
                          if (0 <? sz) && negb (Len th =? Len vs)
                          then Ret (false,
                                    fail_with it errMapBucketContentsInconsistentLen)
                          else
                            match overflow it with
                            | None => GoPanic
                            | Some o =>
                                if negb (reflect.eqb (Kind o) reflect.Struct)
                                then Ret (false, fail_with it errMapBucketsNotStruct)
                                else Ret (true, it)
                            end
                      | GoPanic => GoPanic
                      | OutOfFuel => OutOfFuel
                      end
                | _, _, _ => Ret (false, fail_with it errMalformedMapType)
                end
            end
        end
  end.

Definition nextBucket (it : mapIteratorClassic) : run (bool * mapIteratorClassic) :=
  let viaOverflow := match overflow it with
                     | Some o => 0 <? Addr o
                     | None => false
                     end in
  if viaOverflow then nextBucket_load (set_b it (overflow it))
  else
    let it := set_b it None in
    if (0 <? maxNumBuckets it) && (maxNumBuckets it <=? bidx it)
    then Ret (false, it)
    else
      match nextBucket_loop (Z.to_nat (numbuckets it - bidx it)) it with
      | Ret it =>
          match b it with
          | None => Ret (false, it)
          | Some _ => nextBucket_load (set_bidx it (wrap_u64 (bidx it + 1)))
          end
      | GoPanic => GoPanic
      | OutOfFuel => OutOfFuel
      end.

(** [next]: the loop [for { ... }] runs until a cell is found or the
    buckets are over; [fuel] bounds its iterations. *)
Fixpoint next (fuel : nat) (it : mapIteratorClassic)
  : run (bool * mapIteratorClassic) :=
  match fuel with
  | O => OutOfFuel
  | S fuel =>
      let refill :=
        match b it with
        | None => Ret true
        | Some _ =>
            match tophashes it with
            | None => GoPanic
            | Some th => Ret (Len th <=? idx it)
            end
        end in
      let advanced : run (bool * mapIteratorClassic) :=
        match refill with
        | Ret true =>
            match nextBucket it with
            | Ret (false, it) => Ret (false, it)
            | Ret (true, it) => Ret (true, set_idx it 0)
            | r => r
            end
        | Ret false => Ret (true, it)
        | GoPanic => GoPanic
        | OutOfFuel => OutOfFuel
        end in
      match advanced with
      | Ret (false, it) => Ret (false, it)
      | Ret (true, it) =>
          let '(tophash, _) := sliceAccess vo (tophashes it) (idx it) in
          match asUint vo tophash with
          | (_, Some err) =>
              Ret (false, fail_with it (errWrap "unreadable tophash" err))
          | (h, None) =>
              let it := set_idx it (wrap_int (idx it + 1)) in
              if negb (h =? hashTophashEmptyZero vo)
                 && negb (h =? hashTophashEmptyOne_ it)
              then Ret (true, it)
              else next fuel it
          end
      | GoPanic => GoPanic
      | OutOfFuel => OutOfFuel
      end
  end.

Definition key (it : mapIteratorClassic) : option Variable_ :=
  fst (sliceAccess vo (keys it) (wrap_int (idx it - 1))).

Definition value (it : mapIteratorClassic) : run (option Variable_) :=
  match values it with
  | None => GoPanic
  | Some vs =>
      match fieldTypeSize vs with
      | Ret sz =>
          if sz <=? 0
          then Ret (Some (newVariable vo (v it) (Addr vs) (fieldType vs)))
          else Ret (fst (sliceAccess vo (values it) (wrap_int (idx it - 1))))
      | GoPanic => GoPanic
      | OutOfFuel => OutOfFuel
      end
  end.
End WithInferior.
End Classic.

(** ** The iterator over Swiss-table maps ([mapIteratorSwiss]) *)

Module Swiss.
Definition swissMapGroupSlots : Z := 8.
Definition swissTableCtrlEmpty : Z := 128.
Definition swissTableGroupSlotsOffset : Z := 8.

Record swissTable := mkTable {
  index : Z;
  groupsData : Z;
  groupsLengthMask : Z;
}.

Record mapIteratorSwiss := mk {
  v : Variable_;
  directory : option Variable_;
  maxNumGroups : Z;
  keyType : option godwarf.Type_;
  fieldType_ : option godwarf.Type_;
  slotSize : Z;
  elemOff : Z;
  groupSize : Z;
  dirIdx : Z;
  tab : option swissTable;
  groupIdx : Z;
  group : Z;
  slotIdx : Z;
  groupCount : Z;
  curKey : option Variable_;
  curValue : option Variable_;
}.

Definition set_v it x := mk x (directory it) (maxNumGroups it) (keyType it)
  (fieldType_ it) (slotSize it) (elemOff it) (groupSize it) (dirIdx it)
  (tab it) (groupIdx it) (group it) (slotIdx it) (groupCount it) (curKey it)
  (curValue it).
Definition set_directory it x := mk (v it) x (maxNumGroups it) (keyType it)
  (fieldType_ it) (slotSize it) (elemOff it) (groupSize it) (dirIdx it)
  (tab it) (groupIdx it) (group it) (slotIdx it) (groupCount it) (curKey it)
  (curValue it).
Definition set_sizes it ss eo gs := mk (v it) (directory it) (maxNumGroups it)
  (keyType it) (fieldType_ it) ss eo gs (dirIdx it)
  (tab it) (groupIdx it) (group it) (slotIdx it) (groupCount it) (curKey it)
  (curValue it).
Definition set_table it d t := mk (v it) (directory it) (maxNumGroups it)
  (keyType it) (fieldType_ it) (slotSize it) (elemOff it) (groupSize it) d
  t (groupIdx it) (group it) (slotIdx it) (groupCount it) (curKey it)
  (curValue it).
Definition set_group it gi g := mk (v it) (directory it) (maxNumGroups it)
  (keyType it) (fieldType_ it) (slotSize it) (elemOff it) (groupSize it)
  (dirIdx it) (tab it) gi g (slotIdx it) (groupCount it) (curKey it)
  (curValue it).
Definition set_slotIdx it x := mk (v it) (directory it) (maxNumGroups it)
  (keyType it) (fieldType_ it) (slotSize it) (elemOff it) (groupSize it)
  (dirIdx it) (tab it) (groupIdx it) (group it) x (groupCount it) (curKey it)
  (curValue it).
Definition set_groupCount it x := mk (v it) (directory it) (maxNumGroups it)
  (keyType it) (fieldType_ it) (slotSize it) (elemOff it) (groupSize it)
  (dirIdx it) (tab it) (groupIdx it) (group it) (slotIdx it) x (curKey it)
  (curValue it).
Definition set_cur it k vl := mk (v it) (directory it) (maxNumGroups it)
  (keyType it) (fieldType_ it) (slotSize it) (elemOff it) (groupSize it)
  (dirIdx it) (tab it) (groupIdx it) (group it) (slotIdx it) (groupCount it)
  k vl.
Definition fail_with it (e : merror) : mapIteratorSwiss :=
  set_v it (set_Unreadable (v it) (Some e)).

Section WithInferior.
Variable vo : varops.

(** The field loop of [loadType]; the local [group] is threaded along. *)
Fixpoint loadType_fields (swisstyp : Variable_) (Field : list string)
    (it : mapIteratorSwiss) (group : option Variable_)
  : (mapIteratorSwiss * option Variable_) + merror :=
  match Field with
  | [] => inl (it, group)
  | f :: rest =>
      let '(field, _) := toField vo swisstyp f in
      let '(it, group, err) :=
        if String.eqb f "SlotSize" then
          let '(n, err) := asUint vo field in
          (set_sizes it n (elemOff it) (groupSize it), group, err)
        else if String.eqb f "ElemOff" then
          let '(n, err) := asUint vo field in
          (set_sizes it (slotSize it) n (groupSize it), group, err)
        else if String.eqb f "Group" then (it, field, None)
        else (it, group, None) in
      match err with
      | Some e => inr (errWrap f e)
      | None => loadType_fields swisstyp rest it group
      end
  end.

Definition loadType (it : mapIteratorSwiss) (swisstyp : Variable_)
  : run (mapIteratorSwiss * option merror) :=
  match DwarfType swisstyp with
  | None => GoPanic
  | Some t =>
      match ResolveTypedef t with
      | godwarf.StructType Field =>
          match loadType_fields swisstyp Field it None with
          | inr e => Ret (it, Some e)
          | inl (it, None) => Ret (it, Some errSwissMapTypeNoGroup)
          | inl (it, Some group) =>
              match loadFieldNamed vo group "Size_" with
              | None => Ret (it, Some errSwissMapGroupTypeNoSize)
              | Some groupsz =>
                  let '(n, err) := asUint vo (Some groupsz) in
                  let it := set_sizes it (slotSize it) (elemOff it) n in
                  match err with
                  | Some e => Ret (it, Some (errWrap "group size" e))
                  | None => Ret (it, None)
                  end
              end
          end
      | _ => Ret (it, Some errSwissMapTypeNotStruct)
      end
  end.

Definition nextTable (it : mapIteratorSwiss) : mapIteratorSwiss :=
  set_table it (wrap_int (dirIdx it + 1)) None.

Definition nextGroup (it : mapIteratorSwiss) : mapIteratorSwiss :=
  set_group it (wrap_u64 (groupIdx it + 1)) 0.

(** The two field loops of [loadCurrentTable]: [inr] is an early return
    with the error to record. *)
Fixpoint loadCurrentTable_fields (tab : Variable_) (Field : list string)
    (r : swissTable) (groups : option Variable_)
  : (swissTable * option Variable_) + merror :=
  match Field with
  | [] => inl (r, groups)
  | f :: rest =>
      let '(field, _) := toField vo tab f in
      if String.eqb f "index" then
        let '(n, err) := asInt vo field in
        match err with
        | Some e => inr (errWrap "index" e)
        | None =>
            loadCurrentTable_fields tab rest
              (mkTable n (groupsData r) (groupsLengthMask r)) groups
        end
      else if String.eqb f "groups" then
        loadCurrentTable_fields tab rest r field
      else loadCurrentTable_fields tab rest r groups
  end.

Fixpoint loadCurrentTable_groups (groups : Variable_) (Field : list string)
    (r : swissTable) : run (swissTable + merror) :=
  match Field with
  | [] => Ret (inl r)
  | f :: rest =>
      let '(field, _) := toField vo groups f in
      if String.eqb f "data" then
        match field with
        | None => GoPanic
        | Some field =>
            let field := loadPtr vo field in
            match Unreadable field with
            | Some e => Ret (inr (errWrap "group data" e))
            | None =>
                match Children field with
                | [] => GoPanic
                | child :: _ =>
                    loadCurrentTable_groups groups rest
                      (mkTable (index r) (Addr child) (groupsLengthMask r))
                end
            end
        end
      else if String.eqb f "lengthMask" then
        let '(n, err) := asUint vo field in
        match err with
        | Some e => Ret (inr (errWrap "lengthMask" e))
        | None =>
            loadCurrentTable_groups groups rest
              (mkTable (index r) (groupsData r) n)
        end
      else loadCurrentTable_groups groups rest r
  end.

Definition loadCurrentTable (it : mapIteratorSwiss) : run mapIteratorSwiss :=
  let '(tab, err) := sliceAccess vo (directory it) (dirIdx it) in
  let unreadable := match tab with
                    | Some t => bool_decide (is_Some (Unreadable t))
                    | None => true
                    end in
  if bool_decide (is_Some err) || unreadable
  then Ret (fail_with it errSwissTableCouldNotLoad)
  else
    match maybeDereference vo tab with
    | None => GoPanic
    | Some tab =>
        match DwarfType tab with
        | Some (godwarf.StructType tabFields) =>
            match loadCurrentTable_fields tab tabFields (mkTable 0 0 0) None with
            | inr e => Ret (fail_with it e)
            | inl (_, None) => Ret (fail_with it errSwissMapNoGroups)
            | inl (r, Some groups) =>
                match DwarfType groups with
                | Some (godwarf.StructType groupsFields) =>
                    match loadCurrentTable_groups groups groupsFields r with
                    | Ret (inr e) => Ret (fail_with it e)
                    | Ret (inl r) =>
                        Ret (set_table it (dirIdx it) (Some r))
                    | GoPanic => GoPanic
                    | OutOfFuel => OutOfFuel
                    end
                | Some _ => Ret (fail_with it errSwissGroupsNotStruct)
                | None => GoPanic
                end
            end
        | Some _ => Ret (fail_with it errSwissTableNotStruct)
        | None => GoPanic
        end
    end.

Definition loadCurrentGroup (it : mapIteratorSwiss) : run mapIteratorSwiss :=
  match tab it with
  | None => GoPanic
  | Some t =>
      Ret (set_group it (groupIdx it)
             (wrap_u64 (groupsData t + wrap_u64 (groupIdx it * groupSize it))))
  end.

Definition slotKey (it : mapIteratorSwiss) (k : Z) : Variable_ :=
  newVariable vo (v it)
    (wrap_u64 (wrap_u64 (group it + swissTableGroupSlotsOffset)
               + wrap_u64 (k * slotSize it)))
    (keyType it).

Definition slotValue (it : mapIteratorSwiss) (k : Z) : Variable_ :=
  newVariable vo (v it)
    (wrap_u64 (wrap_u64 (wrap_u64 (group it + swissTableGroupSlotsOffset)
                         + wrap_u64 (k * slotSize it))
               + elemOff it))
    (fieldType_ it).

Definition slotIsEmpty (it : mapIteratorSwiss) (k : Z) : bool * mapIteratorSwiss :=
  match readUintRaw vo (wrap_u64 (group it + k)) 1 with
  | (_, Some err) =>
      (true, fail_with it (errWrap "control array" err))
  | (n, None) =>
      (Z.land n swissTableCtrlEmpty =? swissTableCtrlEmpty, it)
  end.

(** The innermost loop [for ; it.slotIdx < swissMapGroupSlots; it.slotIdx++]:
    [inl] is [return true], [inr] the end of the loop. [n] bounds the
    iterations; eight are enough. *)
Fixpoint next_slots (n : nat) (it : mapIteratorSwiss)
  : run (mapIteratorSwiss + mapIteratorSwiss) :=
  if slotIdx it <? swissMapGroupSlots then
    match n with
    | O => OutOfFuel
    | S n =>
        let '(empty, it) := slotIsEmpty it (slotIdx it) in
        if empty then next_slots n (set_slotIdx it (slotIdx it + 1))
        else
          let it := set_cur it (Some (slotKey it (slotIdx it)))
                               (Some (slotValue it (slotIdx it))) in
          let it := set_slotIdx it (slotIdx it + 1) in
          let it := if swissMapGroupSlots <=? slotIdx it
                    then set_slotIdx (nextGroup it) 0 else it in
          Ret (inl it)
    end
  else Ret (inr it).

(** The loop [for ; it.groupIdx <= it.tab.groupsLengthMask; it.nextGroup()]:
    [inl (r, it)] is [return r], [inr it] the end of the loop. *)
Fixpoint next_groups (fuel : nat) (it : mapIteratorSwiss)
  : run (bool * mapIteratorSwiss + mapIteratorSwiss) :=
  match tab it with
  | None => GoPanic
  | Some t =>
      if groupIdx it <=? groupsLengthMask t then
        match fuel with
        | O => OutOfFuel
        | S fuel =>
            if (0 <? maxNumGroups it)
               && (maxNumGroups it <=? wrap_u64 (groupIdx it + groupCount it))
            then Ret (inl (false, it))
            else
              let loaded := if group it =? 0 then loadCurrentGroup it else Ret it in
              match loaded with
              | Ret it =>
                  if group it =? 0 then Ret (inl (false, it))
                  else
                    match next_slots 8 it with
                    | Ret (inl it) => Ret (inl (true, it))
                    | Ret (inr it) =>
                        next_groups fuel (nextGroup (set_slotIdx it 0))
                    | GoPanic => GoPanic
                    | OutOfFuel => OutOfFuel
                    end
              | GoPanic => GoPanic
              | OutOfFuel => OutOfFuel
              end
        end
      else Ret (inr it)
  end.

(** [next]: the outer loop [for it.dirIdx < it.directory.Len]; [fuel]
    bounds the iterations of the outer and of the group loop. *)
Fixpoint next (fuel : nat) (it : mapIteratorSwiss)
  : run (bool * mapIteratorSwiss) :=
  match directory it with
  | None => GoPanic
  | Some dir =>
      if dirIdx it <? Len dir then
        match fuel with
        | O => OutOfFuel
        | S fuel =>
            (* [inl r]: return r; [inr (skip, it)]: go on, with [skip]
               when the table just loaded is not the one of this entry *)
            let loaded : run (bool * mapIteratorSwiss + bool * mapIteratorSwiss) :=
              match tab it with
              | Some _ => Ret (inr (false, it))
              | None =>
                  match loadCurrentTable it with
                  | Ret it =>
                      match tab it with
                      | None => Ret (inl (false, it))
                      | Some t => Ret (inr (negb (index t =? dirIdx it), it))
                      end
                  | GoPanic => GoPanic
                  | OutOfFuel => OutOfFuel
                  end
              end in
            match loaded with
            | Ret (inl r) => Ret r
            | Ret (inr (true, it)) => next fuel (nextTable it)
            | Ret (inr (false, it)) =>
                match next_groups fuel it with
                | Ret (inl r) => Ret r
                | Ret (inr it) =>
                    let it := set_groupCount it
                                (wrap_u64 (groupCount it + groupIdx it)) in
                    let it := set_group it 0 0 in
                    next fuel (nextTable it)
                | GoPanic => GoPanic
                | OutOfFuel => OutOfFuel
                end
            | GoPanic => GoPanic
            | OutOfFuel => OutOfFuel
            end
        end
      else Ret (false, it)
  end.

Definition key (it : mapIteratorSwiss) : option Variable_ := curKey it.
Definition value (it : mapIteratorSwiss) : option Variable_ := curValue it.
End WithInferior.
End Swiss.

(** ** Choosing the iterator ([Variable.mapIterator]) *)

Inductive mapIterator_ :=
| ClassicIt (it : Classic.mapIteratorClassic)
| SwissIt (it : Swiss.mapIteratorSwiss).

Section MapIterator.
Variable vo : varops.

(** The state of the loop over the fields of the map header. *)
Record headerState := mkHeader {
  h_v : Variable_;
  h_it : Classic.mapIteratorClassic;
  h_itswiss : Swiss.mapIteratorSwiss;
  h_swisstyp : option Variable_;
}.

Definition classic_header (it : Classic.mapIteratorClassic)
    (nb om : Z) (bk obk : option Variable_) : Classic.mapIteratorClassic :=
  Classic.mk (Classic.v it) nb om bk obk (Classic.b it) (Classic.bidx it)
    (Classic.tophashes it) (Classic.keys it) (Classic.values it)
    (Classic.overflow it) (Classic.maxNumBuckets it) (Classic.idx it)
    (Classic.hashTophashEmptyOne_ it) (Classic.hashMinTopHash it).

Definition classic_hashes (it : Classic.mapIteratorClassic)
    (emptyOne minTop : Z) : Classic.mapIteratorClassic :=
  Classic.mk (Classic.v it) (Classic.numbuckets it) (Classic.oldmask it)
    (Classic.buckets it) (Classic.oldbuckets it) (Classic.b it)
    (Classic.bidx it) (Classic.tophashes it) (Classic.keys it)
    (Classic.values it) (Classic.overflow it) (Classic.maxNumBuckets it)
    (Classic.idx it) emptyOne minTop.

(** [inr err]: [v.Unreadable = err; return nil]. *)
Fixpoint mapIterator_fields (sv : Variable_) (Field : list string)
    (st : headerState) : headerState + headerState :=
  match Field with
  | [] => inl st
  | f :: rest =>
      let '(field, _) := toField vo sv f in
      let it := h_it st in
      let '(st, err) :=
        if String.eqb f "count" then
          let '(n, err) := asInt vo field in
          (mkHeader (set_Len (h_v st) n) it (h_itswiss st) (h_swisstyp st), err)
        else if String.eqb f "B" then
          let '(b, err) := asUint vo field in
          (mkHeader (h_v st)
             (classic_header it (shl_u64 1 b)
                (wrap_u64 (shl_u64 1 (wrap_u64 (b - 1)) - 1))
                (Classic.buckets it) (Classic.oldbuckets it))
             (h_itswiss st) (h_swisstyp st), err)
        else if String.eqb f "buckets" then
          (mkHeader (h_v st)
             (classic_header it (Classic.numbuckets it) (Classic.oldmask it)
                (maybeDereference vo field) (Classic.oldbuckets it))
             (h_itswiss st) (h_swisstyp st), None)
        else if String.eqb f "oldbuckets" then
          (mkHeader (h_v st)
             (classic_header it (Classic.numbuckets it) (Classic.oldmask it)
                (Classic.buckets it) (maybeDereference vo field))
             (h_itswiss st) (h_swisstyp st), None)
        else if String.eqb f "used" then
          let '(n, err) := asUint vo field in
          (mkHeader (set_Len (h_v st) (wrap_int n)) it (h_itswiss st)
             (h_swisstyp st), err)
        else if String.eqb f "directory" then
          (mkHeader (h_v st) it
             (Swiss.set_directory (h_itswiss st) (maybeDereference vo field))
             (h_swisstyp st), None)
        else if String.eqb f "typ" then
          (mkHeader (h_v st) it (h_itswiss st) (maybeDereference vo field), None)
        else (st, None) in
      match err with
      | Some e =>
          inr (mkHeader (set_Unreadable (h_v st) (Some e)) (h_it st)
                 (h_itswiss st) (h_swisstyp st))
      | None => mapIterator_fields sv rest st
      end
  end.

(** The result is the iterator (nil is [None]) and the variable [v] as the
    call leaves it; the iterator's own [v] is that same variable. *)
Definition mapIterator (v : Variable_) (maxNumBuckets : Z)
  : run (option mapIterator_ * Variable_) :=
  match RealType v with
  | Some (godwarf.MapType KeyType ElemType under) =>
      let sv := set_RealType v
                  (Some (ResolveTypedef (godwarf.TypedefType "" under))) in
      match maybeDereference vo (Some sv) with
      | None => GoPanic
      | Some sv =>
          let v := set_Base v (Addr sv) in
          match RealType sv with
          | Some (godwarf.StructType Field) =>
              let it := Classic.mk v 0 0 None None None 0 None None None None
                          maxNumBuckets 0 0 0 in
              let itswiss := Swiss.mk v None maxNumBuckets (Some KeyType)
                               (Some ElemType) 0 0 0 0 None 0 0 0 0 None None in
              if Addr sv =? 0 then
                Ret (Some (ClassicIt
                             (classic_header it 0 (Classic.oldmask it)
                                (Classic.buckets it) (Classic.oldbuckets it))), v)
              else
                match mapIterator_fields sv Field (mkHeader v it itswiss None) with
                | inr st => Ret (None, h_v st)
                | inl st =>
                    let v := h_v st in
                    let it := Classic.set_v (h_it st) v in
                    let itswiss := Swiss.set_v (h_itswiss st) v in
                    match Classic.buckets it, Swiss.directory itswiss with
                    | None, Some dir =>
                        if negb (reflect.eqb (Kind dir) reflect.Slice) then
                          Ret (None, set_Unreadable v (Some errMapDirectoryNotSlice))
                        else
                          match h_swisstyp st with
                          | None => Ret (None, set_Unreadable v (Some errMapNoTyp))
                          | Some swisstyp =>
                              match Swiss.loadType vo itswiss swisstyp with
                              | Ret (_, Some err) =>
                                  Ret (None, set_Unreadable v (Some err))
                              | Ret (itswiss, None) =>
                                  Ret (Some (SwissIt itswiss), v)
                              | GoPanic => GoPanic
                              | OutOfFuel => OutOfFuel
                              end
                          end
                    | _, _ =>
                        match Classic.buckets it, Classic.oldbuckets it with
                        | Some bk, Some obk =>
                            if negb (reflect.eqb (Kind bk) reflect.Struct)
                               || negb (reflect.eqb (Kind obk) reflect.Struct)
                            then Ret (None,
                                      set_Unreadable v (Some errMapBucketsNotStruct))
                            else
                              let newer :=
                                negb (String.eqb (Producer v) "")
                                && ProducerAfterOrEqual vo (Producer v) 1 12 in
                              Ret (Some (ClassicIt
                                (if newer
                                 then classic_hashes it (hashTophashEmptyOne vo)
                                        (hashMinTopHashGo112 vo)
                                 else classic_hashes it (hashTophashEmptyZero vo)
                                        (hashMinTopHashGo111 vo))), v)
                        | Some bk, None =>
                            if negb (reflect.eqb (Kind bk) reflect.Struct)
                            then Ret (None,
                                      set_Unreadable v (Some errMapBucketsNotStruct))
                            else GoPanic
                        | None, _ => GoPanic
                        end
                    end
                end
          | _ => Ret (None, set_Unreadable v (Some errWrongRealType))
          end
      end
  | _ => GoPanic
  end.
End MapIterator.

(** ** Stack effects of the operations *)

(** Modelled from the spec: the per-operation [depthCheck] methods belong to
    the operation set, whose file is not among the sources. The spec gives
    [Roll{n}] the arity [(n, n)], the argument copier [(1, 0)], and through
    its scenarios [PushConst]/[PushLocal] [(0, 1)], [Binary] [(2, 1)] and
    [SetValue] [(2, 0)]; the other entries follow the stack discipline of
    the lowering rules (each entry is the number of values the operation
    takes from and leaves on the stack). *)
Definition spec_arity : OpArity := fun op =>
  match op with
  | PushCurg | PushFrameoff | PushThreadID | PushLocal _ _
  | PushPackageVar _ _ | PushConst _ | PushNil | PushRegister _ _
  | PushRuntimeType _ | PushDebugPinner | PushPinAddress => (0, 1)
  | PushLen => (1, 2)
  | Select _ | TypeAssert _ _ | TypeCast _ _ | PointerDeref _ | AddrOf _
  | Unary _ | BoolToConst => (1, 1)
  | Binary _ | Index _ => (2, 1)
  | Reslice HasHigh _ => if HasHigh then (3, 1) else (2, 1)
  | Pop => (1, 0)
  | Dup => (1, 2)
  | Roll N => (N, N)
  | BuiltinCall _ Args => (Z.of_nat (length Args), 1)
  | Jump _ _ Pop_ _ => if Pop_ then (1, 0) else (0, 0)
  | SetValue _ _ => (2, 0)
  | CallInjectionStart HasFunc _ _ => if HasFunc then (1, 2) else (0, 1)
  | CallInjectionStartSpecial _ _ _ => (0, 1)
  | CallInjectionSetTarget _ => (1, 0)
  | CallInjectionCopyArg _ _ _ => (1, 0)
  | CallInjectionComplete _ _ => (0, 1)
  | CallInjectionComplete2 _ => (0, 0)
  | ConvertAllocToString => (2, 1)
  | SetDebugPinner => (1, 0)
  end.

(** * Specification predicates *)

(** What the verifier establishes about a program: the table has one entry
    per index [0 .. len], every entry is a non-negative depth, entry 0 is 0,
    every instruction finds at least the values it takes, its fallthrough
    successor and (for a jump) its target hold the depth it leaves, and the
    last entry is the declared one. *)
Definition depth_edge `{OpArity} (depth : list Z) (k : nat) (op : Op) : Prop :=
  exists dk : Z,
    depth !! k = Some dk /\
    fst (Op_depthCheck op) <= dk /\
    let d := wrap_int (dk - fst (Op_depthCheck op) + snd (Op_depthCheck op)) in
    depth !! S k = Some d /\
    forall When Target Pop_ Node, op = Jump When Target Pop_ Node ->
      0 <= Target /\ depth !! Z.to_nat Target = Some d.

Definition depth_table_ok `{OpArity} (ops : list Op) (depth : list Z)
    (endDepth : Z) : Prop :=
  length depth = S (length ops) /\
  depth !! 0%nat = Some 0 /\
  (forall (k : nat) (dk : Z), depth !! k = Some dk -> 0 <= dk) /\
  (forall (k : nat) (op : Op), ops !! k = Some op -> depth_edge depth k op) /\
  depth !! length ops = Some endDepth.

(** What holds when the loop is about to look at instruction [i]. *)
Definition loop_inv `{OpArity} (ops : list Op) (i : nat) (depth : list Z) : Prop :=
  length depth = S (length ops) /\
  depth !! 0%nat = Some 0 /\
  (forall (k : nat) (dk : Z), (k < i)%nat -> depth !! k = Some dk -> 0 <= dk) /\
  (forall (k : nat) (op : Op), (k < i)%nat -> ops !! k = Some op ->
     depth_edge depth k op).

Definition isStartSpecial (op : Op) : bool :=
  match op with CallInjectionStartSpecial _ _ _ => true | _ => false end.

Definition targets_in_range (ops : list Op) : Prop :=
  forall (k : nat) When Target Pop_ Node,
    ops !! k = Some (Jump When Target Pop_ Node) ->
    0 <= Target <= Z.of_nat (length ops).


(** The copies of the arguments of call [id], last argument first, each
    with its own position. *)
Definition copyArgsReversed (id : Z) (Args : list ast.Expr) : list Op :=
  rev (imap (fun i arg => CallInjectionCopyArg id (Z.of_nat i) (Some arg)) Args).

(** The acquisition of the pinner, its special call having the id [id]. *)
Definition acquireOps (id : Z) : list Op :=
  [CallInjectionStartSpecial id DebugPinnerFunctionName [];
   CallInjectionSetTarget id;
   CallInjectionComplete id false;
   SetDebugPinner].

(** The arguments [args] compiled from left to right: each one is compiled
    where the one before it has left the context, without error; [codes]
    holds, argument by argument, the code this has appended, which is the
    code of the expression followed, for a string literal, by its
    allocation sequence. *)
Fixpoint argumentsCompiled (lib : golib) (args : list ast.Expr)
    (c : compileCtx) (codes : list (list Op)) (c' : compileCtx) : Prop :=
  match args, codes with
  | [], [] => c' = c
  | a :: args', code :: codes' =>
      exists (c1 : compileCtx) (ecode scode : list Op),
        compileAST lib a c = (Done, c1) /\ ops c1 = ops c ++ ecode /\
        let c2 := if isStringLiteral a
                  then compileAllocLiteralString c1 else c1 in
        ops c2 = ops c1 ++ scode /\
        (isStringLiteral a = false -> scode = []) /\
        code = ecode ++ scode /\
        argumentsCompiled lib args' c2 codes' c'
  | _, _ => False
  end.

(** The pinning loop of call [id] placed at index [loopStart], its special
    call to [Pin] having the id [pinId]: the first jump leaves the loop for
    the instruction after the jump back. *)
Definition pinningLoopOps (loopStart : nat) (pinId id : Z) : list Op :=
  [Jump JumpIfPinningDone (Z.of_nat (loopStart + 10)) false None;
   PushPinAddress;
   CallInjectionStartSpecial pinId "runtime.(*Pinner).Pin"
     [Some (ast.Ident "debugPinner"); Some (ast.Ident "pinAddress")];
   CallInjectionSetTarget pinId;
   PushDebugPinner;
   CallInjectionCopyArg pinId 0 None;
   CallInjectionCopyArg pinId 1 None;
   CallInjectionComplete pinId false;
   Pop;
   Jump JumpAlways (Z.of_nat loopStart) false None;
   CallInjectionComplete2 id].

Definition isConvertAllocToString (op : Op) : bool :=
  match op with ConvertAllocToString => true | _ => false end.

Definition countConvertAllocToString (code : list Op) : nat :=
  length (List.filter isConvertAllocToString code).

(** [c'] is [c] with [code] appended to its program; scope, flags and
    [allowCalls] are the same. *)
Definition extends (c c' : compileCtx) (code : list Op) : Prop :=
  ops c' = ops c ++ code /\ elookup c' = elookup c /\ flags c' = flags c
  /\ allowCalls c' = allowCalls c.

Definition noConvert (args : list (option Op)) : Prop :=
  Forall (fun a => match a with
                   | Some op => isConvertAllocToString op = false
                   | None => True
                   end) args.


(** Special calls by the name of the function they call. A pinner
    acquisition is the special call to [runtime.debugPinner] (its result is
    stored by the [SetDebugPinner] that follows it); a release starts with
    the special call to [Unpin]. *)
Definition callsSpecial (g : string -> bool) (op : Op) : bool :=
  match op with
  | CallInjectionStartSpecial _ FnName _ => g FnName
  | _ => false
  end.

Definition isPinnerAcquisition : Op -> bool :=
  callsSpecial (fun fn => String.eqb fn DebugPinnerFunctionName).
Definition isPinnerRelease : Op -> bool :=
  callsSpecial (fun fn => String.eqb fn "runtime.(*Pinner).Unpin").

Definition acquiresPinner (code : list Op) : bool := existsb isPinnerAcquisition code.
Definition releasesPinner (code : list Op) : bool := existsb isPinnerRelease code.

(** What the compiler maintains about the pinner: [firstCall] is unset
    exactly when the program holds an acquisition, which takes the
    [HasDebugPinner] flag, and the program holds no release. *)
Definition pinner_inv (c : compileCtx) : Prop :=
  firstCall c = negb (acquiresPinner (ops c)) /\
  (firstCall c = false -> hasDebugPinner c = true) /\
  releasesPinner (ops c) = false.

(** [c'] may follow [c]: same flags, and the pinner invariant carries over. *)
Definition follows (c c' : compileCtx) : Prop :=
  flags c' = flags c /\ (pinner_inv c -> pinner_inv c').

Definition keeps (m : M) : Prop :=
  forall c r c', m c = (r, c') -> follows c c'.

(** Operands of a special call that start no special call themselves. *)
Definition plainArgs (args : list (option Op)) : Prop :=
  Forall (fun a => match a with
                   | Some op => isStartSpecial op = false
                   | None => True
                   end) args.

(** The immediate subexpressions of an expression. *)
Definition children (e : ast.Expr) : list ast.Expr :=
  let opt := fun o : option ast.Expr =>
    match o with Some x => [x] | None => [] end in
  match e with
  | ast.ParenExpr X | ast.SelectorExpr X _ | ast.StarExpr X
  | ast.UnaryExpr _ X | ast.ArrayType X | ast.ChanType X => [X]
  | ast.TypeAssertExpr X Type_ => X :: opt Type_
  | ast.IndexExpr X Y | ast.BinaryExpr X _ Y | ast.KeyValueExpr X Y
  | ast.MapType X Y => [X; Y]
  | ast.IndexListExpr X l | ast.CallExpr X l => X :: l
  | ast.SliceExpr X Low High _ => X :: opt Low ++ opt High
  | ast.CompositeLit Type_ Elts => opt Type_ ++ Elts
  | _ => []
  end.

(** The release sequence, its special call having the id [c]. *)
Definition releaseOps (c : Z) : list Op :=
  [CallInjectionStartSpecial c "runtime.(*Pinner).Unpin"
     [Some (ast.Ident "debugPinner")];
   CallInjectionSetTarget c;
   PushDebugPinner;
   CallInjectionCopyArg c 0 None;
   CallInjectionComplete c false;
   Pop; PushNil; SetDebugPinner].

Definition endsWithRelease (code : list Op) : Prop :=
  exists (c : Z) (before : list Op), code = before ++ releaseOps c.

(** ** Fixtures: a scope and a parser for concrete runs *)

Definition sample_lookup : evalLookup := {|
  FindTypeExpr := fun _ => (None, Some ErrTypeNotFound);
  HasLocal := fun name =>
    String.eqb name "a" || String.eqb name "b" || String.eqb name "x"
    || String.eqb name "y";
  HasGlobal := fun pkg name => String.eqb pkg "" && String.eqb name "foo";
  HasBuiltin := fun name => String.eqb name "len";
  LookupRegisterName := fun _ => None;
|}.

(** The source text of a string literal: its content between double quotes. *)
Definition quoted (s : string) : string :=
  String (Ascii.ascii_of_nat 34) (s ++ String (Ascii.ascii_of_nat 34) EmptyString).

(** A parser that knows the sides of the assignments used below. *)
Definition sample_lib : golib := {|
  ParseExpr := fun s =>
    if String.eqb s "x" then inl (ast.Ident "x")
    else if String.eqb s "y" then inl (ast.Ident "y")
    else if String.eqb s (quoted "hi")
    then inl (ast.BasicLit token.STRING (quoted "hi"))
    else inr (ErrParse s);
  ParseInt_10_8 := fun s => inr (ErrParse s);
  Unquote := fun s => inr (ErrParse s);
  ExprToString := fun _ => "";
|}.

(** The expressions [a && b], [foo(a, "b")], [foo("a" + "b")] and
    [len("hi")]. *)
Definition expr_a_and_b : ast.Expr :=
  ast.BinaryExpr (ast.Ident "a") token.LAND (ast.Ident "b").
Definition expr_foo_a_b : ast.Expr :=
  ast.CallExpr (ast.Ident "foo")
    [ast.Ident "a"; ast.BasicLit token.STRING (quoted "b")].

(** ** Fixtures: an inferior for concrete runs

    Bucket and table variables are told apart by their addresses; a field
    sits at a fixed offset of its struct. [sample_mem] is the memory of the
    inferior, one byte per address. *)

Definition bucketType : godwarf.Type_ :=
  godwarf.StructType ["tophash"; "keys"; "values"; "overflow"].
Definition tableType : godwarf.Type_ := godwarf.StructType ["index"; "groups"].
Definition groupsType : godwarf.Type_ := godwarf.StructType ["data"; "lengthMask"].
Definition wordType : godwarf.Type_ := godwarf.BasicType "uint64" 64.

Definition sample_var (addr : Z) (kind : reflect.Kind) (len : Z)
    (typ : godwarf.Type_) : Variable_ :=
  mkVariable addr 0 kind len (Some typ) (Some typ) (Some wordType) None [] "".

Definition sample_varops (mem : Z -> Z) : varops := {|
  Type_Size := fun t =>
    match t with
    | godwarf.StructType _ => 144
    | _ => 8
    end;
  toField := fun x f =>
    if String.eqb f "tophash" then
      (Some (sample_var (Addr x) reflect.Array 8 wordType), None)
    else if String.eqb f "keys" then
      (Some (sample_var (Addr x + 8) reflect.Array 8 wordType), None)
    else if String.eqb f "values" then
      (Some (sample_var (Addr x + 72) reflect.Array 8 wordType), None)
    else if String.eqb f "overflow" then
      (Some (sample_var (Addr x + 136) reflect.Ptr 0 bucketType), None)
    else if String.eqb f "index" then
      (Some (sample_var (Addr x) reflect.Int 0 wordType), None)
    else if String.eqb f "groups" then
      (Some (sample_var (Addr x + 8) reflect.Struct 0 groupsType), None)
    else if String.eqb f "data" then
      (Some (sample_var (Addr x) reflect.Ptr 0 wordType), None)
    else if String.eqb f "lengthMask" then
      (Some (sample_var (Addr x + 8) reflect.Uint 0 wordType), None)
    else (None, Some (errMemory f));
  maybeDereference := fun x =>
    match x with
    | Some x =>
        if reflect.eqb (Kind x) reflect.Ptr
        then Some (sample_var (mem (Addr x)) reflect.Struct 0 bucketType)
        else Some x
    | None => None
    end;
  sliceAccess := fun x i =>
    match x with
    | Some x =>
        if reflect.eqb (Kind x) reflect.Slice
        then (Some (sample_var (Addr x + 16 * i) reflect.Struct 0 tableType), None)
        else (Some (sample_var (Addr x + i) reflect.Uint 0 wordType), None)
    | None => (None, Some (errMemory "nil"))
    end;
  asUint := fun x =>
    match x with
    | Some x => (mem (Addr x), None)
    | None => (0, Some (errMemory "nil"))
    end;
  asInt := fun x =>
    match x with
    | Some x => (mem (Addr x), None)
    | None => (0, Some (errMemory "nil"))
    end;
  loadFieldNamed := fun _ _ => None;
  loadPtr := fun x =>
    mkVariable (Addr x) (Base x) (Kind x) (Len x) (RealType x) (DwarfType x)
      (fieldType x) None [sample_var (mem (Addr x)) reflect.Struct 0 wordType]
      (Producer x);
  newVariable := fun _ addr typ =>
    mkVariable addr 0 reflect.Uint 0 typ typ None None [] "";
  readUintRaw := fun addr _ => (mem addr, None);
  ProducerAfterOrEqual := fun _ _ _ => true;
  hashTophashEmptyZero := 0;
  hashTophashEmptyOne := 1;
  hashMinTopHashGo111 := 4;
  hashMinTopHashGo112 := 5;
|}.

(** A classic map in the middle of a grow from one bucket to two: the old
    bucket (at 5000) is not evacuated and holds one cell (tophash 7); the
    two new buckets (at 1000 and 1144) are still empty. *)
Definition growing_mem (addr : Z) : Z := if addr =? 5000 then 7 else 0.

Definition growing_map (bidx : Z) : Classic.mapIteratorClassic :=
  Classic.mk (sample_var 900 reflect.Map 1 bucketType) 2 0
    (Some (sample_var 1000 reflect.Struct 0 bucketType))
    (Some (sample_var 5000 reflect.Struct 0 bucketType))
    None bidx None None None None 0 0 1 5.

(** A Swiss map with one table (directory at 16, table at 16, its group
    array at 4096) of one group whose control bytes are 5, 0x80 (empty),
    0xFE (deleted), 0x12, and 0x80 for the four others. *)
Definition swiss_mem (addr : Z) : Z :=
  if addr =? 16 then 0          (* table.index *)
  else if addr =? 24 then 4096  (* table.groups.data *)
  else if addr =? 32 then 0     (* table.groups.lengthMask *)
  else if addr =? 4096 then 5
  else if addr =? 4097 then 128
  else if addr =? 4098 then 254
  else if addr =? 4099 then 18
  else if (4100 <=? addr) && (addr <? 4104) then 128
  else 0.

Definition swiss_map (maxNumGroups : Z) : Swiss.mapIteratorSwiss :=
  Swiss.mk (sample_var 8 reflect.Map 2 wordType)
    (Some (sample_var 16 reflect.Slice 1 tableType))
    maxNumGroups (Some wordType) (Some wordType) 16 8 136
    0 None 0 0 0 0 None None.

(** A nil map: the variable of a map whose header pointer is null. *)
Definition nil_map_var : Variable_ :=
  mkVariable 700 0 reflect.Map 0
    (Some (godwarf.MapType wordType wordType
             (godwarf.PtrType (godwarf.StructType ["count"; "B"; "buckets"; "oldbuckets"]))))
    None None None [] "".

Definition nil_map_varops : varops :=
  let vo := sample_varops (fun _ => 0) in
  {| Type_Size := Type_Size vo; toField := toField vo;
     maybeDereference := fun x =>
       match x with
       | Some x =>
           match RealType x with
           | Some (godwarf.PtrType t) =>
               Some (set_RealType (set_Addr x 0) (Some t))
           | _ => Some x
           end
       | None => None
       end;
     sliceAccess := sliceAccess vo; asUint := asUint vo; asInt := asInt vo;
     loadFieldNamed := loadFieldNamed vo; loadPtr := loadPtr vo;
     newVariable := newVariable vo; readUintRaw := readUintRaw vo;
     ProducerAfterOrEqual := ProducerAfterOrEqual vo;
     hashTophashEmptyZero := 0; hashTophashEmptyOne := 1;
     hashMinTopHashGo111 := 4; hashMinTopHashGo112 := 5 |}.

(** The Swiss sample positioned on its group (table loaded, group address
    computed), at slot [slot], after [groupCount] groups of earlier tables. *)
Definition swiss_at (maxNumGroups slot groupCount : Z) : Swiss.mapIteratorSwiss :=
  Swiss.mk (sample_var 8 reflect.Map 2 wordType)
    (Some (sample_var 16 reflect.Slice 1 tableType))
    maxNumGroups (Some wordType) (Some wordType) 16 8 136
    0 (Some (Swiss.mkTable 0 4096 0)) 0 4096 slot groupCount None None.

Definition swiss_at_slot (maxNumGroups slot : Z) : Swiss.mapIteratorSwiss :=
  swiss_at maxNumGroups slot 0.

(** A classic map of four buckets (at 1000, 1144, ...) that is not growing,
    about to pick bucket [bidx]. *)
Definition steady_map (maxNumBuckets bidx : Z) : Classic.mapIteratorClassic :=
  Classic.mk (sample_var 900 reflect.Map 0 bucketType) 4 1
    (Some (sample_var 1000 reflect.Struct 0 bucketType))
    (Some (sample_var 0 reflect.Struct 0 bucketType))
    None bidx None None None None maxNumBuckets 0 1 5.

(** The state in which [next] returns [true] for slot [k]. *)
Definition swiss_yield (vo : varops) (it : Swiss.mapIteratorSwiss) (k : Z)
  : Swiss.mapIteratorSwiss :=
  let it := Swiss.set_cur it (Some (Swiss.slotKey vo it k))
              (Some (Swiss.slotValue vo it k)) in
  let it := Swiss.set_slotIdx it (k + 1) in
  if Swiss.swissMapGroupSlots <=? Swiss.slotIdx it
  then Swiss.set_slotIdx (Swiss.nextGroup it) 0 else it.

(** ** Further specification predicates *)

(** Every completion with [DoPinning] stands after some
    [CallInjectionStartSpecial]. *)
Definition pinning_ordered (ops : list Op) : Prop :=
  forall (n : nat) (id : Z),
    ops !! n = Some (CallInjectionComplete id true) ->
    exists (j : nat) (op : Op),
      (j < n)%nat /\ ops !! j = Some op /\ isStartSpecial op = true.

(** A table in the making agrees with [depth]: the entries that are set
    (not negative) are those of [depth]. *)
Definition agrees (depth cur : list Z) : Prop :=
  length cur = length depth /\
  forall (k : nat) (x : Z), cur !! k = Some x -> x < 0 \/ depth !! k = Some x.

(** The variable of a map whose type does not lead to a struct: the
    runtime header of a map is a struct, this one resolves to a word. *)
Definition headless_map_var : Variable_ :=
  mkVariable 700 0 reflect.Map 0
    (Some (godwarf.MapType wordType wordType wordType)) None None None [] "".

(** What [nextBucket] has checked of a bucket when it returns [true]: the
    bucket is at a non-null address, its tophash, key and value fields are
    arrays, keys (and values, unless the value type has no size) are as many
    as tophashes, and the overflow field leads to a struct. *)
Definition bucket_loaded (vo : varops) (it : Classic.mapIteratorClassic) : Prop :=
  exists (bv th ks vs o : Variable_) (vt : godwarf.Type_),
    Classic.b it = Some bv /\ 0 < Addr bv /\
    Classic.tophashes it = Some th /\ Classic.keys it = Some ks /\
    Classic.values it = Some vs /\ Classic.overflow it = Some o /\
    Kind th = reflect.Array /\ Kind ks = reflect.Array /\
    Kind vs = reflect.Array /\
    Len th = Len ks /\
    fieldType vs = Some vt /\ (0 < Type_Size vo vt -> Len th = Len vs) /\
    Kind o = reflect.Struct.

(** The lengths of the variables that [toField] makes are [int64] values. *)
Definition int64_lengths (vo : varops) : Prop :=
  forall (x : Variable_) (f : string) (fld : Variable_) (e : option merror),
    toField vo x f = (Some fld, e) -> Len fld < 2 ^ 63.

(** What the classic [next] keeps between calls: a cell index that is not
    negative, and tophashes of an [int64] length. *)
Definition cell_inv (it : Classic.mapIteratorClassic) : Prop :=
  0 <= Classic.idx it /\
  forall th, Classic.tophashes it = Some th -> Len th < 2 ^ 63.

(** The classic iterator stands on a cell in use: the cell at [idx - 1],
    where [key] reads, is not before the start of the tophash array [th] of
    the current bucket nor (unless [th] is empty) past its end, and its
    tophash [h] was read without error and is no mark of an empty cell. *)
Definition on_full_cell (vo : varops) (it : Classic.mapIteratorClassic) : Prop :=
  exists (th : Variable_) (h : Z),
    let i := Classic.idx it - 1 in
    Classic.tophashes it = Some th /\
    0 <= i /\ (0 < Len th -> i < Len th) /\
    asUint vo (fst (sliceAccess vo (Some th) i)) = (h, None) /\
    h <> hashTophashEmptyZero vo /\ h <> Classic.hashTophashEmptyOne_ it /\
    Classic.key vo it = fst (sliceAccess vo (Classic.keys it) i).

(** Slot [k] of the group at [g] is in use: its control byte is read
    without error and has not the top bit set. *)
Definition slot_full (vo : varops) (g k : Z) : Prop :=
  exists n : Z,
    readUintRaw vo (wrap_u64 (g + k)) 1 = (n, None) /\
    Z.land n Swiss.swissTableCtrlEmpty <> Swiss.swissTableCtrlEmpty.

(** [it0] is [it], but for an error that may have been recorded. *)
Definition but_for_error (it it0 : Swiss.mapIteratorSwiss) : Prop :=
  it0 = it \/ exists e : merror, it0 = Swiss.fail_with it e.

(** What the slot loop of the Swiss [next] does from slot [slotIdx it] on. *)
Definition first_full_slot (vo : varops) (it : Swiss.mapIteratorSwiss)
    (r : run (Swiss.mapIteratorSwiss + Swiss.mapIteratorSwiss)) : Prop :=
  match r with
  | Ret (inl it') =>
      exists (k : Z) (it0 : Swiss.mapIteratorSwiss),
        Swiss.slotIdx it <= k < Swiss.swissMapGroupSlots /\
        slot_full vo (Swiss.group it) k /\
        (forall j, Swiss.slotIdx it <= j < k -> ~ slot_full vo (Swiss.group it) j) /\
        but_for_error it it0 /\
        it' = swiss_yield vo (Swiss.set_slotIdx it0 k) k
  | Ret (inr it') =>
      exists it0 : Swiss.mapIteratorSwiss,
        (forall j, Swiss.slotIdx it <= j < Swiss.swissMapGroupSlots ->
           ~ slot_full vo (Swiss.group it) j) /\
        but_for_error it it0 /\
        it' = Swiss.set_slotIdx it0 Swiss.swissMapGroupSlots
  | _ => False
  end.

(** The operations that work on the debug pinner: the special calls to the
    pinner's functions, the reads and writes of the pinner slot, the
    completion of a call with [DoPinning] and the parts of the pinning
    loop. *)
Definition usesPinner (op : Op) : bool :=
  match op with
  | PushDebugPinner | SetDebugPinner | PushPinAddress
  | CallInjectionComplete2 _ => true
  | CallInjectionComplete _ DoPinning => DoPinning
  | CallInjectionStartSpecial _ FnName _ =>
      String.eqb FnName DebugPinnerFunctionName
      || String.eqb FnName "runtime.(*Pinner).Pin"
      || String.eqb FnName "runtime.(*Pinner).Unpin"
  | Jump JumpIfPinningDone _ _ _ => true
  | _ => false
  end.

Definition noPinnerOps (code : list Op) : Prop :=
  Forall (fun op => usesPinner op = false) code.

(** What a method of the compiler that returns [r] may do to the context:
    it leaves scope and flags alone, has put [allowCalls] back (unless it
    panics), has appended to the program without touching what was there,
    has appended nothing that works on the pinner unless the flag is set,
    and has kept the jump targets inside the program. *)
Definition grows (r : outcome) (c c' : compileCtx) : Prop :=
  elookup c' = elookup c /\ flags c' = flags c /\
  (r <> Panic -> allowCalls c' = allowCalls c) /\
  (exists code : list Op,
     ops c' = ops c ++ code /\
     (hasDebugPinner c = false -> noPinnerOps code)) /\
  (targets_in_range (ops c) -> targets_in_range (ops c')).

Definition growing (m : M) : Prop :=
  forall c r c', m c = (r, c') -> grows r c c'.

(** Operands of a special call that may be pushed in the scope of [c]: no
    jumps, and nothing that works on the pinner unless the flag is set. *)
Definition plainOperands (c : compileCtx) (args : list (option Op)) : Prop :=
  Forall (fun a => match a with
                   | Some op =>
                       (hasDebugPinner c = false -> usesPinner op = false) /\
                       (forall When Target Pop_ Node,
                          op <> Jump When Target Pop_ Node)
                   | None => True
                   end) args.

(** [growing] for a method that runs inside a method entered at [c]. *)
Definition growing_from (c : compileCtx) (m : M) : Prop :=
  forall c1 r c', grows Done c c1 -> m c1 = (r, c') -> grows r c c'.

(** An operation that any method may push: it does not work on the pinner,
    and it is no jump. *)
Definition plainOp (op : Op) : Prop :=
  usesPinner op = false /\
  forall When Target Pop_ Node, op <> Jump When Target Pop_ Node.

(** A program on which neither the verifier nor a jump can leave the
    program: every jump targets an index from 0 to the length of the
    program, and the depth check does not end in a run-time panic. *)
Definition jumps_inside `{OpArity} (ops : list Op) : Prop :=
  targets_in_range ops /\ forall endDepth, depthCheck ops endDepth <> Panic.


(** A completion of a call that asks for pinning. *)
Definition isPinningComplete (op : Op) : bool :=
  match op with
  | CallInjectionComplete _ DoPinning => DoPinning
  | _ => false
  end.

(** What the compiler keeps of the order of pinner calls: the program is
    ordered, and once [firstCall] is unset the flag is set and the program
    holds a [CallInjectionStartSpecial]. *)
Definition ordered_inv (c : compileCtx) : Prop :=
  pinning_ordered (ops c) /\
  (firstCall c = false -> existsb isStartSpecial (ops c) = true) /\
  (firstCall c = false -> hasDebugPinner c = true).

(** [c'] may follow [c]: same flags, [firstCall] is not set again, and the
    order invariant carries over. *)
Definition ofollows (c c' : compileCtx) : Prop :=
  flags c' = flags c /\
  (firstCall c = false -> firstCall c' = false) /\
  (ordered_inv c -> ordered_inv c').

Definition okeeps (m : M) : Prop :=
  forall c r c', m c = (r, c') -> ofollows c c'.

(** [okeeps] for a method that runs after the pinner was acquired. *)
Definition okeeps_called (m : M) : Prop :=
  forall c r c', firstCall c = false -> m c = (r, c') -> ofollows c c'.

(** Operands of a special call that complete no call with pinning. *)
Definition unpinnedArgs (args : list (option Op)) : Prop :=
  Forall (fun a => match a with
                   | Some op => isPinningComplete op = false
                   | None => True
                   end) args.

(** A program that passes the pinning check of the verifier: it is ordered,
    and the depth check does not report a completion with pinning before
    the first special call. *)
Definition pinning_checked `{OpArity} (ops : list Op) : Prop :=
  pinning_ordered ops /\
  forall (endDepth : Z) (i : nat),
    depthCheck ops endDepth <> Fail (ErrPinningBeforeDebugPinner i).

(** The operations of a call injection. *)
Definition isCallInjection (op : Op) : bool :=
  match op with
  | CallInjectionStart _ _ _ | CallInjectionStartSpecial _ _ _
  | CallInjectionSetTarget _ | CallInjectionCopyArg _ _ _
  | CallInjectionComplete _ _ | CallInjectionComplete2 _ => true
  | _ => false
  end.

(** How many operations of a program belong to a call injection. *)
Definition injections (code : list Op) : nat :=
  length (List.filter isCallInjection code).

(** [c'] may follow [c] where calls are not allowed: they are still not
    allowed, no call identifier was taken, the pinner was not acquired and
    the program holds as many call-injection operations as before. *)
Definition cfollows (c c' : compileCtx) : Prop :=
  allowCalls c = false ->
  allowCalls c' = false /\ curCall c' = curCall c /\
  firstCall c' = firstCall c /\ injections (ops c') = injections (ops c).

Definition ckeeps (m : M) : Prop :=
  forall c r c', m c = (r, c') -> cfollows c c'.

(** * Properties *)

(** ** The depth verifier *)

Section DepthCheckProofs.
Context `{OpArity}.

Lemma lookup_total_Z (l : list Z) (i : nat) (x : Z) :
  l !! i = Some x -> l !!! i = x.
Proof. intros Hl. by apply list_lookup_total_correct. Qed.

Lemma lookup_total_lt (l : list Z) (i : nat) :
  (i < length l)%nat -> l !! i = Some (l !!! i).
Proof. intros Hi. by apply list_lookup_lookup_total_lt. Qed.

(** [checkAndSet] without error: the index is in range, the entry is [d],
    and entries that held a depth keep it. *)
Lemma checkAndSet_ok depth j d depth1 :
  checkAndSet depth None j d = Some (depth1, None) ->
  0 <= j /\ (Z.to_nat j < length depth)%nat /\
  length depth1 = length depth /\
  depth1 !! Z.to_nat j = Some d /\
  (forall k : nat, k <> Z.to_nat j -> depth1 !! k = depth !! k) /\
  (forall (k : nat) (x : Z), depth !! k = Some x -> 0 <= x -> depth1 !! k = Some x).
Proof.
  unfold checkAndSet.
  destruct ((j <? 0) || (Z.of_nat (length depth) <=? j)) eqn:Hr; [discriminate|].
  apply orb_false_iff in Hr as [Hj0 Hjn].
  apply Z.ltb_ge in Hj0. apply Z.leb_gt in Hjn.
  assert (Hlt : (Z.to_nat j < length depth)%nat) by lia.
  destruct (depth !!! Z.to_nat j <? 0) eqn:Hneg.
  - rewrite (lookup_total_Z (<[Z.to_nat j:=d]> depth) (Z.to_nat j) d)
      by (by apply list_lookup_insert_eq).
    rewrite Z.eqb_refl. simpl. intros [= <-].
    repeat split; try lia.
    + by rewrite length_insert.
    + by apply list_lookup_insert_eq.
    + intros k Hne. by rewrite list_lookup_insert_ne.
    + intros k x Hk Hx.
      destruct (decide (k = Z.to_nat j)) as [->|Hne].
      * apply lookup_total_Z in Hk. apply Z.ltb_lt in Hneg. lia.
      * by rewrite list_lookup_insert_ne.
  - destruct (negb (d =? depth !!! Z.to_nat j)) eqn:Heq; [discriminate|].
    intros [= <-]. apply negb_false_iff, Z.eqb_eq in Heq.
    repeat split; try lia; auto.
    rewrite Heq. by apply lookup_total_lt.
Qed.

Lemma checkAndSet_in_range depth err j d :
  0 <= j < Z.of_nat (length depth) ->
  exists depth1 err1, checkAndSet depth err j d = Some (depth1, err1)
                      /\ length depth1 = length depth.
Proof.
  intros Hj. unfold checkAndSet.
  replace ((j <? 0) || (Z.of_nat (length depth) <=? j)) with false
    by (symmetry; apply orb_false_iff; split; [apply Z.ltb_ge | apply Z.leb_gt]; lia).
  eexists _, _. split; [reflexivity|].
  destruct (_ <? 0); [by rewrite length_insert | done].
Qed.

Lemma checkAndSet_length depth err j d depth1 err1 :
  checkAndSet depth err j d = Some (depth1, err1) -> length depth1 = length depth.
Proof.
  unfold checkAndSet. destruct (_ || _); [discriminate|].
  intros [= <- _]. destruct (_ <? 0); [by rewrite length_insert | done].
Qed.

Lemma checkAndSet_None depth err j d :
  checkAndSet depth err j d = None -> j < 0 \/ Z.of_nat (length depth) <= j.
Proof.
  unfold checkAndSet.
  destruct ((j <? 0) || (Z.of_nat (length depth) <=? j)) eqn:Hr; [|discriminate].
  intros _. apply orb_true_iff in Hr as [Hr|Hr];
    [apply Z.ltb_lt in Hr | apply Z.leb_le in Hr]; lia.
Qed.

Lemma depthCheck_loop_sound (ops : list Op) :
  Forall (fun op => 0 <= fst (Op_depthCheck op)) ops ->
  forall (rest : list Op) (i : nat) (depth : list Z) (seen : bool) (depth' : list Z),
    ops = take i ops ++ rest ->
    (i + length rest = length ops)%nat ->
    loop_inv ops i depth ->
    depthCheck_loop i rest depth seen = (Done, depth') ->
    loop_inv ops (length ops) depth'.
Proof.
  intros npop_nonneg.
  induction rest as [|op rest IH]; intros i depth seen depth' Hops Hlen Hinv Hrun.
  - simpl in *. injection Hrun as <-. by replace (length ops) with i by lia.
  - simpl in Hrun, Hlen.
    assert (Hop : ops !! i = Some op).
    { rewrite Hops. rewrite lookup_app_r by (rewrite length_take; lia).
      rewrite length_take. by replace (i - i `min` length ops)%nat with 0%nat by lia. }
    destruct Hinv as (HlenD & H0 & Hnn & Hedges).
    destruct (Op_depthCheck op) as [npop npush] eqn:Har.
    destruct (depth !!! i <? npop) eqn:Hunder; [discriminate|].
    apply Z.ltb_ge in Hunder.
    assert (Hdi : depth !! i = Some (depth !!! i)) by (apply lookup_total_lt; lia).
    assert (Hnpop : 0 <= npop).
    { pose proof (Forall_lookup_1 _ _ _ _ npop_nonneg Hop) as Hn.
      simpl in Hn. by rewrite Har in Hn. }
    set (d := wrap_int (depth !!! i - npop + npush)) in *.
    destruct (checkAndSet depth None (Z.of_nat i + 1) d) as [[depth1 [e1|]]|] eqn:Hcs1;
      try discriminate.
    { (* an error from the first check survives the switch *)
      exfalso. unfold depthCheck_switch in Hrun.
      destruct op; try discriminate.
      - unfold checkAndSet in Hrun.
        destruct ((Target <? 0) || _); [discriminate|].
        destruct (negb _); discriminate.
      - destruct (DoPinning && negb seen); discriminate. }
    apply checkAndSet_ok in Hcs1 as (_ & _ & Hlen1 & Hset1 & _ & Hkeep1).
    replace (Z.to_nat (Z.of_nat i + 1)) with (S i) in Hset1 by lia.
    (* all entries up to [i] hold depths, and they survive *)
    assert (Hnn_i : forall (k : nat) (dk : Z), (k < S i)%nat ->
              depth !! k = Some dk -> 0 <= dk).
    { intros k dk Hk Hdk. destruct (decide (k = i)) as [->|Hne].
      - rewrite Hdi in Hdk. injection Hdk as <-. lia.
      - apply (Hnn k); [lia | done]. }
    assert (Hstep : forall depth2,
              length depth2 = length depth1 ->
              depth2 !! S i = Some d ->
              (forall (k : nat) (x : Z), depth1 !! k = Some x -> 0 <= x ->
                 depth2 !! k = Some x) ->
              (forall When Target Pop_ Node, op = Jump When Target Pop_ Node ->
                 0 <= Target /\ depth2 !! Z.to_nat Target = Some d) ->
              loop_inv ops (S i) depth2).
    { intros depth2 Hlen2 Hset2 Hkeep2 Hjump.
      assert (Hkeep : forall (k : nat) (x : Z), depth !! k = Some x -> 0 <= x ->
                depth2 !! k = Some x) by (intros; eauto).
      split; [lia|]. split; [apply Hkeep; [done | lia]|]. split.
      - intros k dk Hk Hdk.
        destruct (depth !! k) as [x|] eqn:Hx.
        + pose proof (Hnn_i k x Hk Hx) as Hx0.
          rewrite (Hkeep k x Hx Hx0) in Hdk. by injection Hdk as <-.
        + apply lookup_ge_None in Hx. lia.
      - intros k op' Hk Hop'.
        destruct (decide (k = i)) as [->|Hne].
        + rewrite Hop in Hop'. injection Hop' as <-.
          exists (depth !!! i). rewrite Har. simpl.
          split; [apply Hkeep; [done | lia]|]. split; [done|]. split; [done|].
          intros When Target Pop_ Node Hj. eauto.
        + destruct (Hedges k op' ltac:(lia) Hop') as (dk & Hdk & Hge & Hnext & Hjmp).
          pose proof (Hnn_i k dk ltac:(lia) Hdk) as Hdk0.
          assert (Hd0 : 0 <= wrap_int (dk - fst (Op_depthCheck op')
                                       + snd (Op_depthCheck op'))).
          { apply (Hnn_i (S k)); [lia | done]. }
          exists dk. split; [by apply Hkeep|]. split; [done|].
          split; [by apply Hkeep|].
          intros When Target Pop_ Node Hj.
          destruct (Hjmp _ _ _ _ Hj) as [Ht0 Ht]. split; [done | by apply Hkeep]. }
    unfold depthCheck_switch in Hrun.
    destruct op;
      try (apply (IH (S i) depth1 seen depth');
           [ rewrite (take_S_r _ _ _ Hop), <- app_assoc; exact Hops
           | lia
           | apply Hstep; [done | done | auto | intros; discriminate]
           | exact Hrun ]).
    + (* Jump *)
      destruct (checkAndSet depth1 None Target d) as [[depth2 [e2|]]|] eqn:Hcs2;
        try discriminate.
      apply checkAndSet_ok in Hcs2 as (Ht0 & Htlt & Hlen2 & Hset2 & Hsame2 & Hkeep2).
      apply (IH (S i) depth2 seen depth');
        [ rewrite (take_S_r _ _ _ Hop), <- app_assoc; exact Hops
        | lia | | exact Hrun ].
      apply Hstep; [done | | done |].
      * destruct (decide (Z.to_nat Target = S i)) as [<-|Hne]; [done|].
        by rewrite Hsame2.
      * intros ? ? ? ? [= <- <- <- <-]. done.
    + (* CallInjectionStartSpecial *)
      apply (IH (S i) depth1 true depth');
        [ rewrite (take_S_r _ _ _ Hop), <- app_assoc; exact Hops
        | lia
        | apply Hstep; [done | done | auto | intros; discriminate]
        | exact Hrun ].
    + (* CallInjectionComplete *)
      destruct (DoPinning && negb seen); [discriminate|].
      apply (IH (S i) depth1 seen depth');
        [ rewrite (take_S_r _ _ _ Hop), <- app_assoc; exact Hops
        | lia
        | apply Hstep; [done | done | auto | intros; discriminate]
        | exact Hrun ].
Qed.

Lemma depthCheck_init_inv (ops : list Op) : loop_inv ops 0 (depthCheck_init ops).
Proof.
  unfold loop_inv, depthCheck_init.
  rewrite length_insert, length_replicate.
  replace (length ops + 1)%nat with (S (length ops)) by lia.
  split; [done|]. split; [done|]. split; intros; lia.
Qed.

(** A program that passes has the table described by [depth_table_ok]. *)
Lemma depthCheck_sound (ops : list Op) (endDepth : Z) :
  Forall (fun op => 0 <= fst (Op_depthCheck op)) ops ->
  0 <= endDepth ->
  depthCheck ops endDepth = Done ->
  depth_table_ok ops (depthCheck_depths ops endDepth) endDepth.
Proof.
  intros Hnn He. unfold depthCheck, depthCheck_depths, depthCheck_run.
  destruct (depthCheck_loop 0 ops (depthCheck_init ops) false) as [r depth] eqn:Hloop.
  destruct r; simpl; try discriminate.
  destruct (negb (depth !!! length ops =? endDepth)) eqn:Hend; simpl; [discriminate|].
  intros _. apply negb_false_iff, Z.eqb_eq in Hend.
  pose proof (depthCheck_loop_sound ops Hnn ops 0 (depthCheck_init ops) false depth
                eq_refl eq_refl (depthCheck_init_inv ops) Hloop)
    as (Hlen & H0 & Hnneg & Hedges).
  assert (Hlast : depth !! length ops = Some endDepth).
  { rewrite <- Hend. apply lookup_total_lt. lia. }
  split; [done|]. split; [done|]. split; [|split; [|done]].
  - intros k dk Hk.
    destruct (decide (k < length ops)%nat) as [Hlt|Hge]; [by apply (Hnneg k)|].
    pose proof (lookup_lt_Some _ _ _ Hk) as Hklt.
    replace k with (length ops) in Hk by lia.
    rewrite Hlast in Hk. injection Hk as <-. done.
  - intros k op Hop. apply Hedges; [|done]. by apply lookup_lt_Some in Hop.
Qed.

Lemma depthCheck_loop_pinning (ops : list Op) (n : nat) (id : Z) :
  ops !! n = Some (CallInjectionComplete id true) ->
  (forall (j : nat) (op : Op), (j < n)%nat -> ops !! j = Some op ->
     isStartSpecial op = false) ->
  forall (rest : list Op) (i : nat) (depth : list Z),
    ops = take i ops ++ rest ->
    (i <= n)%nat ->
    length depth = S (length ops) ->
    fst (depthCheck_loop i rest depth false) <> Done /\
    (targets_in_range ops ->
     exists e, fst (depthCheck_loop i rest depth false) = Fail e).
Proof.
  intros Hn Hbefore.
  induction rest as [|op rest IH]; intros i depth Hops Hi Hlen.
  - exfalso. rewrite app_nil_r in Hops.
    apply lookup_lt_Some in Hn.
    assert (length ops <= i)%nat; [|lia].
    rewrite Hops at 1. rewrite length_take. lia.
  - assert (Hop : ops !! i = Some op).
    { rewrite Hops. rewrite lookup_app_r by (rewrite length_take; lia).
      rewrite length_take.
      assert (i < length ops)%nat by (apply lookup_lt_Some in Hn; lia).
      by replace (i - i `min` length ops)%nat with 0%nat by lia. }
    assert (Hilt : (i < length ops)%nat) by (by apply lookup_lt_Some in Hop).
    simpl.
    destruct (Op_depthCheck op) as [npop npush].
    destruct (depth !!! i <? npop); [split; [done | eauto]|].
    set (d := wrap_int (depth !!! i - npop + npush)).
    destruct (checkAndSet_in_range depth None (Z.of_nat i + 1) d ltac:(lia))
      as (depth1 & err1 & -> & Hlen1).
    destruct (decide (i = n)) as [->|Hne].
    + rewrite Hn in Hop. injection Hop as <-. simpl. split; [done | eauto].
    + assert (Hns : isStartSpecial op = false) by (apply (Hbefore i); [lia | done]).
      assert (Hnext : forall depth2, length depth2 = length depth1 ->
                fst (depthCheck_loop (S i) rest depth2 false) <> Done /\
                (targets_in_range ops ->
                 exists e, fst (depthCheck_loop (S i) rest depth2 false) = Fail e)).
      { intros depth2 Hlen2. apply IH; [|lia|lia].
        rewrite (take_S_r _ _ _ Hop), <- app_assoc. exact Hops. }
      unfold depthCheck_switch.
      destruct op; try discriminate Hns;
        try (destruct err1 as [e1|]; [split; [done | eauto] | by apply Hnext]).
      * (* Jump *)
        destruct (checkAndSet depth1 err1 Target d) as [[depth2 [e2|]]|] eqn:Hcs.
        -- split; [done | eauto].
        -- apply Hnext. by apply checkAndSet_length in Hcs.
        -- split; [done|]. intros Hrange. exfalso.
           specialize (Hrange i _ _ _ _ Hop).
           apply checkAndSet_None in Hcs. lia.
      * (* CallInjectionComplete *)
        destruct (DoPinning && negb false);
          [split; [done | eauto]|].
        destruct err1 as [e1|]; [split; [done | eauto] | by apply Hnext].
Qed.
End DepthCheckProofs.

(** The verifier consults the arity table only at the operations of the
    program. *)
Lemma depthCheck_loop_ext (H1 H2 : OpArity) (rest : list Op) :
  Forall (fun op => @Op_depthCheck H1 op = @Op_depthCheck H2 op) rest ->
  forall i depth seen,
    depthCheck_loop (H := H1) i rest depth seen
    = depthCheck_loop (H := H2) i rest depth seen.
Proof.
  induction 1 as [|op rest Hop Hrest IH]; intros i depth seen; [reflexivity|].
  cbn [depthCheck_loop]. rewrite Hop.
  destruct (@Op_depthCheck H2 op) as [npop npush].
  destruct (_ <? _); [reflexivity|].
  destruct (checkAndSet _ _ _ _) as [[depth1 err1]|]; [|reflexivity].
  destruct (depthCheck_switch _ _ _ _ _ _) as [[[depth2 [e|]] seen2]|];
    try reflexivity.
  apply IH.
Qed.

Lemma depthCheck_run_ext (H1 H2 : OpArity) (ops : list Op) (endDepth : Z) :
  Forall (fun op => @Op_depthCheck H1 op = @Op_depthCheck H2 op) ops ->
  depthCheck_run (H := H1) ops endDepth = depthCheck_run (H := H2) ops endDepth.
Proof.
  intros Hagree. unfold depthCheck_run.
  by rewrite (depthCheck_loop_ext H1 H2 ops Hagree).
Qed.

(** C1. Every program that [CompileAST] (which [Compile] calls on an
    expression; declared depth 1) or [CompileSet] (declared depth 0) returns
    without error has the table of [depth_table_ok]: the verifier has given
    every index from 0 to the length of the program one non-negative depth,
    the fallthrough and the jump edges into an index agree on it, and the
    depth after the last instruction is the declared one. Operations take a
    non-negative number of values. *)
Theorem compiled_program_depths `{OpArity} (lib : golib) (lk : evalLookup)
    (fl : Z) (t : ast.Expr) (lhexpr rhexpr expr : string)
    (ops : list Op) (endDepth : Z) :
  Forall (fun op => 0 <= fst (Op_depthCheck op)) ops ->
  (CompileAST lib lk t fl = (ops, Done) /\ endDepth = 1) \/
  (ParseExpr lib expr = inl t /\ Compile lib lk expr fl = (ops, Done)
   /\ endDepth = 1) \/
  (CompileSet lib lk lhexpr rhexpr fl = (ops, Done) /\ endDepth = 0) ->
  depthCheck ops endDepth = Done /\
  depth_table_ok ops (depthCheck_depths ops endDepth) endDepth.
Proof.
  intros Hnn Hcompiled.
  assert (Hpass : depthCheck ops endDepth = Done).
  { destruct Hcompiled as [[Hc ->]|[(Hp & Hc & ->)|[Hc ->]]].
    - unfold CompileAST in Hc.
      destruct (compileAST lib t _) as [[| |] ctx]; by injection Hc as <- ?.
    - unfold Compile in Hc. rewrite Hp in Hc. unfold CompileAST in Hc.
      destruct (compileAST lib t _) as [[| |] ctx]; by injection Hc as <- ?.
    - unfold CompileSet in Hc.
      destruct (ParseExpr lib lhexpr) as [lhe|]; [|discriminate].
      destruct (ParseExpr lib rhexpr) as [rhe|]; [|discriminate].
      destruct (compileAST lib rhe _) as [[| |] ctx]; try discriminate.
      destruct (compileAST lib lhe _) as [[| |] ctx']; try discriminate.
      by injection Hc as <- ?. }
  split; [done|]. apply depthCheck_sound; [done | | done].
  destruct Hcompiled as [[_ ->]|[(_ & _ & ->)|[_ ->]]]; lia.
Qed.

Lemma compiled_program_depths_witness :
  depthCheck (H := spec_arity)
    (fst (CompileAST (H := spec_arity) sample_lib sample_lookup expr_a_and_b 0)) 1
  = Done /\
  depth_table_ok (H := spec_arity)
    (fst (CompileAST (H := spec_arity) sample_lib sample_lookup expr_a_and_b 0))
    [0; 1; 1; 2; 1; 1] 1.
Proof.
  apply (compiled_program_depths (H := spec_arity) sample_lib sample_lookup 0
           expr_a_and_b "" "" "").
  - vm_compute. repeat constructor; discriminate.
  - left. split; reflexivity.
Defined.

(** C7. A program in which a [CallInjectionComplete] with [DoPinning] set
    stands at an index that no [CallInjectionStartSpecial] precedes never
    passes the verifier; when the jump targets of the program are indices of
    its depth table, the verifier returns an error (with a target outside the
    table the run ends in the index panic instead). *)
Theorem depthCheck_rejects_early_pinning `{OpArity} (ops : list Op)
    (endDepth : Z) (n : nat) (id : Z) :
  ops !! n = Some (CallInjectionComplete id true) ->
  (forall (j : nat) (op : Op), (j < n)%nat -> ops !! j = Some op ->
     isStartSpecial op = false) ->
  depthCheck ops endDepth <> Done /\
  (targets_in_range ops -> exists e, depthCheck ops endDepth = Fail e).
Proof.
  intros Hn Hbefore.
  destruct (depthCheck_loop_pinning ops n id Hn Hbefore ops 0 (depthCheck_init ops)
              eq_refl ltac:(lia)) as [Hne Hfail].
  { unfold depthCheck_init. rewrite length_insert, length_replicate. lia. }
  unfold depthCheck, depthCheck_run.
  destruct (depthCheck_loop 0 ops (depthCheck_init ops) false) as [[| |] depth];
    simpl in *; [done | |].
  - split; [done | auto].
  - split; [done | auto].
Qed.

Lemma depthCheck_rejects_early_pinning_witness :
  depthCheck (H := spec_arity) [PushNil; CallInjectionComplete 0 true] 1 <> Done /\
  exists e, depthCheck (H := spec_arity) [PushNil; CallInjectionComplete 0 true] 1
            = Fail e.
Proof.
  destruct (depthCheck_rejects_early_pinning (H := spec_arity)
              [PushNil; CallInjectionComplete 0 true] 1 1 0) as [Hne Hfail].
  - reflexivity.
  - intros j op Hj Hop. destruct j as [|j]; [|lia].
    injection Hop as <-. reflexivity.
  - split; [exact Hne|]. apply Hfail.
    intros k When Target Pop_ Node Hk.
    destruct k as [|[|k]]; discriminate.
Defined.


(** ** The verifier accepts every program that has a depth table *)

Section DepthCheckComplete.
Context `{OpArity}.

Lemma checkAndSet_agrees (depth cur : list Z) (j d : Z) :
  agrees depth cur -> 0 <= j -> depth !! Z.to_nat j = Some d ->
  exists cur1,
    checkAndSet cur None j d = Some (cur1, None) /\
    agrees depth cur1 /\
    cur1 !! Z.to_nat j = Some d /\
    (forall k : nat, cur !! k = depth !! k -> cur1 !! k = depth !! k).
Proof.
  intros [Hlen Hag] Hj Hd. unfold checkAndSet.
  pose proof (lookup_lt_Some _ _ _ Hd) as Hlt.
  replace ((j <? 0) || (Z.of_nat (length cur) <=? j)) with false
    by (symmetry; apply orb_false_iff; split;
        [apply Z.ltb_ge | apply Z.leb_gt]; lia).
  assert (Hcur : cur !! Z.to_nat j = Some (cur !!! Z.to_nat j))
    by (apply lookup_total_lt; lia).
  destruct (cur !!! Z.to_nat j <? 0) eqn:Hneg.
  - rewrite (lookup_total_Z (<[Z.to_nat j:=d]> cur) (Z.to_nat j) d)
      by (apply list_lookup_insert_eq; lia).
    rewrite Z.eqb_refl. cbn [negb]. eexists. split; [reflexivity|].
    split; [|split].
    + split; [by rewrite length_insert|]. intros k x Hk.
      destruct (decide (k = Z.to_nat j)) as [->|Hne].
      * rewrite list_lookup_insert_eq in Hk by lia. injection Hk as <-. by right.
      * rewrite list_lookup_insert_ne in Hk by done. by apply Hag.
    + apply list_lookup_insert_eq. lia.
    + intros k Hk. destruct (decide (k = Z.to_nat j)) as [->|Hne].
      * rewrite list_lookup_insert_eq by lia. done.
      * by rewrite list_lookup_insert_ne.
  - apply Z.ltb_ge in Hneg.
    destruct (Hag _ _ Hcur) as [Hlt0|Heq]; [lia|].
    rewrite Hd in Heq. injection Heq as Heq. rewrite <- Heq, Z.eqb_refl.
    cbn [negb]. eexists. split; [reflexivity|].
    split; [by split|]. split; [by rewrite Hcur, <- Heq | done].
Qed.

Lemma depthCheck_loop_complete (ops : list Op) (depth : list Z) (endDepth : Z) :
  depth_table_ok ops depth endDepth -> pinning_ordered ops ->
  forall (rest : list Op) (i : nat) (cur : list Z) (seen : bool),
    ops = take i ops ++ rest ->
    agrees depth cur ->
    (forall k : nat, (k <= i)%nat -> cur !! k = depth !! k) ->
    seen = existsb isStartSpecial (take i ops) ->
    depthCheck_loop i rest cur seen = (Done, depth).
Proof.
  intros (HlenD & H0 & Hnn & Hedges & Hend) Hpin.
  induction rest as [|op rest IH]; intros i cur seen Hops Hag Hset Hseen.
  - cbn [depthCheck_loop]. f_equal. rewrite app_nil_r in Hops.
    assert (Hi : (length ops <= i)%nat).
    { rewrite Hops at 1. rewrite length_take. lia. }
    destruct Hag as [Hlen Hag]. apply list_eq. intros k.
    destruct (decide (k <= i)%nat) as [Hk|Hk]; [by apply Hset|].
    rewrite !(proj2 (lookup_ge_None _ _)) by lia. done.
  - assert (Hilt : (i < length ops)%nat).
    { apply (f_equal length) in Hops.
      rewrite length_app, length_take in Hops. cbn [length] in Hops. lia. }
    assert (Hop : ops !! i = Some op).
    { rewrite Hops. rewrite lookup_app_r by (rewrite length_take; lia).
      rewrite length_take.
      by replace (i - i `min` length ops)%nat with 0%nat by lia. }
    destruct (Hedges i op Hop) as (dk & Hdk & Hge & Hnext & Hjmp).
    cbn [depthCheck_loop].
    destruct (Op_depthCheck op) as [npop npush] eqn:Har.
    cbn [fst snd] in Hge, Hnext, Hjmp.
    assert (Hcur : cur !!! i = dk).
    { apply lookup_total_Z. rewrite Hset by lia. done. }
    rewrite Hcur.
    replace (dk <? npop) with false by (symmetry; apply Z.ltb_ge; lia).
    set (d := wrap_int (dk - npop + npush)) in *.
    destruct (checkAndSet_agrees depth cur (Z.of_nat i + 1) d Hag ltac:(lia))
      as (cur1 & -> & Hag1 & Hset1 & Hkeep1).
    { by replace (Z.to_nat (Z.of_nat i + 1)) with (S i) by lia. }
    replace (Z.to_nat (Z.of_nat i + 1)) with (S i) in Hset1 by lia.
    assert (Hupto1 : forall k : nat, (k <= S i)%nat -> cur1 !! k = depth !! k).
    { intros k Hk. destruct (decide (k = S i)) as [->|Hne].
      - by rewrite Hset1, Hnext.
      - apply Hkeep1, Hset. lia. }
    assert (Htake : ops = take (S i) ops ++ rest).
    { rewrite (take_S_r _ _ _ Hop), <- app_assoc. exact Hops. }
    assert (Hseen1 : existsb isStartSpecial (take (S i) ops)
                     = seen || isStartSpecial op).
    { rewrite (take_S_r _ _ _ Hop), existsb_app, Hseen. cbn.
      by rewrite orb_false_r. }
    unfold depthCheck_switch.
    destruct op;
      try (apply IH; [exact Htake | exact Hag1 | exact Hupto1
                     | by rewrite Hseen1, orb_false_r]).
    + (* Jump *)
      destruct (Hjmp _ _ _ _ eq_refl) as [Ht0 Ht].
      destruct (checkAndSet_agrees depth cur1 Target d Hag1 Ht0 Ht)
        as (cur2 & -> & Hag2 & _ & Hkeep2).
      apply IH; [exact Htake | exact Hag2 | | by rewrite Hseen1, orb_false_r].
      intros k Hk. by apply Hkeep2, Hupto1.
    + (* CallInjectionStartSpecial *)
      apply IH; [exact Htake | exact Hag1 | exact Hupto1
                | by rewrite Hseen1, orb_true_r].
    + (* CallInjectionComplete *)
      assert (Hok : DoPinning && negb seen = false).
      { destruct DoPinning; [|done]. cbn [andb].
        destruct (Hpin i id Hop) as (j & opj & Hj & Hopj & Hsp).
        apply negb_false_iff. rewrite Hseen.
        apply existsb_exists. exists opj. split; [|done].
        apply list_elem_of_In, list_elem_of_lookup. exists j.
        rewrite lookup_take_lt by lia. done. }
      rewrite Hok.
      apply IH; [exact Htake | exact Hag1 | exact Hupto1
                | by rewrite Hseen1, orb_false_r].
Qed.

Lemma depthCheck_init_agrees (ops : list Op) (depth : list Z) (endDepth : Z) :
  depth_table_ok ops depth endDepth ->
  agrees depth (depthCheck_init ops) /\
  forall k : nat, (k <= 0)%nat -> depthCheck_init ops !! k = depth !! k.
Proof.
  intros (HlenD & H0 & _). unfold agrees, depthCheck_init.
  rewrite length_insert, length_replicate.
  split; [split; [lia|]|].
  - intros k x Hk. destruct k as [|k].
    + rewrite list_lookup_insert_eq in Hk by (rewrite length_replicate; lia).
      injection Hk as <-. by right.
    + rewrite list_lookup_insert_ne in Hk by done.
      apply lookup_replicate in Hk as [-> _]. left. lia.
  - intros k Hk. replace k with 0%nat by lia.
    rewrite list_lookup_insert_eq by (rewrite length_replicate; lia). done.
Qed.
End DepthCheckComplete.

(** X2. The verifier is complete: a program that has a depth table in the
    sense of [depth_table_ok] for the declared depth, and in which every
    completion with [DoPinning] comes after a [CallInjectionStartSpecial],
    passes the check, and the table the verifier fills is that table. With
    the soundness of the check this makes the table unique. *)
Theorem depthCheck_complete `{OpArity} (ops : list Op) (depth : list Z)
    (endDepth : Z) :
  depth_table_ok ops depth endDepth ->
  pinning_ordered ops ->
  depthCheck ops endDepth = Done /\ depthCheck_depths ops endDepth = depth.
Proof.
  intros Hok Hpin. unfold depthCheck, depthCheck_depths, depthCheck_run.
  destruct (depthCheck_init_agrees ops depth endDepth Hok) as [Hag Hset].
  rewrite (depthCheck_loop_complete ops depth endDepth Hok Hpin ops 0
             (depthCheck_init ops) false eq_refl Hag Hset eq_refl).
  destruct Hok as (HlenD & _ & _ & _ & Hend).
  rewrite (lookup_total_Z _ _ _ Hend), Z.eqb_refl. done.
Qed.

Lemma depthCheck_complete_witness :
  let ops := [CallInjectionStartSpecial 0 "f" []; CallInjectionSetTarget 0;
              CallInjectionComplete 0 true] in
  depthCheck (H := spec_arity) ops 1 = Done /\
  depthCheck_depths (H := spec_arity) ops 1 = [0; 1; 0; 1].
Proof.
  apply (depthCheck_complete (H := spec_arity)).
  - split; [reflexivity|]. split; [reflexivity|]. split; [|split; [|reflexivity]].
    + intros k dk Hk.
      do 4 (destruct k as [|k]; [injection Hk as <-; lia|]). discriminate Hk.
    + intros k op Hk.
      do 3 (destruct k as [|k];
            [injection Hk as <-; eexists; split; [reflexivity|];
             split; [vm_compute; discriminate|];
             split; [reflexivity | intros; discriminate]|]).
      discriminate Hk.
  - intros n id Hn.
    destruct n as [|[|[|n]]]; try discriminate Hn.
    exists 0%nat, (CallInjectionStartSpecial 0 "f" []).
    split; [lia|]. split; reflexivity.
Defined.

(** ** The compiler *)

Lemma compileIdent_local (name : string) (ctx : compileCtx) :
  HasLocal (elookup ctx) name = true ->
  compileIdent name ctx = (Done, pushOp (PushLocal name 0) ctx).
Proof. intros Hl. unfold compileIdent. by rewrite Hl. Qed.

(** C4, as stated, fails: the jump of [a && b] is patched before
    [BoolToConst] is appended, so it points at [BoolToConst], index 4. *)
Lemma a_and_b_target_counterexample :
  ~ exists fa fb p na nb,
      fst (CompileAST (H := spec_arity) sample_lib sample_lookup expr_a_and_b 0)
      = [PushLocal "a" fa; Jump JumpIfFalse 5 p na; PushLocal "b" fb;
         Binary nb; BoolToConst].
Proof.
  intros (fa & fb & p & na & nb & Heq). vm_compute in Heq. discriminate Heq.
Qed.

(** C4, amended. For locals [a] and [b], [a && b] compiles to exactly
    [PushLocal a; Jump JumpIfFalse -> 4; PushLocal b; Binary; BoolToConst]:
    the target written back into the short-circuit jump is index 4, the
    [BoolToConst] after [Binary]. The program passes the depth check with
    declared depth 1 when pushes have arity (0, 1), a jump that does not pop
    (0, 0), [Binary] (2, 1) and [BoolToConst] (1, 1). *)
Theorem a_and_b_program `{OpArity} (lib : golib) (lk : evalLookup) (fl : Z)
    (a b : string) :
  HasLocal lk a = true ->
  HasLocal lk b = true ->
  (forall name frame, Op_depthCheck (PushLocal name frame) = (0, 1)) ->
  (forall when target node, Op_depthCheck (Jump when target false node) = (0, 0)) ->
  (forall node, Op_depthCheck (Binary node) = (2, 1)) ->
  Op_depthCheck BoolToConst = (1, 1) ->
  let node := ast.BinaryExpr (ast.Ident a) token.LAND (ast.Ident b) in
  CompileAST lib lk node fl =
    ([PushLocal a 0; Jump JumpIfFalse 4 false (Some (ast.Ident a));
      PushLocal b 0; Binary node; BoolToConst], Done)
  /\ depthCheck_depths
       [PushLocal a 0; Jump JumpIfFalse 4 false (Some (ast.Ident a));
        PushLocal b 0; Binary node; BoolToConst] 1 = [0; 1; 1; 2; 1; 1].
Proof.
  intros Ha Hb Hpush Hjump Hbin Hb2c node. subst node.
  assert (Hagree : Forall (fun op => Op_depthCheck op = spec_arity op)
            [PushLocal a 0; Jump JumpIfFalse 4 false (Some (ast.Ident a));
             PushLocal b 0;
             Binary (ast.BinaryExpr (ast.Ident a) token.LAND (ast.Ident b));
             BoolToConst]).
  { repeat constructor; cbn; auto. }
  unfold CompileAST. cbn [compileAST]. unfold compileBinary. cbn [compileAST].
  rewrite compileIdent_local by exact Ha.
  rewrite compileIdent_local by exact Hb.
  cbn -[depthCheck]. change (Z.of_nat 4) with 4.
  unfold depthCheck, depthCheck_depths.
  rewrite (depthCheck_run_ext _ spec_arity _ 1 Hagree).
  split; reflexivity.
Qed.

Lemma a_and_b_program_witness :
  CompileAST (H := spec_arity) sample_lib sample_lookup expr_a_and_b 0 =
    ([PushLocal "a" 0; Jump JumpIfFalse 4 false (Some (ast.Ident "a"));
      PushLocal "b" 0; Binary expr_a_and_b; BoolToConst], Done)
  /\ depthCheck_depths (H := spec_arity)
       [PushLocal "a" 0; Jump JumpIfFalse 4 false (Some (ast.Ident "a"));
        PushLocal "b" 0; Binary expr_a_and_b; BoolToConst] 1 = [0; 1; 1; 2; 1; 1].
Proof.
  apply (a_and_b_program (H := spec_arity) sample_lib sample_lookup 0 "a" "b");
    reflexivity.
Defined.

(** *** Shape of the emitted sequences *)

(** Two contexts with the same fields are equal; the fields of a context
    built by the update functions are read off by computation. *)
Lemma ctx_ext (c1 c2 : compileCtx) :
  elookup c1 = elookup c2 -> ops c1 = ops c2 -> allowCalls c1 = allowCalls c2 ->
  curCall c1 = curCall c2 -> flags c1 = flags c2 -> firstCall c1 = firstCall c2 ->
  c1 = c2.
Proof. destruct c1, c2. cbn. by intros -> -> -> -> -> ->. Qed.

Ltac ctx_read :=
  cbn [elookup ops allowCalls curCall flags firstCall
       pushOp set_ops set_curCall set_firstCall set_allowCalls patchJump
       compileSpecialCall_args andb negb].

Ltac ctx_fields := apply ctx_ext; ctx_read; try reflexivity.

Lemma setTarget_app (l1 l2 : list Op) (When : JumpCond) (t0 t : Z)
    (Pop_ : bool) (Node : option ast.Expr) :
  setTarget (length l1) t (l1 ++ Jump When t0 Pop_ Node :: l2)
  = l1 ++ Jump When t Pop_ Node :: l2.
Proof.
  unfold setTarget. rewrite list_lookup_middle by done.
  by rewrite (insert_app_r_alt l1 _ (length l1)), Nat.sub_diag by lia.
Qed.

Lemma compilePinningLoop_ops (id : Z) (ctx : compileCtx) :
  compilePinningLoop id ctx =
    set_curCall
      (set_ops ctx (ops ctx ++ pinningLoopOps (length (ops ctx)) (curCall ctx) id))
      (wrap_int (curCall ctx + 1)).
Proof.
  unfold compilePinningLoop, compileSpecialCall_nopin, compileSpecialCall_with.
  ctx_fields.
  rewrite <- !app_assoc. cbn [app]. rewrite setTarget_app.
  rewrite <- !app_assoc. cbn [app].
  rewrite !length_app. cbn [length].
  unfold pinningLoopOps. do 4 f_equal; lia.
Qed.

Lemma compileFunctionCallNew_copy_ops (id : Z) (Args : list ast.Expr)
    (ctx : compileCtx) :
  compileFunctionCallNew_copy id (rev Args) ctx
  = set_ops ctx (ops ctx ++ copyArgsReversed id Args).
Proof.
  unfold copyArgsReversed. revert ctx.
  induction Args as [|a Args IH] using rev_ind; intros ctx.
  - simpl. rewrite app_nil_r. by destruct ctx.
  - rewrite rev_unit. cbn [compileFunctionCallNew_copy].
    rewrite IH. rewrite length_rev.
    rewrite imap_app. cbn [imap]. rewrite rev_unit.
    unfold pushOp, set_ops. cbn [ops].
    rewrite Nat.add_0_r. rewrite <- app_assoc. reflexivity.
Qed.

(** *** String literals and their allocation *)


Lemma countConvertAllocToString_app (l1 l2 : list Op) :
  countConvertAllocToString (l1 ++ l2)
  = (countConvertAllocToString l1 + countConvertAllocToString l2)%nat.
Proof. unfold countConvertAllocToString. by rewrite List.filter_app, length_app. Qed.


Lemma extends_refl (c : compileCtx) : extends c c [].
Proof. unfold extends. by rewrite app_nil_r. Qed.

Lemma extends_pushOp (c : compileCtx) (op : Op) : extends c (pushOp op c) [op].
Proof. by unfold extends. Qed.

Lemma extends_trans (c c1 c2 : compileCtx) (k1 k2 : list Op) :
  extends c c1 k1 -> extends c1 c2 k2 -> extends c c2 (k1 ++ k2).
Proof.
  intros (Ho1 & Hl1 & Hf1 & Ha1) (Ho2 & Hl2 & Hf2 & Ha2). unfold extends.
  rewrite Ho2, Ho1, Hl2, Hl1, Hf2, Hf1, Ha2, Ha1. by rewrite app_assoc.
Qed.

Lemma extends_hasDebugPinner (c c' : compileCtx) (code : list Op) :
  extends c c' code -> hasDebugPinner c' = hasDebugPinner c.
Proof. intros (_ & _ & Hf & _). unfold hasDebugPinner. by rewrite Hf. Qed.

Lemma extends_args (id : Z) (args : list (option Op)) :
  noConvert args ->
  forall (i : nat) (c : compileCtx),
    exists code, extends c (compileSpecialCall_args id i args c) code
                 /\ countConvertAllocToString code = 0%nat.
Proof.
  induction 1 as [|a args Ha Hargs IH]; intros i c; cbn [compileSpecialCall_args].
  - exists []. split; [apply extends_refl | done].
  - destruct (IH (S i) (pushOp (CallInjectionCopyArg id (Z.of_nat i) None)
                          match a with Some op => pushOp op c | None => c end))
      as (code & Hext & Hcount).
    destruct a as [op|].
    + exists ([op] ++ [CallInjectionCopyArg id (Z.of_nat i) None] ++ code). split.
      * eapply extends_trans; [apply extends_pushOp|].
        eapply extends_trans; [apply extends_pushOp | exact Hext].
      * rewrite !countConvertAllocToString_app, Hcount.
        unfold countConvertAllocToString. cbn. by rewrite Ha.
    + exists ([CallInjectionCopyArg id (Z.of_nat i) None] ++ code). split.
      * eapply extends_trans; [apply extends_pushOp | exact Hext].
      * by rewrite countConvertAllocToString_app, Hcount.
Qed.

Lemma extends_set_curCall (c : compileCtx) (n : Z) : extends c (set_curCall c n) [].
Proof. unfold extends. cbn. by rewrite app_nil_r. Qed.

Lemma extends_set_firstCall (c : compileCtx) (b : bool) :
  extends c (set_firstCall c b) [].
Proof. unfold extends. cbn. by rewrite app_nil_r. Qed.

Lemma extends_nopin (fnname : string) (argAst : list (option ast.Expr))
    (args : list (option Op)) (c : compileCtx) :
  noConvert args ->
  exists code, extends c (compileSpecialCall_nopin fnname argAst args c) code
               /\ countConvertAllocToString code = 0%nat.
Proof.
  intros Hargs. unfold compileSpecialCall_nopin, compileSpecialCall_with.
  cbn [andb].
  set (c2 := pushOp _ (pushOp _ (set_curCall c _))).
  destruct (extends_args (curCall c) args Hargs 0 c2) as (code & Hext & Hcount).
  eexists. split.
  - eapply extends_trans; [apply extends_set_curCall|].
    eapply extends_trans; [apply extends_pushOp|].
    eapply extends_trans; [apply extends_pushOp|].
    eapply extends_trans; [exact Hext | apply extends_pushOp].
  - rewrite !countConvertAllocToString_app, Hcount. reflexivity.
Qed.

Lemma extends_getDebugPinner (c : compileCtx) :
  exists code, extends c (compileGetDebugPinner c) code
               /\ countConvertAllocToString code = 0%nat.
Proof.
  unfold compileGetDebugPinner. destruct (firstCall c && hasDebugPinner c).
  - destruct (extends_nopin DebugPinnerFunctionName [] [] c ltac:(constructor))
      as (code & Hext & Hcount).
    eexists. split.
    + eapply extends_trans; [exact Hext|].
      eapply extends_trans; [apply extends_pushOp | apply extends_set_firstCall].
    + rewrite !countConvertAllocToString_app, Hcount. reflexivity.
  - exists []. split; [apply extends_refl | done].
Qed.

Lemma extends_pinningLoop (id : Z) (c : compileCtx) :
  extends c (compilePinningLoop id c)
    (pinningLoopOps (length (ops c)) (curCall c) id).
Proof. rewrite compilePinningLoop_ops. by unfold extends. Qed.

Lemma extends_specialCall (fnname : string) (argAst : list (option ast.Expr))
    (args : list (option Op)) (doPinning : bool) (c : compileCtx) :
  noConvert args ->
  exists code, extends c (compileSpecialCall fnname argAst args doPinning c) code
               /\ countConvertAllocToString code = 0%nat.
Proof.
  intros Hargs. unfold compileSpecialCall, compileSpecialCall_with.
  assert (Hget : exists k, extends c (if doPinning then compileGetDebugPinner c else c) k
                          /\ countConvertAllocToString k = 0%nat).
  { destruct doPinning; [apply extends_getDebugPinner|].
    exists []. split; [apply extends_refl | done]. }
  destruct Hget as (k0 & Hext0 & Hc0).
  set (c1 := if doPinning then compileGetDebugPinner c else c) in *.
  set (c2 := pushOp _ (pushOp _ (set_curCall c1 _))).
  destruct (extends_args (curCall c1) args Hargs 0 c2) as (k1 & Hext1 & Hc1).
  set (c3 := compileSpecialCall_args _ _ _ _) in *.
  assert (Hext3 : extends c c3 (k0 ++ [] ++ [CallInjectionStartSpecial (curCall c1)
                                               fnname argAst]
                                  ++ [CallInjectionSetTarget (curCall c1)] ++ k1)).
  { eapply extends_trans; [exact Hext0|].
    eapply extends_trans; [apply extends_set_curCall|].
    eapply extends_trans; [apply extends_pushOp|].
    eapply extends_trans; [apply extends_pushOp | exact Hext1]. }
  destruct (doPinning && hasDebugPinner c3).
  - eexists. split.
    + eapply extends_trans; [exact Hext3|].
      eapply extends_trans; [apply extends_pushOp | apply extends_pinningLoop].
    + rewrite !countConvertAllocToString_app, Hc0, Hc1. reflexivity.
  - eexists. split.
    + eapply extends_trans; [exact Hext3 | apply extends_pushOp].
    + rewrite !countConvertAllocToString_app, Hc0, Hc1. reflexivity.
Qed.

(** [compileAllocLiteralString] appends the guard jump, the special call to
    [runtime.mallocgc] (with the pinner acquisition and the pinning loop
    when they apply) and, last, the only [ConvertAllocToString]; the jump
    points right behind it. The scope, the flags and [allowCalls] stay. *)
Lemma compileAllocLiteralString_shape (ctx : compileCtx) :
  exists code : list Op,
    extends ctx (compileAllocLiteralString ctx) code /\
    head code = Some (Jump JumpIfAllocStringChecksFail
                        (Z.of_nat (length (ops ctx) + length code)) false None) /\
    last code = Some ConvertAllocToString /\
    countConvertAllocToString code = 1%nat.
Proof.
  unfold compileAllocLiteralString.
  set (c1 := pushOp _ ctx).
  destruct (extends_specialCall "runtime.mallocgc"
              [Some (ast.BasicLit token.INT "0"); Some (ast.Ident "nil");
               Some (ast.Ident "false")]
              [Some PushLen; Some PushNil; Some (PushConst (constant.MakeBool false))]
              true c1 ltac:(repeat constructor))
    as (mid & (Hops & Hlk & Hfl & Hac) & Hcount).
  set (c2 := compileSpecialCall _ _ _ _ _) in *.
  exists (Jump JumpIfAllocStringChecksFail
            (Z.of_nat (length (ops ctx) + S (length mid + 1))) false None
          :: mid ++ [ConvertAllocToString]).
  split; [|split; [|split]].
  - unfold extends. ctx_read. rewrite Hops, Hlk, Hfl, Hac. subst c1. ctx_read.
    split; [|done].
    rewrite <- !app_assoc. cbn [app]. rewrite setTarget_app.
    do 3 f_equal. rewrite !length_app. cbn [length]. rewrite length_app. cbn [length].
    lia.
  - cbn [head length]. rewrite length_app. reflexivity.
  - by rewrite last_cons, last_snoc.
  - change (Jump ?w ?t ?p ?n :: ?l) with ([Jump w t p n] ++ l).
    rewrite !countConvertAllocToString_app, Hcount. reflexivity.
Qed.



(** *** The debug pinner *)

(** C5 at the assignment [x = "hi"] with [HasDebugPinner]: [CompileSet]
    returns without error a program that acquires the pinner for the
    allocation of the string and ends with [SetValue]; the release sequence
    that [CompileAST] appends through [compileDebugUnpin] is missing. *)
Theorem CompileSet_acquires_without_release :
  let r := CompileSet (H := spec_arity) sample_lib sample_lookup "x" (quoted "hi")
             HasDebugPinner in
  snd r = Done /\
  acquiresPinner (fst r) = true /\
  last (fst r) = Some (SetValue (Some (ast.Ident "x"))
                         (ast.BasicLit token.STRING (quoted "hi"))) /\
  ~ endsWithRelease (fst r).
Proof.
  cbn zeta. split; [vm_compute; reflexivity|]. split; [vm_compute; reflexivity|].
  split; [vm_compute; reflexivity|].
  intros (c & before & Heq).
  apply (f_equal last) in Heq. rewrite last_app in Heq.
  vm_compute in Heq. discriminate Heq.
Qed.

(** On the expression path the pinner is released: [foo(a, "b")] compiled
    by [CompileAST] ends with the release sequence. *)
Lemma CompileAST_releases_pinner :
  let r := CompileAST (H := spec_arity) sample_lib sample_lookup expr_foo_a_b
             HasDebugPinner in
  snd r = Done /\ acquiresPinner (fst r) = true /\ endsWithRelease (fst r).
Proof.
  cbn zeta. split; [vm_compute; reflexivity|]. split; [vm_compute; reflexivity|].
  exists 5, (take 47 (fst (CompileAST (H := spec_arity) sample_lib sample_lookup
                             expr_foo_a_b HasDebugPinner))).
  vm_compute. reflexivity.
Qed.

(** *** The pinner invariant along [compileAST] *)

Lemma Expr_children_ind (P : ast.Expr -> Prop) :
  (forall e, Forall P (children e) -> P e) -> forall e, P e.
Proof.
  intros Hstep. fix IH 1. intros e. apply Hstep.
  destruct e; cbn [children];
    repeat match goal with
      | |- True => exact I
      | |- Forall _ [] => constructor
      | |- Forall _ (_ :: _) => constructor; [apply IH|]
      | |- Forall _ (_ ++ _) => apply Forall_app; split
      | |- Forall _ (match ?o with Some _ => _ | None => _ end) => destruct o
      | |- Forall _ ?l =>
          is_var l; induction l; constructor; [apply IH | assumption]
      end.
Qed.

Lemma follows_refl (c : compileCtx) : follows c c.
Proof. by split. Qed.

Lemma follows_trans (c1 c2 c3 : compileCtx) :
  follows c1 c2 -> follows c2 c3 -> follows c1 c3.
Proof. intros [Hf1 Hi1] [Hf2 Hi2]. split; [congruence | auto]. Qed.

Lemma hasDebugPinner_flags (c c' : compileCtx) :
  flags c' = flags c -> hasDebugPinner c' = hasDebugPinner c.
Proof. intros Hf. unfold hasDebugPinner. by rewrite Hf. Qed.

(** A context that differs in its program by operations that are neither
    acquisitions nor releases, and not in [firstCall], follows. *)
Lemma follows_code (c c' : compileCtx) (code : list Op) :
  ops c' = ops c ++ code -> flags c' = flags c -> firstCall c' = firstCall c ->
  acquiresPinner code = false -> releasesPinner code = false ->
  follows c c'.
Proof.
  intros Hops Hfl Hfc Hacq Hrel. split; [done|].
  intros (Hfirst & Hflag & Hnorel). unfold pinner_inv, acquiresPinner, releasesPinner.
  rewrite Hops, !existsb_app, Hfc, (hasDebugPinner_flags _ _ Hfl).
  fold (acquiresPinner (ops c)) (acquiresPinner code)
       (releasesPinner (ops c)) (releasesPinner code).
  rewrite Hacq, Hrel, Hnorel, !orb_false_r. done.
Qed.

Lemma follows_pushOp (op : Op) (c : compileCtx) :
  isStartSpecial op = false -> follows c (pushOp op c).
Proof.
  intros Hop. apply (follows_code c _ [op]); try reflexivity.
  - unfold acquiresPinner. cbn. by destruct op.
  - unfold releasesPinner. cbn. by destruct op.
Qed.

Lemma existsb_insert_same (f : Op -> bool) (l : list Op) (i : nat) (x y : Op) :
  l !! i = Some x -> f y = f x -> existsb f (<[i := y]> l) = existsb f l.
Proof.
  revert i. induction l as [|a l IH]; intros [|i] Hl Hf; try discriminate Hl.
  - injection Hl as ->. cbn. by rewrite Hf.
  - cbn. f_equal. apply (IH i Hl Hf).
Qed.

Lemma existsb_setTarget (f : Op -> bool) (at_ : nat) (t : Z) (l : list Op) :
  (forall w t p n, f (Jump w t p n) = false) ->
  existsb f (setTarget at_ t l) = existsb f l.
Proof.
  intros Hf. unfold setTarget.
  destruct (l !! at_) as [op|] eqn:Hl; [|done].
  destruct op; try done.
  apply (existsb_insert_same f l at_ _ _ Hl). by rewrite !Hf.
Qed.

Lemma follows_patchJump (at_ : nat) (c : compileCtx) : follows c (patchJump at_ c).
Proof.
  split; [done|]. intros (Hfirst & Hflag & Hnorel).
  unfold pinner_inv, acquiresPinner, releasesPinner, patchJump. ctx_read.
  rewrite !existsb_setTarget by done. done.
Qed.

Lemma follows_set_curCall (c : compileCtx) (n : Z) : follows c (set_curCall c n).
Proof. by split. Qed.

Lemma follows_set_allowCalls (c : compileCtx) (b : bool) :
  follows c (set_allowCalls c b).
Proof. by split. Qed.

(** The steps of a special call that neither acquires nor releases. *)
Lemma follows_args (id : Z) (args : list (option Op)) :
  plainArgs args ->
  forall (i : nat) (c : compileCtx), follows c (compileSpecialCall_args id i args c).
Proof.
  induction 1 as [|a args Ha Hargs IH]; intros i c; cbn [compileSpecialCall_args].
  - apply follows_refl.
  - eapply follows_trans; [|apply IH].
    eapply follows_trans; [|by apply follows_pushOp].
    destruct a; [by apply follows_pushOp | apply follows_refl].
Qed.

(** Appending the start of a special call to a function that is neither
    the acquisition nor the release. *)
Lemma follows_start (id : Z) (fnname : string) (argAst : list (option ast.Expr))
    (c : compileCtx) :
  String.eqb fnname DebugPinnerFunctionName = false ->
  String.eqb fnname "runtime.(*Pinner).Unpin" = false ->
  follows c (pushOp (CallInjectionStartSpecial id fnname argAst) c).
Proof.
  intros Hn1 Hn2. apply (follows_code c _ [CallInjectionStartSpecial id fnname argAst]);
    try reflexivity.
  - unfold acquiresPinner. cbn. by rewrite Hn1.
  - unfold releasesPinner. cbn. by rewrite Hn2.
Qed.

Lemma follows_nopin (fnname : string) (argAst : list (option ast.Expr))
    (args : list (option Op)) (c : compileCtx) :
  String.eqb fnname DebugPinnerFunctionName = false ->
  String.eqb fnname "runtime.(*Pinner).Unpin" = false ->
  plainArgs args ->
  follows c (compileSpecialCall_nopin fnname argAst args c).
Proof.
  intros Hn1 Hn2 Hargs. unfold compileSpecialCall_nopin, compileSpecialCall_with.
  cbn [andb].
  eapply follows_trans; [|by apply follows_pushOp].
  eapply follows_trans; [|by apply follows_args].
  eapply follows_trans; [|by apply follows_pushOp].
  eapply follows_trans; [|by apply follows_start].
  apply follows_set_curCall.
Qed.

Lemma follows_pinningLoop (id : Z) (c : compileCtx) :
  follows c (compilePinningLoop id c).
Proof.
  unfold compilePinningLoop.
  eapply follows_trans; [|by apply follows_pushOp].
  eapply follows_trans; [|apply follows_patchJump].
  eapply follows_trans; [|by apply follows_pushOp].
  eapply follows_trans; [|by apply follows_pushOp].
  eapply follows_trans; [|apply follows_nopin; [done | done | by repeat constructor]].
  eapply follows_trans; [|by apply follows_pushOp].
  by apply follows_pushOp.
Qed.

(** The acquisition: it is emitted once, under the flag, and unsets
    [firstCall]. *)
Lemma follows_getDebugPinner (c : compileCtx) : follows c (compileGetDebugPinner c).
Proof.
  unfold compileGetDebugPinner.
  destruct (firstCall c) eqn:Hfc, (hasDebugPinner c) eqn:Hdp; cbn [andb];
    try apply follows_refl.
  split; [reflexivity|]. intros (Hfirst & Hflag & Hnorel).
  unfold pinner_inv, acquiresPinner, releasesPinner, compileSpecialCall_nopin,
    compileSpecialCall_with.
  ctx_read. rewrite !existsb_app.
  fold (releasesPinner (ops c)). rewrite Hnorel.
  cbn. rewrite orb_true_r. split; [done|]. split; [|done].
  intros _. exact Hdp.
Qed.

Lemma follows_specialCall (fnname : string) (argAst : list (option ast.Expr))
    (args : list (option Op)) (doPinning : bool) (c : compileCtx) :
  String.eqb fnname DebugPinnerFunctionName = false ->
  String.eqb fnname "runtime.(*Pinner).Unpin" = false ->
  plainArgs args ->
  follows c (compileSpecialCall fnname argAst args doPinning c).
Proof.
  intros Hn1 Hn2 Hargs. unfold compileSpecialCall, compileSpecialCall_with.
  set (c1 := if doPinning then compileGetDebugPinner c else c).
  assert (H1 : follows c c1).
  { subst c1. destruct doPinning; [apply follows_getDebugPinner | apply follows_refl]. }
  set (c3 := compileSpecialCall_args _ _ _ _).
  assert (H3 : follows c c3).
  { eapply follows_trans; [exact H1|]. subst c3.
    eapply follows_trans; [|by apply follows_args].
    eapply follows_trans; [|by apply follows_pushOp].
    eapply follows_trans; [|by apply follows_start].
    apply follows_set_curCall. }
  destruct (doPinning && hasDebugPinner c3).
  - eapply follows_trans; [|apply follows_pinningLoop].
    eapply follows_trans; [exact H3 | by apply follows_pushOp].
  - eapply follows_trans; [exact H3 | by apply follows_pushOp].
Qed.

Lemma follows_allocLiteralString (c : compileCtx) :
  follows c (compileAllocLiteralString c).
Proof.
  unfold compileAllocLiteralString.
  eapply follows_trans; [|apply follows_patchJump].
  eapply follows_trans; [|by apply follows_pushOp].
  eapply follows_trans;
    [|apply follows_specialCall; [done | done | by repeat constructor]].
  by apply follows_pushOp.
Qed.

(** *** The methods keep the invariant *)

Lemma keeps_ret : keeps ret.
Proof. intros c r c' [= <- <-]. apply follows_refl. Qed.

Lemma keeps_fail (e : error) : keeps (fail e).
Proof. intros c r c' [= <- <-]. apply follows_refl. Qed.

Lemma keeps_panic : keeps panic.
Proof. intros c r c' [= <- <-]. apply follows_refl. Qed.

Lemma keeps_lift (f : compileCtx -> compileCtx) :
  (forall c, follows c (f c)) -> keeps (lift f).
Proof. intros Hf c r c' [= <- <-]. apply Hf. Qed.

Lemma keeps_push (op : Op) : isStartSpecial op = false -> keeps (lift (pushOp op)).
Proof. intros Hop. apply keeps_lift. intros c. by apply follows_pushOp. Qed.

Lemma keeps_andThen (m k : M) : keeps m -> keeps k -> keeps (andThen m k).
Proof.
  intros Hm Hk c r c' Hrun. unfold andThen in Hrun.
  destruct (m c) as [r1 c1] eqn:Hm1. pose proof (Hm _ _ _ Hm1) as H1.
  destruct r1; try (injection Hrun as <- <-; exact H1).
  eapply follows_trans; [exact H1 | exact (Hk _ _ _ Hrun)].
Qed.

Lemma run_push (op : Op) (c : compileCtx) (r : outcome) (c' : compileCtx) :
  lift (pushOp op) c = (r, c') -> isStartSpecial op = false -> follows c c'.
Proof. intros Hrun Hop. exact (keeps_push op Hop c r c' Hrun). Qed.

Lemma run_fail (e : error) (c : compileCtx) (r : outcome) (c' : compileCtx) :
  fail e c = (r, c') -> follows c c'.
Proof. apply keeps_fail. Qed.

Ltac run_cases H :=
  repeat match type of H with
         | (if ?b then _ else _) = _ => destruct b
         | (if ?b then _ else _) _ = _ => destruct b
         | match ?x with _ => _ end = _ => destruct x
         | match ?x with _ => _ end _ = _ => destruct x
         end.

Ltac run_leaf H :=
  first [ by eapply run_push; [exact H | reflexivity]
        | by eapply run_fail; exact H ].

Lemma keeps_compileIdent (name : string) : keeps (compileIdent name).
Proof.
  intros c r c' Hrun. unfold compileIdent in Hrun.
  run_cases Hrun; run_leaf Hrun.
Qed.

Section KeepsMethods.
Variable lib : golib.
Variable rec : ast.Expr -> M.

Lemma keeps_compileUnary (expr : ast.Expr) (op : Op) :
keeps (rec expr) -> isStartSpecial op = false -> keeps (compileUnary rec expr op).
Proof. intros Hrec Hop. apply keeps_andThen; [done | by apply keeps_push]. Qed.

Lemma keeps_compileTypeAssert (node X : ast.Expr) (Type_ : option ast.Expr) :
keeps (rec X) -> keeps (compileTypeAssert rec node X Type_).
Proof.
intros Hrec. apply keeps_andThen; [done|].
intros c r c' Hrun. cbv beta zeta in Hrun.
destruct (negb _).
- destruct (FindTypeExpr _ _) as [typ [err|]]; run_leaf Hrun.
- run_leaf Hrun.
Qed.

Lemma keeps_compileBinary (a b : ast.Expr) (sop : option Op) (op : Op) :
keeps (rec a) -> keeps (rec b) ->
match sop with Some jmp => isStartSpecial jmp = false | None => True end ->
isStartSpecial op = false ->
forall c r c' at_,
  compileBinary rec a b sop op c = (r, c', at_) -> follows c c'.
Proof.
intros Ha Hb Hsop Hop c r c' at_ Hrun. unfold compileBinary in Hrun.
destruct (rec a c) as [r1 c1] eqn:H1. pose proof (Ha _ _ _ H1) as F1.
destruct r1; try (injection Hrun as <- <- <-; exact F1).
set (c2 := match sop with Some jmp => pushOp jmp c1 | None => c1 end) in *.
assert (F2 : follows c c2).
{ eapply follows_trans; [exact F1|]. subst c2.
  destruct sop; [by apply follows_pushOp | apply follows_refl]. }
destruct (rec b c2) as [r3 c3] eqn:H3. pose proof (Hb _ _ _ H3) as F3.
destruct r3; injection Hrun as <- <- <-;
  try (eapply follows_trans; [exact F2 | exact F3]).
eapply follows_trans; [exact F2|].
eapply follows_trans; [exact F3 | by apply follows_pushOp].
Qed.

Lemma keeps_compileReslice (node X : ast.Expr) (Low High : option ast.Expr) :
keeps (rec X) ->
(forall h, High = Some h -> keeps (rec h)) ->
(forall l, Low = Some l -> keeps (rec l)) ->
keeps (compileReslice rec node X Low High).
Proof.
intros HX HH HL. unfold compileReslice.
apply keeps_andThen; [done|]. apply keeps_andThen.
{ destruct High; [by apply HH | apply keeps_ret]. }
apply keeps_andThen.
{ destruct Low; [by apply HL | by apply keeps_push]. }
by apply keeps_push.
Qed.

Lemma keeps_compileBuiltinCall_args (args : list ast.Expr) :
Forall (fun a => keeps (rec a)) args -> keeps (compileBuiltinCall_args rec args).
Proof.
induction 1 as [|a args Ha Hargs IH]; cbn [compileBuiltinCall_args].
- apply keeps_ret.
- by apply keeps_andThen.
Qed.

Lemma keeps_compileBuiltinCall (builtin : string) (args : list ast.Expr) :
Forall (fun a => keeps (rec a)) args -> keeps (compileBuiltinCall rec builtin args).
Proof.
intros Hargs. apply keeps_andThen;
  [by apply keeps_compileBuiltinCall_args | by apply keeps_push].
Qed.

Lemma keeps_compileTypeCast (node Fun : ast.Expr) (Args : list ast.Expr)
  (ambiguousErr : option error) :
Forall (fun a => keeps (rec a)) Args ->
keeps (compileTypeCast lib rec node Fun Args ambiguousErr).
Proof.
intros Hargs. unfold compileTypeCast.
destruct Hargs as [|arg0 rest Harg0 _]; [apply keeps_panic|].
apply keeps_andThen; [done|].
intros c r c' Hrun. cbv beta zeta in Hrun.
destruct (FindTypeExpr _ _) as [styp [err|]].
- run_cases Hrun; run_leaf Hrun.
- run_leaf Hrun.
Qed.
Lemma keeps_compileFunctionCallOld_args (Fun : ast.Expr) (id : Z)
  (args : list ast.Expr) :
Forall (fun a => keeps (rec a)) args ->
forall i, keeps (compileFunctionCallOld_args rec Fun id i args).
Proof.
induction 1 as [|a args Ha Hargs IH]; intros i; cbn [compileFunctionCallOld_args].
- apply keeps_ret.
- intros c r c' Hrun.
  destruct (rec a c) as [r1 c1] eqn:H1. pose proof (Ha _ _ _ H1) as F1.
  destruct r1; try (injection Hrun as <- <-; exact F1).
  eapply follows_trans; [exact F1|].
  eapply follows_trans; [|exact (IH _ _ _ _ Hrun)].
  eapply follows_trans; [|by apply follows_pushOp].
  destruct (isStringLiteral a);
    [apply follows_allocLiteralString | apply follows_refl].
Qed.

(** Without the [HasDebugPinner] flag a program that keeps the invariant
  holds no acquisition, so that putting back an earlier program, as
  [compileFunctionCallOld] does, loses none. *)
Lemma follows_restore (c c1 : compileCtx) :
hasDebugPinner c = false -> follows c c1 -> follows c (set_ops c1 (ops c)).
Proof.
intros Hdp [Hfl Hinv]. split; [exact Hfl|]. intros Hc.
destruct (Hinv Hc) as (Hf1 & Hflag1 & Hrel1).
destruct Hc as (Hf & Hflag & Hrel).
rewrite (hasDebugPinner_flags _ _ Hfl), Hdp in Hflag1.
rewrite Hdp in Hflag.
assert (E1 : firstCall c1 = true) by (destruct (firstCall c1); auto).
assert (E : firstCall c = true) by (destruct (firstCall c); auto).
unfold pinner_inv, hasDebugPinner. ctx_read.
rewrite E1. rewrite E in Hf. split; [exact Hf|]. split; [done | exact Hrel].
Qed.

Lemma keeps_callOld_tail (hasFunc : bool) (jmpif : nat) (id : Z) (Fun : ast.Expr)
  (Args : list ast.Expr) :
keeps (rec Fun) -> Forall (fun a => keeps (rec a)) Args ->
keeps (rec Fun ;>
       lift (fun c => if hasFunc then patchJump jmpif c else c) ;>
       lift (pushOp (CallInjectionSetTarget id)) ;>
       compileFunctionCallOld_args rec Fun id 0 Args ;>
       lift (pushOp (CallInjectionComplete id false)))%compile.
Proof.
intros HFun HArgs. apply keeps_andThen; [done|]. apply keeps_andThen.
{ apply keeps_lift. intros c.
  destruct hasFunc; [apply follows_patchJump | apply follows_refl]. }
apply keeps_andThen; [by apply keeps_push|].
apply keeps_andThen; [by apply keeps_compileFunctionCallOld_args|].
by apply keeps_push.
Qed.

Lemma keeps_compileFunctionCallOld (node Fun : ast.Expr) (Args : list ast.Expr)
  (id : Z) :
keeps (rec Fun) -> Forall (fun a => keeps (rec a)) Args ->
forall c r c', hasDebugPinner c = false ->
  compileFunctionCallOld rec node Fun Args id c = (r, c') -> follows c c'.
Proof.
intros HFun HArgs c r c' Hdp Hrun. unfold compileFunctionCallOld in Hrun.
destruct (rec Fun (set_allowCalls c false)) as [r1 c1] eqn:H1.
assert (F1 : follows c c1).
{ eapply follows_trans; [apply (follows_set_allowCalls c false)|].
  exact (HFun _ _ _ H1). }
assert (F2 : follows c (set_allowCalls c1 (allowCalls c))).
{ eapply follows_trans; [exact F1 | apply follows_set_allowCalls]. }
assert (F3 : follows c (set_ops (set_allowCalls c1 (allowCalls c)) (ops c))).
{ by apply follows_restore. }
destruct r1 as [|err|].
- cbv zeta iota beta in Hrun.
  eapply follows_trans;
    [|exact (keeps_callOld_tail true _ id Fun Args HFun HArgs _ _ _ Hrun)].
  eapply follows_trans; [exact F2|].
  eapply follows_trans; [|by apply follows_pushOp].
  eapply follows_trans; [|by apply follows_pushOp].
  by apply follows_pushOp.
- cbv zeta iota beta in Hrun. destruct (negb (is_ErrFuncCallNotAllowed err)).
  + injection Hrun as <- <-. exact F3.
  + eapply follows_trans;
      [|exact (keeps_callOld_tail false 0%nat id Fun Args HFun HArgs _ _ _ Hrun)].
    eapply follows_trans; [exact F3|].
    eapply follows_trans; [|by apply follows_pushOp].
    by apply follows_pushOp.
- injection Hrun as <- <-. exact F1.
Qed.

Lemma keeps_compileFunctionCallNew_args (Fun : ast.Expr) (args : list ast.Expr) :
Forall (fun a => keeps (rec a)) args ->
forall i, keeps (compileFunctionCallNew_args rec Fun i args).
Proof.
induction 1 as [|a args Ha Hargs IH]; intros i; cbn [compileFunctionCallNew_args].
- apply keeps_ret.
- intros c r c' Hrun.
  destruct (rec a c) as [r1 c1] eqn:H1. pose proof (Ha _ _ _ H1) as F1.
  assert (F2 : follows c (if isStringLiteral a
                          then compileAllocLiteralString c1 else c1)).
  { eapply follows_trans; [exact F1|].
    destruct (isStringLiteral a);
      [apply follows_allocLiteralString | apply follows_refl]. }
  destruct r1.
  + eapply follows_trans; [exact F2 | exact (IH _ _ _ _ Hrun)].
  + injection Hrun as <- <-. exact F2.
  + injection Hrun as <- <-. exact F1.
Qed.

Lemma follows_compileFunctionCallNew_copy (id : Z) (revArgs : list ast.Expr)
  (c : compileCtx) :
follows c (compileFunctionCallNew_copy id revArgs c).
Proof.
revert c. induction revArgs as [|a l IH]; intros c;
  cbn [compileFunctionCallNew_copy].
- apply follows_refl.
- eapply follows_trans; [|apply IH]. by apply follows_pushOp.
Qed.

Lemma keeps_compileFunctionCallNew (node Fun : ast.Expr) (Args : list ast.Expr)
  (id : Z) :
keeps (rec Fun) -> Forall (fun a => keeps (rec a)) Args ->
keeps (compileFunctionCallNew rec node Fun Args id).
Proof.
intros HFun HArgs. unfold compileFunctionCallNew.
apply keeps_andThen; [apply keeps_lift, follows_getDebugPinner|].
apply keeps_andThen; [done|].
apply keeps_andThen; [by apply keeps_compileFunctionCallNew_args|].
do 4 (apply keeps_andThen; [by apply keeps_push|]).
apply keeps_andThen;
  [apply keeps_lift; intros c; apply follows_compileFunctionCallNew_copy|].
apply keeps_andThen; [by apply keeps_push|].
apply keeps_lift, follows_pinningLoop.
Qed.

Lemma keeps_compileFunctionCall (node Fun : ast.Expr) (Args : list ast.Expr) :
keeps (rec Fun) -> Forall (fun a => keeps (rec a)) Args ->
keeps (compileFunctionCall rec node Fun Args).
Proof.
intros HFun HArgs c r c' Hrun. unfold compileFunctionCall in Hrun.
cbv zeta in Hrun.
destruct (match Fun with
          | ast.Ident Name =>
              if HasBuiltin (elookup c) Name then Some Name else None
          | _ => None
          end) as [Name|].
{ exact (keeps_compileBuiltinCall Name Args HArgs _ _ _ Hrun). }
destruct (negb (allowCalls c)); [exact (keeps_fail _ _ _ _ Hrun)|].
destruct (hasDebugPinner (set_curCall c _)) eqn:Hdp.
- eapply follows_trans; [apply follows_set_curCall|].
  exact (keeps_compileFunctionCallNew node Fun Args _ HFun HArgs _ _ _ Hrun).
- eapply follows_trans; [apply follows_set_curCall|].
  exact (keeps_compileFunctionCallOld node Fun Args _ HFun HArgs _ _ _ Hdp Hrun).
Qed.

Lemma keeps_compileTypeCastOrFuncCall (node Fun : ast.Expr) (Args : list ast.Expr) :
keeps (rec Fun) -> Forall (fun a => keeps (rec a)) Args ->
keeps (compileTypeCastOrFuncCall lib rec node Fun Args).
Proof.
intros HFun HArgs c r c' Hrun. unfold compileTypeCastOrFuncCall in Hrun.
pose proof (keeps_compileFunctionCall node Fun Args HFun HArgs) as HCall.
pose proof (fun e => keeps_compileTypeCast node Fun Args e HArgs) as HCast.
destruct (negb _); [exact (HCall _ _ _ Hrun)|].
cbv zeta in Hrun.
repeat match type of Hrun with
       | compileFunctionCall _ _ _ _ _ = _ => exact (HCall _ _ _ Hrun)
       | compileTypeCast _ _ _ _ _ _ _ = _ => exact (HCast _ _ _ _ Hrun)
       | (_, ?x) = (_, _) => injection Hrun as <- <-
       | (if ?b then _ else _) = _ => destruct b
       | match ?x with _ => _ end = _ =>
           lazymatch x with
           | compileTypeCast _ _ _ _ _ _ _ =>
               let r1 := fresh "r" in let c1 := fresh "c" in
               let E := fresh "E" in
               destruct x as [r1 c1] eqn:E; apply HCast in E
           | rec _ _ => destruct x as [? ?]
           | _ => destruct x
           end
       end;
  first [ apply follows_refl | assumption
        | eapply follows_trans; [eassumption | exact (HCall _ _ _ Hrun)] ].
Qed.

Lemma keeps_compileCompositeLit_elts (Field : list string) (elts : list ast.Expr) :
Forall (fun e => match e with
                 | ast.KeyValueExpr _ Value => keeps (rec Value)
                 | _ => keeps (rec e)
                 end) elts ->
forall i, keeps (compileCompositeLit_elts rec Field i elts).
Proof.
induction 1 as [|elt elts Helt Helts IH]; intros i;
  cbn [compileCompositeLit_elts].
- apply keeps_ret.
- intros c r c' Hrun.
  assert (Hgo : forall rhe field c1,
             follows c c1 ->
             compileCompositeLit_elts rec Field (S i) elts
               (pushOp (SetValue None rhe)
                  (pushOp (Select field) (pushOp Dup c1))) = (r, c') ->
             follows c c').
  { intros rhe field c1 F1 Hnext.
    eapply follows_trans; [exact F1|].
    eapply follows_trans; [|exact (IH _ _ _ _ Hnext)].
    eapply follows_trans; [|by apply follows_pushOp].
    eapply follows_trans; [|by apply follows_pushOp].
    by apply follows_pushOp. }
  destruct elt;
    match type of Hrun with
    | context [rec ?e c] =>
        destruct (rec e c) as [r1 c1] eqn:H1; pose proof (Helt _ _ _ H1) as F1
    end;
    cbv beta iota zeta in Hrun;
    repeat match type of Hrun with
           | (_, _) = (_, _) => injection Hrun as <- <-; exact F1
           | match ?x with _ => _ end = _ => destruct x
           end;
    exact (Hgo _ _ _ F1 Hrun).
Qed.

End KeepsMethods.

Ltac split_children :=
  repeat match goal with
         | H : Forall _ (_ :: _) |- _ => apply Forall_cons in H; destruct H
         | H : Forall _ (_ ++ _) |- _ => apply Forall_app in H; destruct H
         | H : Forall _ (match ?o with Some _ => _ | None => _ end) |- _ =>
             destruct o
         end.

(** Every run of [compileAST] keeps the pinner invariant. *)
Lemma keeps_compileAST (lib : golib) (t : ast.Expr) : keeps (compileAST lib t).
Proof.
  cut (keeps (compileAST lib t) /\
       Forall (fun x => keeps (compileAST lib x)) (children t)); [tauto|].
  induction t as [t IH] using Expr_children_ind.
  assert (Hch : Forall (fun x => keeps (compileAST lib x)) (children t)).
  { eapply Forall_impl; [exact IH|]. by intros x [Hx _]. }
  split; [|exact Hch].
  destruct t as [ Name | Kind_ Value | X | X Sel | X Type_ | X Index_ | X Indices
                | X Low High Slice3 | X | Op_ X | X Op_ Y | Fun Args
                | Type_ Elts | Key Value | Elt | | | | Key Value | Value | | ];
    cbn [children] in Hch, IH; cbn [compileAST];
    try apply keeps_fail.
  - (* Ident *) apply keeps_compileIdent.
  - (* BasicLit *) by apply keeps_push.
  - (* ParenExpr *) by split_children.
  - (* SelectorExpr *)
    split_children.
    pose proof (keeps_compileUnary (compileAST lib) X (Select Sel)
                  ltac:(assumption) eq_refl) as HU.
    destruct X; try exact HU;
      intros c r c' Hrun; cbv zeta in Hrun; run_cases Hrun;
      first [ run_leaf Hrun
            | exact (HU _ _ _ Hrun)
            | exact (keeps_panic _ _ _ Hrun)
            | injection Hrun as <- <-;
              eapply follows_trans; by apply follows_pushOp ].
  - (* TypeAssertExpr *)
    apply keeps_compileTypeAssert. by split_children.
  - (* IndexExpr *)
    split_children. intros c r c' Hrun.
    destruct (compileBinary _ _ _ _ _ _) as [[r1 c1] at_] eqn:E.
    cbn [fst] in Hrun. injection Hrun as <- <-.
    by eapply (keeps_compileBinary (compileAST lib)); [| | | |exact E].
  - (* SliceExpr *)
    destruct Slice3; [apply keeps_fail|].
    apply keeps_compileReslice.
    + by split_children.
    + intros h ->. by split_children.
    + intros l ->. by split_children.
  - (* StarExpr *)
    apply keeps_compileUnary; [by split_children | done].
  - (* UnaryExpr *)
    split_children. by destruct Op_; apply keeps_compileUnary.
  - (* BinaryExpr *)
    split_children.
    destruct Op_; try apply keeps_fail;
      intros c r c' Hrun; cbv zeta in Hrun;
      destruct (compileBinary _ _ _ _ _ _) as [[r1 c1] at_] eqn:E;
      apply (keeps_compileBinary (compileAST lib)) in E; try done;
      destruct r1; injection Hrun as <- <-; try exact E;
      (eapply follows_trans; [exact E|]);
      (eapply follows_trans; [apply follows_patchJump | by apply follows_pushOp]).
  - (* CallExpr *)
    split_children. by apply keeps_compileTypeCastOrFuncCall.
  - (* CompositeLit *)
    intros c r c' Hrun.
    assert (Helts : Forall (fun e => match e with
                                     | ast.KeyValueExpr _ Value =>
                                         keeps (compileAST lib Value)
                                     | _ => keeps (compileAST lib e)
                                     end) Elts).
    { apply Forall_app in IH as [_ IH].
      eapply Forall_impl; [exact IH|]. intros e [He Hce].
      destruct e; try exact He. cbn [children] in Hce. by split_children. }
    repeat match type of Hrun with
           | fail _ _ = _ => exact (keeps_fail _ _ _ _ Hrun)
           | (if ?b then _ else _) = _ => destruct b
           | match ?x with _ => _ end = _ => destruct x
           end.
    eapply follows_trans;
      [|exact (keeps_compileCompositeLit_elts _ _ _ Helts _ _ _ _ Hrun)].
    eapply follows_trans; [|by apply follows_pushOp].
    eapply follows_trans; [|by apply follows_pushOp].
    apply follows_specialCall; [done | done |]. by repeat constructor.
Qed.

(** *** The release at the end of [CompileAST] *)

Lemma compileDebugUnpin_ops (c : compileCtx) :
  ops (compileDebugUnpin c) =
  if negb (firstCall c) && hasDebugPinner c
  then ops c ++ releaseOps (curCall c) else ops c.
Proof.
  unfold compileDebugUnpin.
  destruct (negb (firstCall c) && hasDebugPinner c); [|done].
  unfold compileSpecialCall, compileSpecialCall_with. ctx_read.
  by rewrite <- !app_assoc.
Qed.

Lemma releaseOps_releases (id : Z) (before : list Op) :
  releasesPinner (before ++ releaseOps id) = true.
Proof. unfold releasesPinner. rewrite existsb_app. apply orb_true_r. Qed.

(** X1. The program that [CompileAST] returns ends with the release
    sequence exactly when it holds a pinner acquisition, whatever the
    expression, the flags and the outcome of the depth check. *)
Lemma CompileAST_release_iff_acquisition `{OpArity} (lib : golib)
    (lk : evalLookup) (t : ast.Expr) (fl : Z) :
  let code := fst (CompileAST lib lk t fl) in
  endsWithRelease code <-> acquiresPinner code = true.
Proof.
  intros code. subst code. unfold CompileAST.
  set (c0 := {| elookup := lk; ops := []; allowCalls := true; curCall := 0;
                flags := fl; firstCall := true |}).
  assert (I0 : pinner_inv c0) by (by repeat split).
  destruct (compileAST lib t c0) as [r c1] eqn:E.
  destruct (keeps_compileAST lib t _ _ _ E) as [_ Hinv].
  destruct (Hinv I0) as (Hf & Hflag & Hrel).
  destruct r; cbn [fst];
    try (split; [intros (id & before & Heq); by destruct before | done]).
  rewrite compileDebugUnpin_ops.
  destruct (firstCall c1) eqn:Efc; cbn [negb andb].
  - split.
    + intros (id & before & Heq).
      rewrite Heq, releaseOps_releases in Hrel. discriminate Hrel.
    + intros Ha. rewrite Ha in Hf. discriminate Hf.
  - rewrite (Hflag eq_refl). split; [|by eexists _, _].
    intros _. unfold acquiresPinner. rewrite existsb_app.
    fold (acquiresPinner (ops c1)). by destruct (acquiresPinner (ops c1)).
Qed.

(** ** What compiling leaves alone: scope, flags, [allowCalls], the program
    so far, the pinner, the range of the jumps *)

Lemma grows_refl (r : outcome) (c : compileCtx) : grows r c c.
Proof.
  do 3 (split; [done|]). split; [|done].
  exists []. split; [by rewrite app_nil_r|]. by constructor.
Qed.

Lemma grows_tag (r r' : outcome) (c c' : compileCtx) :
  grows r c c' -> r <> Panic -> grows r' c c'.
Proof. intros (He & Hf & Ha & Hc & Ht) Hr. do 4 (split; [auto|]). done. Qed.

Lemma grows_Panic (r : outcome) (c c' : compileCtx) :
  grows r c c' -> grows Panic c c'.
Proof. intros (He & Hf & Ha & Hc & Ht). do 4 (split; [done|]). done. Qed.

Lemma grows_trans (r1 r : outcome) (c c1 c2 : compileCtx) :
  grows r1 c c1 -> r1 <> Panic -> grows r c1 c2 -> grows r c c2.
Proof.
  intros (He1 & Hf1 & Ha1 & (k1 & Ho1 & Hp1) & Ht1) Hr1
         (He2 & Hf2 & Ha2 & (k2 & Ho2 & Hp2) & Ht2).
  split; [congruence|]. split; [congruence|].
  split; [intros Hr; rewrite (Ha2 Hr); auto|]. split; [|auto].
  exists (k1 ++ k2). split; [by rewrite Ho2, Ho1, app_assoc|].
  intros Hdp. apply Forall_app. split; [by apply Hp1|]. apply Hp2.
  by rewrite (hasDebugPinner_flags _ _ Hf1).
Qed.

(** Appending a block whose jumps point into the program. *)
Lemma grows_block (r : outcome) (c c1 c2 : compileCtx) (code : list Op) :
  grows r c c1 ->
  elookup c2 = elookup c1 -> flags c2 = flags c1 -> allowCalls c2 = allowCalls c1 ->
  ops c2 = ops c1 ++ code ->
  (hasDebugPinner c = false -> noPinnerOps code) ->
  (forall (k : nat) When Target Pop_ Node,
     code !! k = Some (Jump When Target Pop_ Node) ->
     0 <= Target <= Z.of_nat (length (ops c1) + length code)) ->
  grows r c c2.
Proof.
  intros (He & Hf & Ha & (k1 & Ho & Hp) & Ht) He2 Hf2 Ha2 Ho2 Hp2 Hj.
  split; [congruence|]. split; [congruence|].
  split; [intros Hr; rewrite Ha2; auto|]. split.
  - exists (k1 ++ code). split; [by rewrite Ho2, Ho, app_assoc|].
    intros Hdp. apply Forall_app. split; [by apply Hp | by apply Hp2].
  - intros Hin. specialize (Ht Hin). rewrite Ho2.
    intros k w T p n Hk. rewrite length_app.
    destruct (decide (k < length (ops c1))%nat) as [Hlt|Hge].
    + rewrite lookup_app_l in Hk by done.
      specialize (Ht k w T p n Hk). lia.
    + rewrite lookup_app_r in Hk by lia. apply Hj in Hk. lia.
Qed.

Lemma grows_push (r : outcome) (c c1 : compileCtx) (op : Op) :
  grows r c c1 ->
  (hasDebugPinner c = false -> usesPinner op = false) ->
  (forall When Target Pop_ Node, op = Jump When Target Pop_ Node ->
     0 <= Target <= Z.of_nat (length (ops c1)) + 1) ->
  grows r c (pushOp op c1).
Proof.
  intros Hg Hp Hj. apply (grows_block r c c1 _ [op]); try done.
  - intros Hdp. constructor; [auto | constructor].
  - intros [|k] w T p n Hk; [|done]. injection Hk as ->.
    specialize (Hj _ _ _ _ eq_refl). cbn [length]. lia.
Qed.

Lemma grows_set_curCall (r : outcome) (c c1 : compileCtx) (n : Z) :
  grows r c c1 -> grows r c (set_curCall c1 n).
Proof. intros (He & Hf & Ha & Hc & Ht). do 4 (split; [done|]). done. Qed.

Lemma grows_set_firstCall (r : outcome) (c c1 : compileCtx) (b : bool) :
  grows r c c1 -> grows r c (set_firstCall c1 b).
Proof. intros (He & Hf & Ha & Hc & Ht). do 4 (split; [done|]). done. Qed.

(** Writing the target of a jump. *)
Lemma setTarget_length (at_ : nat) (t : Z) (l : list Op) :
  length (setTarget at_ t l) = length l.
Proof.
  unfold setTarget. destruct (l !! at_) as [[]|]; try done.
  by rewrite length_insert.
Qed.

Lemma setTarget_app_r (l1 l2 : list Op) (at_ : nat) (t : Z) :
  (length l1 <= at_)%nat ->
  setTarget at_ t (l1 ++ l2) = l1 ++ setTarget (at_ - length l1) t l2.
Proof.
  intros Hle. unfold setTarget. rewrite lookup_app_r by done.
  destruct (l2 !! (at_ - length l1)%nat) as [[]|]; try done.
  by rewrite insert_app_r_alt by done.
Qed.

Lemma setTarget_noPinnerOps (at_ : nat) (t : Z) (l : list Op) :
  noPinnerOps l -> noPinnerOps (setTarget at_ t l).
Proof.
  intros Hl. unfold setTarget.
  destruct (l !! at_) as [op|] eqn:Hat; [|done]. destruct op; try done.
  apply Forall_insert; [done|].
  exact (Forall_lookup_1 _ _ _ _ Hl Hat).
Qed.

Lemma setTarget_in_range (at_ : nat) (l : list Op) :
  targets_in_range l -> targets_in_range (setTarget at_ (Z.of_nat (length l)) l).
Proof.
  intros Hl k w T p n Hk. rewrite setTarget_length.
  unfold setTarget in Hk.
  destruct (l !! at_) as [op|] eqn:Hat; [|by apply (Hl k w T p n)].
  destruct op; try by apply (Hl k w T p n).
  destruct (decide (k = at_)) as [->|Hne].
  - rewrite list_lookup_insert_eq in Hk by (by apply lookup_lt_Some in Hat).
    injection Hk as <- <- <- <-. lia.
  - rewrite list_lookup_insert_ne in Hk by done. by apply (Hl k w T p n).
Qed.

Lemma grows_patch (r : outcome) (c c1 : compileCtx) (at_ : nat) :
  grows r c c1 -> (length (ops c) <= at_)%nat -> grows r c (patchJump at_ c1).
Proof.
  intros (He & Hf & Ha & (k1 & Ho & Hp) & Ht) Hat.
  split; [done|]. split; [done|]. split; [done|]. split.
  - exists (setTarget (at_ - length (ops c)) (Z.of_nat (length (ops c1))) k1).
    unfold patchJump. ctx_read. split; [by rewrite Ho at 2; rewrite setTarget_app_r|].
    intros Hdp. by apply setTarget_noPinnerOps, Hp.
  - intros Hin. unfold patchJump. ctx_read. by apply setTarget_in_range, Ht.
Qed.

Lemma grows_length (r : outcome) (c c' : compileCtx) :
  grows r c c' -> (length (ops c) <= length (ops c'))%nat.
Proof. intros (_ & _ & _ & (k & -> & _) & _). rewrite length_app. lia. Qed.

Lemma grows_hasDebugPinner (r : outcome) (c c' : compileCtx) :
  grows r c c' -> hasDebugPinner c' = hasDebugPinner c.
Proof. intros (_ & Hf & _). by apply hasDebugPinner_flags. Qed.

(** The side conditions of [grows_push] for an operation that is given. *)
Ltac push_side :=
  first [ by intros
        | by (intros ? ? ? ? [=])
        | by (intros ? ? ? ? [= <- <- <- <-]; lia)
        | by (intros Hx; congruence) ].

Ltac grow_push := apply grows_push; [| push_side | push_side].

Lemma grows_args (r : outcome) (c : compileCtx) (id : Z) (args : list (option Op)) :
  plainOperands c args ->
  forall (i : nat) (c1 : compileCtx),
    grows r c c1 -> grows r c (compileSpecialCall_args id i args c1).
Proof.
  induction 1 as [|a args Ha Hargs IH]; intros i c1 Hg;
    cbn [compileSpecialCall_args]; [done|].
  apply IH. grow_push.
  destruct a as [op|]; [|done]. destruct Ha as [Hp Hj].
  apply grows_push; [done | done |]. intros w T p n ->. by destruct (Hj w T p n).
Qed.

Lemma grows_nopin (r : outcome) (c c1 : compileCtx) (fnname : string)
    (argAst : list (option ast.Expr)) (args : list (option Op)) :
  grows r c c1 ->
  (hasDebugPinner c = false ->
   usesPinner (CallInjectionStartSpecial 0 fnname []) = false) ->
  plainOperands c args ->
  grows r c (compileSpecialCall_nopin fnname argAst args c1).
Proof.
  intros Hg Hfn Hargs. unfold compileSpecialCall_nopin, compileSpecialCall_with.
  cbn [andb].
  grow_push. apply grows_args; [done|]. grow_push.
  apply grows_push; [| exact Hfn | push_side]. by apply grows_set_curCall.
Qed.

Lemma grows_getDebugPinner (r : outcome) (c c1 : compileCtx) :
  grows r c c1 -> grows r c (compileGetDebugPinner c1).
Proof.
  intros Hg. unfold compileGetDebugPinner.
  destruct (firstCall c1); [|done]. cbn [andb].
  destruct (hasDebugPinner c1) eqn:Hdp; [|done].
  rewrite (grows_hasDebugPinner _ _ _ Hg) in Hdp.
  apply grows_set_firstCall. grow_push.
  apply grows_nopin; [done | push_side | constructor].
Qed.

Lemma grows_pinningLoop (r : outcome) (c c1 : compileCtx) (id : Z) :
  grows r c c1 -> hasDebugPinner c = true ->
  grows r c (compilePinningLoop id c1).
Proof.
  intros Hg Hdp. rewrite compilePinningLoop_ops.
  apply (grows_block r c c1 _
           (pinningLoopOps (length (ops c1)) (curCall c1) id)); try done.
  - intros Hx. congruence.
  - intros k w T p n Hk. unfold pinningLoopOps in *. cbn [length].
    do 11 (destruct k as [|k]; [try discriminate Hk; injection Hk as <- <- <- <-; lia|]).
    discriminate Hk.
Qed.

Lemma grows_specialCall (r : outcome) (c c1 : compileCtx) (fnname : string)
    (argAst : list (option ast.Expr)) (args : list (option Op))
    (doPinning : bool) :
  grows r c c1 ->
  (hasDebugPinner c = false ->
   usesPinner (CallInjectionStartSpecial 0 fnname []) = false) ->
  plainOperands c args ->
  grows r c (compileSpecialCall fnname argAst args doPinning c1).
Proof.
  intros Hg Hfn Hargs. unfold compileSpecialCall, compileSpecialCall_with.
  set (c2 := if doPinning then compileGetDebugPinner c1 else c1).
  assert (H2 : grows r c c2).
  { subst c2. destruct doPinning; [by apply grows_getDebugPinner | done]. }
  set (c3 := compileSpecialCall_args _ _ _ _).
  assert (H3 : grows r c c3).
  { subst c3. apply grows_args; [done|]. grow_push.
    apply grows_push; [| exact Hfn | push_side]. by apply grows_set_curCall. }
  destruct doPinning; cbn [andb].
  - destruct (hasDebugPinner c3) eqn:Hdp.
    + rewrite (grows_hasDebugPinner _ _ _ H3) in Hdp.
      apply grows_pinningLoop; [|done]. grow_push. done.
    + grow_push. done.
  - grow_push. done.
Qed.

Lemma grows_allocLiteralString (r : outcome) (c c1 : compileCtx) :
  grows r c c1 -> grows r c (compileAllocLiteralString c1).
Proof.
  intros Hg. unfold compileAllocLiteralString.
  apply grows_patch; [|by apply grows_length in Hg].
  grow_push.
  apply grows_specialCall; [| push_side | by repeat constructor].
  grow_push. done.
Qed.

Lemma grows_debugUnpin (r : outcome) (c c1 : compileCtx) :
  grows r c c1 -> grows r c (compileDebugUnpin c1).
Proof.
  intros Hg. unfold compileDebugUnpin.
  destruct (negb (firstCall c1)); [|done]. cbn [andb].
  destruct (hasDebugPinner c1) eqn:Hdp; [|done].
  rewrite (grows_hasDebugPinner _ _ _ Hg) in Hdp.
  do 3 grow_push.
  apply grows_specialCall; [done | push_side |].
  constructor; [|constructor]. split; [push_side | done].
Qed.

(** *** The methods *)

Lemma growing_from_base (m : M) : (forall c, growing_from c m) -> growing m.
Proof. intros Hm c r c' Hrun. exact (Hm c c r c' (grows_refl Done c) Hrun). Qed.

Lemma growing_from_any (m : M) (c : compileCtx) : growing m -> growing_from c m.
Proof.
  intros Hm c1 r c' Hg Hrun.
  eapply grows_trans; [exact Hg | done | exact (Hm _ _ _ Hrun)].
Qed.

Lemma gf_ret (c : compileCtx) : growing_from c ret.
Proof. by intros c1 r c' Hg [= <- <-]. Qed.

Lemma gf_fail (c : compileCtx) (e : error) : growing_from c (fail e).
Proof. intros c1 r c' Hg [= <- <-]. by apply (grows_tag Done). Qed.

Lemma gf_panic (c : compileCtx) : growing_from c panic.
Proof. intros c1 r c' Hg [= <- <-]. by apply (grows_tag Done). Qed.

Lemma gf_lift (c : compileCtx) (f : compileCtx -> compileCtx) :
  (forall c1, grows Done c c1 -> grows Done c (f c1)) -> growing_from c (lift f).
Proof. intros Hf c1 r c' Hg [= <- <-]. by apply Hf. Qed.

Lemma plainOp_push (r : outcome) (c c1 : compileCtx) (op : Op) :
  plainOp op -> grows r c c1 -> grows r c (pushOp op c1).
Proof.
  intros [Hp Hj] Hg. apply grows_push; [done | done |].
  intros w T p n ->. by destruct (Hj w T p n).
Qed.

Lemma gf_push (c : compileCtx) (op : Op) :
  plainOp op -> growing_from c (lift (pushOp op)).
Proof. intros Hop. apply gf_lift. intros c1. by apply plainOp_push. Qed.

Lemma gf_andThen (c : compileCtx) (m k : M) :
  growing_from c m -> growing_from c k -> growing_from c (andThen m k).
Proof.
  intros Hm Hk c1 r c' Hg Hrun. unfold andThen in Hrun.
  destruct (m c1) as [r1 c2] eqn:Hm1. pose proof (Hm _ _ _ Hg Hm1) as H1.
  destruct r1; try (injection Hrun as <- <-; exact H1).
  exact (Hk _ _ _ H1 Hrun).
Qed.

Lemma run_gf_push (c c1 : compileCtx) (op : Op) (r : outcome) (c' : compileCtx) :
  grows Done c c1 -> lift (pushOp op) c1 = (r, c') -> plainOp op -> grows r c c'.
Proof. intros Hg Hrun Hop. exact (gf_push c op Hop c1 r c' Hg Hrun). Qed.

Lemma run_gf_fail (c c1 : compileCtx) (e : error) (r : outcome) (c' : compileCtx) :
  grows Done c c1 -> fail e c1 = (r, c') -> grows r c c'.
Proof. intros Hg Hrun. exact (gf_fail c e c1 r c' Hg Hrun). Qed.

Ltac plain := split; [reflexivity | by intros ? ? ? ?].

Ltac gf_leaf Hg H :=
  first [ by eapply run_gf_push; [exact Hg | exact H | plain]
        | by eapply run_gf_fail; [exact Hg | exact H] ].

Lemma gf_compileIdent (c : compileCtx) (name : string) :
  growing_from c (compileIdent name).
Proof.
  intros c1 r c' Hg Hrun. unfold compileIdent in Hrun.
  run_cases Hrun; gf_leaf Hg Hrun.
Qed.

Section GrowingMethods.
Variable lib : golib.
Variable rec : ast.Expr -> M.

Lemma gf_rec (c : compileCtx) (e : ast.Expr) :
growing (rec e) -> growing_from c (rec e).
Proof. apply growing_from_any. Qed.

Lemma gf_compileUnary (c : compileCtx) (expr : ast.Expr) (op : Op) :
growing (rec expr) -> plainOp op -> growing_from c (compileUnary rec expr op).
Proof.
intros Hrec Hop. apply gf_andThen; [by apply gf_rec | by apply gf_push].
Qed.

Lemma gf_compileTypeAssert (c : compileCtx) (node X : ast.Expr)
  (Type_ : option ast.Expr) :
growing (rec X) -> growing_from c (compileTypeAssert rec node X Type_).
Proof.
intros Hrec. apply gf_andThen; [by apply gf_rec|].
intros c1 r c' Hg Hrun. cbv beta zeta in Hrun.
destruct (negb _).
- destruct (FindTypeExpr _ _) as [typ [err|]]; gf_leaf Hg Hrun.
- gf_leaf Hg Hrun.
Qed.

Lemma gf_compileBinary (c : compileCtx) (a b : ast.Expr) (sop : option Op)
  (op : Op) :
growing (rec a) -> growing (rec b) ->
match sop with
| Some jmp => exists When Pop_ Node,
    jmp = Jump When 0 Pop_ Node /\ usesPinner jmp = false
| None => True
end ->
plainOp op ->
forall c1 r c' at_,
  grows Done c c1 ->
  compileBinary rec a b sop op c1 = (r, c', at_) ->
  grows r c c' /\ (r = Done -> (length (ops c) <= at_)%nat).
Proof.
intros Ha Hb Hsop Hop c1 r c' at_ Hg Hrun. unfold compileBinary in Hrun.
destruct (rec a c1) as [r1 c2] eqn:H1.
pose proof (gf_rec c a Ha _ _ _ Hg H1) as G1.
destruct r1; try (injection Hrun as <- <- <-; by split).
set (c3 := match sop with Some jmp => pushOp jmp c2 | None => c2 end) in *.
assert (G3 : grows Done c c3).
{ subst c3. destruct sop as [jmp|]; [|done].
  destruct Hsop as (w & p & n & -> & Hu).
  apply grows_push; [done | done | push_side]. }
pose proof (grows_length _ _ _ G1) as Hlen.
destruct (rec b c3) as [r3 c4] eqn:H3.
pose proof (gf_rec c b Hb _ _ _ G3 H3) as G4.
destruct r3; injection Hrun as <- <- <-; (split; [|done]); try done.
by apply plainOp_push.
Qed.

Lemma gf_compileReslice (c : compileCtx) (node X : ast.Expr)
  (Low High : option ast.Expr) :
growing (rec X) ->
(forall h, High = Some h -> growing (rec h)) ->
(forall l, Low = Some l -> growing (rec l)) ->
growing_from c (compileReslice rec node X Low High).
Proof.
intros HX HH HL. unfold compileReslice.
apply gf_andThen; [by apply gf_rec|]. apply gf_andThen.
{ destruct High; [by apply gf_rec, HH | apply gf_ret]. }
apply gf_andThen.
{ destruct Low; [by apply gf_rec, HL | apply gf_push; plain]. }
apply gf_push; plain.
Qed.

Lemma gf_compileBuiltinCall_args (c : compileCtx) (args : list ast.Expr) :
Forall (fun a => growing (rec a)) args ->
growing_from c (compileBuiltinCall_args rec args).
Proof.
induction 1 as [|a args Ha Hargs IH]; cbn [compileBuiltinCall_args].
- apply gf_ret.
- apply gf_andThen; [by apply gf_rec | done].
Qed.

Lemma gf_compileBuiltinCall (c : compileCtx) (builtin : string)
  (args : list ast.Expr) :
Forall (fun a => growing (rec a)) args ->
growing_from c (compileBuiltinCall rec builtin args).
Proof.
intros Hargs. apply gf_andThen;
  [by apply gf_compileBuiltinCall_args | apply gf_push; plain].
Qed.

Lemma gf_compileTypeCast (c : compileCtx) (node Fun : ast.Expr)
  (Args : list ast.Expr) (ambiguousErr : option error) :
Forall (fun a => growing (rec a)) Args ->
growing_from c (compileTypeCast lib rec node Fun Args ambiguousErr).
Proof.
intros Hargs. unfold compileTypeCast.
destruct Hargs as [|arg0 rest Harg0 _]; [apply gf_panic|].
apply gf_andThen; [by apply gf_rec|].
intros c1 r c' Hg Hrun. cbv beta zeta in Hrun.
destruct (FindTypeExpr _ _) as [styp [err|]].
- run_cases Hrun; gf_leaf Hg Hrun.
- gf_leaf Hg Hrun.
Qed.

Lemma gf_compileFunctionCallOld_args (c : compileCtx) (Fun : ast.Expr) (id : Z)
  (args : list ast.Expr) :
Forall (fun a => growing (rec a)) args ->
forall i, growing_from c (compileFunctionCallOld_args rec Fun id i args).
Proof.
induction 1 as [|a args Ha Hargs IH]; intros i;
  cbn [compileFunctionCallOld_args].
- apply gf_ret.
- intros c1 r c' Hg Hrun.
  destruct (rec a c1) as [r1 c2] eqn:H1.
  pose proof (gf_rec c a Ha _ _ _ Hg H1) as G1.
  destruct r1;
    try (injection Hrun as <- <-;
         first [exact G1 | by apply (grows_tag _ _ _ _ G1)]).
  refine (IH _ _ _ _ _ Hrun). apply plainOp_push; [plain|].
  destruct (isStringLiteral a); [by apply grows_allocLiteralString | done].
Qed.

Lemma gf_callOld_tail (c : compileCtx) (hasFunc : bool) (jmpif : nat) (id : Z)
  (Fun : ast.Expr) (Args : list ast.Expr) :
growing (rec Fun) -> Forall (fun a => growing (rec a)) Args ->
(length (ops c) <= jmpif)%nat ->
growing_from c (rec Fun ;>
                lift (fun c => if hasFunc then patchJump jmpif c else c) ;>
                lift (pushOp (CallInjectionSetTarget id)) ;>
                compileFunctionCallOld_args rec Fun id 0 Args ;>
                lift (pushOp (CallInjectionComplete id false)))%compile.
Proof.
intros HFun HArgs Hjmp. apply gf_andThen; [by apply gf_rec|]. apply gf_andThen.
{ apply gf_lift. intros c1 Hg. destruct hasFunc; [by apply grows_patch | done]. }
apply gf_andThen; [apply gf_push; plain|].
apply gf_andThen; [by apply gf_compileFunctionCallOld_args|].
apply gf_push; plain.
Qed.

(** The legacy lowering compiles the function expression with calls
  forbidden, puts [allowCalls] back, and on an error puts the program
  back too. *)
Lemma gf_compileFunctionCallOld (c : compileCtx) (node Fun : ast.Expr)
  (Args : list ast.Expr) (id : Z) :
growing (rec Fun) -> Forall (fun a => growing (rec a)) Args ->
growing_from c (compileFunctionCallOld rec node Fun Args id).
Proof.
intros HFun HArgs c1 r c' Hg Hrun. unfold compileFunctionCallOld in Hrun.
destruct (rec Fun (set_allowCalls c1 false)) as [r1 c2] eqn:H1.
pose proof (HFun _ _ _ H1) as (He & Hf & _ & (k & Ho & Hp) & Ht).
cbn [elookup flags ops set_allowCalls] in He, Hf, Ho, Ht.
assert (Hdp1 : hasDebugPinner (set_allowCalls c1 false) = hasDebugPinner c1)
  by reflexivity.
(* the state after the first pass, for any result *)
assert (G2 : forall x, grows Panic c (set_allowCalls c2 x)).
{ intros x. apply (grows_trans Done _ c c1); [exact Hg | done|].
  split; [done|]. split; [done|]. split; [done|]. split; [|done].
  exists k. split; [done|]. by rewrite <- Hdp1. }
assert (G3 : forall r', grows r' c (set_allowCalls c2 (allowCalls c1))).
{ intros r'. destruct (G2 (allowCalls c1)) as (He3 & Hf3 & _ & Hc3 & Ht3).
  split; [done|]. split; [done|]. split; [|by split].
  intros _. destruct Hg as (_ & _ & Ha & _). by apply Ha. }
assert (G4 : forall r', grows r' c (set_ops (set_allowCalls c2 (allowCalls c1))
                                      (ops c1))).
{ intros r'. apply (grows_trans Done _ c c1); [exact Hg | done|].
  split; [done|]. split; [done|]. split; [done|]. split; [|done].
  exists []. split; [by rewrite app_nil_r | by constructor]. }
assert (Hlen1 : (length (ops c) <= length (ops c1))%nat)
  by (by apply grows_length in Hg).
destruct r1 as [|err|].
- cbv zeta iota beta in Hrun.
  refine (gf_callOld_tail c true _ id Fun Args HFun HArgs _ _ _ _ _ Hrun).
  + ctx_read. rewrite length_app. apply grows_length in Hg.
    pose proof (grows_length _ _ _ (G3 Done)) as Hl. cbn in Hl. lia.
  + apply plainOp_push; [plain|].
    apply grows_push; [| push_side | push_side].
    apply plainOp_push; [plain|]. apply G3.
- cbv zeta iota beta in Hrun. destruct (negb (is_ErrFuncCallNotAllowed err)).
  + injection Hrun as <- <-. apply G4.
  + refine (gf_callOld_tail c false _ id Fun Args HFun HArgs _ _ _ _ _ Hrun).
    * reflexivity.
    * do 2 (apply plainOp_push; [plain|]). apply G4.
- injection Hrun as <- <-. apply (G2 (allowCalls c2)).
Qed.

Lemma gf_compileFunctionCallNew_args (c : compileCtx) (Fun : ast.Expr)
  (args : list ast.Expr) :
Forall (fun a => growing (rec a)) args ->
forall i, growing_from c (compileFunctionCallNew_args rec Fun i args).
Proof.
induction 1 as [|a args Ha Hargs IH]; intros i;
  cbn [compileFunctionCallNew_args].
- apply gf_ret.
- intros c1 r c' Hg Hrun.
  destruct (rec a c1) as [r1 c2] eqn:H1.
  pose proof (gf_rec c a Ha _ _ _ Hg H1) as G1.
  assert (G2 : forall r', r1 <> Panic ->
            grows r' c (if isStringLiteral a
                        then compileAllocLiteralString c2 else c2)).
  { intros r' Hr1. apply (grows_tag r1); [|done].
    destruct (isStringLiteral a); [by apply grows_allocLiteralString | done]. }
  destruct r1.
  + exact (IH _ _ _ _ (G2 Done ltac:(done)) Hrun).
  + injection Hrun as <- <-. by apply G2.
  + injection Hrun as <- <-. exact G1.
Qed.

Lemma grows_compileFunctionCallNew_copy (r : outcome) (c : compileCtx) (id : Z)
  (revArgs : list ast.Expr) (c1 : compileCtx) :
grows r c c1 -> grows r c (compileFunctionCallNew_copy id revArgs c1).
Proof.
revert c1. induction revArgs as [|a l IH]; intros c1 Hg;
  cbn [compileFunctionCallNew_copy]; [done|].
apply IH. by apply plainOp_push; [plain|].
Qed.

Lemma gf_compileFunctionCallNew (c : compileCtx) (node Fun : ast.Expr)
  (Args : list ast.Expr) (id : Z) :
growing (rec Fun) -> Forall (fun a => growing (rec a)) Args ->
hasDebugPinner c = true ->
growing_from c (compileFunctionCallNew rec node Fun Args id).
Proof.
intros HFun HArgs Hdp. unfold compileFunctionCallNew.
apply gf_andThen; [apply gf_lift; intros c1; apply grows_getDebugPinner|].
apply gf_andThen; [by apply gf_rec|].
apply gf_andThen; [by apply gf_compileFunctionCallNew_args|].
do 4 (apply gf_andThen; [apply gf_push; plain|]).
apply gf_andThen;
  [apply gf_lift; intros c1; apply grows_compileFunctionCallNew_copy|].
apply gf_andThen.
{ apply gf_lift. intros c1 Hg. apply grows_push; [done | push_side | push_side]. }
apply gf_lift. intros c1 Hg. by apply grows_pinningLoop.
Qed.

Lemma gf_compileFunctionCall (c : compileCtx) (node Fun : ast.Expr)
  (Args : list ast.Expr) :
growing (rec Fun) -> Forall (fun a => growing (rec a)) Args ->
growing_from c (compileFunctionCall rec node Fun Args).
Proof.
intros HFun HArgs c1 r c' Hg Hrun. unfold compileFunctionCall in Hrun.
cbv zeta in Hrun.
destruct (match Fun with
          | ast.Ident Name =>
              if HasBuiltin (elookup c1) Name then Some Name else None
          | _ => None
          end) as [Name|].
{ exact (gf_compileBuiltinCall c Name Args HArgs _ _ _ Hg Hrun). }
destruct (negb (allowCalls c1)); [exact (gf_fail c _ _ _ _ Hg Hrun)|].
pose proof (grows_set_curCall _ _ _ (wrap_int (curCall c1 + 1)) Hg) as Hg'.
destruct (hasDebugPinner (set_curCall c1 _)) eqn:Hdp.
- refine (gf_compileFunctionCallNew c node Fun Args _ HFun HArgs _ _ _ _ Hg' Hrun).
  by rewrite <- (grows_hasDebugPinner _ _ _ Hg).
- exact (gf_compileFunctionCallOld c node Fun Args _ HFun HArgs _ _ _ Hg' Hrun).
Qed.

Lemma gf_compileTypeCastOrFuncCall (c : compileCtx) (node Fun : ast.Expr)
  (Args : list ast.Expr) :
growing (rec Fun) -> Forall (fun a => growing (rec a)) Args ->
growing_from c (compileTypeCastOrFuncCall lib rec node Fun Args).
Proof.
intros HFun HArgs c1 r c' Hg Hrun. unfold compileTypeCastOrFuncCall in Hrun.
pose proof (gf_compileFunctionCall c node Fun Args HFun HArgs) as HCall.
pose proof (fun e => gf_compileTypeCast c node Fun Args e HArgs) as HCast.
destruct (negb _); [exact (HCall _ _ _ Hg Hrun)|].
cbv zeta in Hrun.
repeat match type of Hrun with
       | compileFunctionCall _ _ _ _ c1 = _ => exact (HCall _ _ _ Hg Hrun)
       | compileTypeCast _ _ _ _ _ _ c1 = _ => exact (HCast _ _ _ _ Hg Hrun)
       | (_, ?x) = (_, _) => injection Hrun as <- <-
       | (if ?b then _ else _) = _ => destruct b
       | match ?x with _ => _ end = _ =>
           lazymatch x with
           | compileTypeCast _ _ _ _ _ _ _ =>
               let r1 := fresh "r" in let c2 := fresh "c" in
               let E := fresh "E" in
               destruct x as [r1 c2] eqn:E; apply (HCast _ _ _ _ Hg) in E
           | rec _ _ => destruct x as [? ?]
           | _ => destruct x
           end
       end;
  first [ by apply (grows_tag Done) | assumption
        | match goal with
          | E : grows (Fail _) c ?c2 |- _ =>
              exact (HCall _ _ _ (grows_tag _ Done _ _ E ltac:(done)) Hrun)
          end ].
Qed.

Lemma gf_compileCompositeLit_elts (c : compileCtx) (Field : list string)
  (elts : list ast.Expr) :
Forall (fun e => match e with
                 | ast.KeyValueExpr _ Value => growing (rec Value)
                 | _ => growing (rec e)
                 end) elts ->
forall i, growing_from c (compileCompositeLit_elts rec Field i elts).
Proof.
induction 1 as [|elt elts Helt Helts IH]; intros i;
  cbn [compileCompositeLit_elts].
- apply gf_ret.
- intros c1 r c' Hg Hrun.
  assert (Hgo : forall rhe field r1 c2,
             grows r1 c c2 -> r1 <> Panic ->
             compileCompositeLit_elts rec Field (S i) elts
               (pushOp (SetValue None rhe)
                  (pushOp (Select field) (pushOp Dup c2))) = (r, c') ->
             grows r c c').
  { intros rhe field r1 c2 G2 Hr1 Hnext.
    refine (IH _ _ _ _ _ Hnext).
    do 3 (apply plainOp_push; [plain|]). by apply (grows_tag r1). }
  destruct elt;
    match type of Hrun with
    | context [rec ?e c1] =>
        destruct (rec e c1) as [r1 c2] eqn:H1;
        pose proof (gf_rec c e Helt _ _ _ Hg H1) as G1
    end;
    cbv beta iota zeta in Hrun;
    repeat match type of Hrun with
           | (_, _) = (_, _) => injection Hrun as <- <-; by apply grows_Panic in G1
           | match ?x with _ => _ end = _ => destruct x
           end;
    by apply (Hgo _ _ _ _ G1 ltac:(done) Hrun).
Qed.

End GrowingMethods.

(** Every run of [compileAST] grows the context. *)
Lemma growing_compileAST (lib : golib) (t : ast.Expr) : growing (compileAST lib t).
Proof.
  cut (growing (compileAST lib t) /\
       Forall (fun x => growing (compileAST lib x)) (children t)); [tauto|].
  induction t as [t IH] using Expr_children_ind.
  assert (Hch : Forall (fun x => growing (compileAST lib x)) (children t)).
  { eapply Forall_impl; [exact IH|]. by intros x [Hx _]. }
  split; [|exact Hch].
  apply growing_from_base. intros c.
  destruct t as [ Name | Kind_ Value | X | X Sel | X Type_ | X Index_ | X Indices
                | X Low High Slice3 | X | Op_ X | X Op_ Y | Fun Args
                | Type_ Elts | Key Value | Elt | | | | Key Value | Value | | ];
    cbn [children] in Hch, IH; cbn [compileAST];
    try apply gf_fail.
  - (* Ident *) apply gf_compileIdent.
  - (* BasicLit *) apply gf_push; plain.
  - (* ParenExpr *) split_children. by apply gf_rec.
  - (* SelectorExpr *)
    split_children.
    pose proof (gf_compileUnary (compileAST lib) c X (Select Sel)
                  ltac:(assumption) ltac:(plain)) as HU.
    destruct X; try exact HU;
      intros c1 r c' Hg Hrun; cbv zeta in Hrun; run_cases Hrun;
      first [ gf_leaf Hg Hrun
            | exact (HU _ _ _ Hg Hrun)
            | exact (gf_panic c _ _ _ Hg Hrun)
            | injection Hrun as <- <-;
              do 2 (apply plainOp_push; [plain|]); exact Hg ].
  - (* TypeAssertExpr *)
    apply gf_compileTypeAssert. by split_children.
  - (* IndexExpr *)
    split_children. intros c1 r c' Hg Hrun.
    destruct (compileBinary _ _ _ _ _ _) as [[r1 c2] at_] eqn:E.
    cbn [fst] in Hrun. injection Hrun as <- <-.
    by eapply (gf_compileBinary (compileAST lib) c); [| | | | |exact E]; try plain.
  - (* SliceExpr *)
    destruct Slice3; [apply gf_fail|].
    apply gf_compileReslice.
    + by split_children.
    + intros h ->. by split_children.
    + intros l ->. by split_children.
  - (* StarExpr *)
    apply gf_compileUnary; [by split_children | plain].
  - (* UnaryExpr *)
    split_children. by destruct Op_; apply gf_compileUnary; try plain.
  - (* BinaryExpr *)
    split_children.
    assert (HB : forall sop,
              match sop with
              | Some jmp => exists When Pop_ Node,
                  jmp = Jump When 0 Pop_ Node /\ usesPinner jmp = false
              | None => True
              end ->
              forall c1 r c', grows Done c c1 ->
                match compileBinary (compileAST lib) X Y sop
                        (Binary (ast.BinaryExpr X Op_ Y)) c1 with
                | (Done, ctx1, at_) =>
                    match sop with
                    | Some _ => (Done, pushOp BoolToConst (patchJump at_ ctx1))
                    | None => (Done, ctx1)
                    end
                | (r, ctx1, _) => (r, ctx1)
                end = (r, c') ->
                grows r c c').
    { intros sop Hsop c1 r c' Hg Hrun.
      destruct (compileBinary _ _ _ _ _ _) as [[r1 c2] at_] eqn:E.
      apply (gf_compileBinary (compileAST lib) c X Y sop
               (Binary (ast.BinaryExpr X Op_ Y))
               ltac:(assumption) ltac:(assumption) Hsop ltac:(plain) _ _ _ _ Hg)
        in E as [E Hat].
      destruct r1; [|by injection Hrun as <- <-..].
      destruct sop; injection Hrun as <- <-; [|exact E].
      apply plainOp_push; [plain|]. apply grows_patch; [exact E | by apply Hat]. }
    destruct Op_; try apply gf_fail;
      intros c1 r c' Hg Hrun; cbv zeta in Hrun;
      first [ exact (HB None I _ _ _ Hg Hrun)
            | refine (HB (Some _) _ _ _ _ Hg Hrun); by eexists _, _, _ ].
  - (* CallExpr *)
    split_children. by apply gf_compileTypeCastOrFuncCall.
  - (* CompositeLit *)
    intros c1 r c' Hg Hrun.
    assert (Helts : Forall (fun e => match e with
                                     | ast.KeyValueExpr _ Value =>
                                         growing (compileAST lib Value)
                                     | _ => growing (compileAST lib e)
                                     end) Elts).
    { apply Forall_app in IH as [_ IH].
      eapply Forall_impl; [exact IH|]. intros e [He Hce].
      destruct e; try exact He. cbn [children] in Hce. by split_children. }
    repeat match type of Hrun with
           | fail _ _ = _ => exact (gf_fail c _ _ _ _ Hg Hrun)
           | (if ?b then _ else _) = _ => destruct b
           | match ?x with _ => _ end = _ => destruct x
           end.
    refine (gf_compileCompositeLit_elts _ c _ _ Helts _ _ _ _ _ Hrun).
    do 2 (apply plainOp_push; [plain|]).
    apply grows_specialCall; [done | push_side | by repeat constructor].
Qed.

(** X10. [compileAST] only appends: whatever it returns, the scope and the
    flags of the context are unchanged, the program it found is a prefix of
    the program it leaves (no instruction emitted earlier is changed or
    lost, also where a jump is patched or the program is put back after an
    error), and [allowCalls] has the value it had, unless the run ended in
    a panic. *)
Theorem compileAST_appends (lib : golib) (t : ast.Expr) (c c' : compileCtx)
    (r : outcome) :
  compileAST lib t c = (r, c') ->
  elookup c' = elookup c /\ flags c' = flags c /\
  (r <> Panic -> allowCalls c' = allowCalls c) /\
  exists code : list Op, ops c' = ops c ++ code.
Proof.
  intros Hrun.
  destruct (growing_compileAST lib t c r c' Hrun)
    as (He & Hf & Ha & (code & Ho & _) & _).
  do 3 (split; [done|]). by exists code.
Qed.

Lemma compileAST_appends_witness :
  let c := {| elookup := sample_lookup; ops := [PushNil]; allowCalls := false;
              curCall := 3; flags := 0; firstCall := true |} in
  let c' := snd (compileAST sample_lib expr_a_and_b c) in
  elookup c' = elookup c /\ flags c' = flags c /\
  (Done <> Panic -> allowCalls c' = allowCalls c) /\
  exists code : list Op, ops c' = ops c ++ code.
Proof.
  apply (compileAST_appends sample_lib expr_a_and_b). vm_compute. reflexivity.
Defined.

(** *** Jump targets and the pinner in the programs returned *)

Lemma depthCheck_loop_no_panic `{OpArity} (ops : list Op) :
  targets_in_range ops ->
  forall (rest : list Op) (i : nat) (depth : list Z) (seen : bool),
    ops = take i ops ++ rest ->
    length depth = S (length ops) ->
    fst (depthCheck_loop i rest depth seen) <> Panic.
Proof.
  intros Hin. induction rest as [|op rest IH]; intros i depth seen Hops Hlen;
    [done|].
  assert (Hilt : (i < length ops)%nat).
  { apply (f_equal length) in Hops.
    rewrite length_app, length_take in Hops. cbn [length] in Hops. lia. }
  assert (Hop : ops !! i = Some op).
  { rewrite Hops. rewrite lookup_app_r by (rewrite length_take; lia).
    rewrite length_take.
    by replace (i - i `min` length ops)%nat with 0%nat by lia. }
  assert (Htake : ops = take (S i) ops ++ rest).
  { rewrite (take_S_r _ _ _ Hop), <- app_assoc. exact Hops. }
  cbn [depthCheck_loop].
  destruct (Op_depthCheck op) as [npop npush].
  destruct (_ <? _); [done|].
  destruct (checkAndSet_in_range depth None (Z.of_nat i + 1)
              (wrap_int (depth !!! i - npop + npush)) ltac:(lia))
    as (depth1 & err1 & -> & Hlen1).
  unfold depthCheck_switch.
  destruct op;
    try (destruct err1; [done | apply IH; [exact Htake | lia]]).
  - (* Jump *)
    specialize (Hin i _ _ _ _ Hop).
    destruct (checkAndSet_in_range depth1 err1 Target
                (wrap_int (depth !!! i - npop + npush)) ltac:(lia))
      as (depth2 & err2 & -> & Hlen2).
    destruct err2; [done | apply IH; [exact Htake | lia]].
  - (* CallInjectionComplete *)
    destruct (DoPinning && negb seen); [done|].
    destruct err1; [done | apply IH; [exact Htake | lia]].
Qed.

Lemma depthCheck_no_panic `{OpArity} (ops : list Op) (endDepth : Z) :
  targets_in_range ops -> depthCheck ops endDepth <> Panic.
Proof.
  intros Hin. unfold depthCheck, depthCheck_run.
  pose proof (depthCheck_loop_no_panic ops Hin ops 0 (depthCheck_init ops) false
                eq_refl) as Hloop.
  destruct (depthCheck_loop 0 ops (depthCheck_init ops) false) as [[| |] depth];
    cbn [fst] in *.
  - by destruct (negb _).
  - done.
  - exfalso. apply Hloop; [|done]. unfold depthCheck_init.
    rewrite length_insert, length_replicate. lia.
Qed.

(** What [CompileAST] and [CompileSet] do to the context they start from. *)
Lemma grows_CompileAST (lib : golib) (t : ast.Expr) (c c1 : compileCtx) :
  compileAST lib t c = (Done, c1) -> grows Done c (compileDebugUnpin c1).
Proof. intros Hrun. apply grows_debugUnpin. by apply growing_compileAST in Hrun. Qed.

Lemma grows_CompileSet (lib : golib) (lhe rhe : ast.Expr) (c c1 c2 : compileCtx) :
  compileAST lib rhe c = (Done, c1) ->
  compileAST lib lhe
    (if isStringLiteral rhe then compileAllocLiteralString c1 else c1) = (Done, c2) ->
  grows Done c (pushOp (SetValue (Some lhe) rhe) c2).
Proof.
  intros H1 H2. apply plainOp_push; [plain|].
  apply growing_compileAST in H1.
  refine (growing_from_any _ c (growing_compileAST lib lhe) _ _ _ _ H2).
  destruct (isStringLiteral rhe); [by apply grows_allocLiteralString | done].
Qed.

Lemma targets_in_range_nil : targets_in_range [].
Proof. intros k w T p n Hk. discriminate Hk. Qed.

(** What holds of the empty program and of the programs that [CompileAST]
    and [CompileSet] assemble holds of every program that the three entry
    points return. *)
Lemma entry_programs `{OpArity} (lib : golib) (lk : evalLookup) (fl : Z)
    (P : list Op -> Prop) :
  let c0 := {| elookup := lk; ops := []; allowCalls := true;
               curCall := 0; flags := fl; firstCall := true |} in
  P [] ->
  (forall t c1, compileAST lib t c0 = (Done, c1) ->
                P (ops (compileDebugUnpin c1))) ->
  (forall lhe rhe c1 c2,
     compileAST lib rhe c0 = (Done, c1) ->
     compileAST lib lhe
       (if isStringLiteral rhe then compileAllocLiteralString c1 else c1)
       = (Done, c2) ->
     P (ops (pushOp (SetValue (Some lhe) rhe) c2))) ->
  forall (t : ast.Expr) (lhexpr rhexpr expr : string),
    P (fst (CompileAST lib lk t fl)) /\
    P (fst (CompileSet lib lk lhexpr rhexpr fl)) /\
    P (fst (Compile lib lk expr fl)).
Proof.
  intros c0 Hnil HAST HSet.
  assert (HA : forall t, P (fst (CompileAST lib lk t fl))).
  { intros t. unfold CompileAST.
    destruct (compileAST lib t _) as [[| |] c1] eqn:E; try exact Hnil.
    cbn [fst]. by apply (HAST t). }
  assert (HS : forall l r, P (fst (CompileSet lib lk l r fl))).
  { intros l r. unfold CompileSet.
    destruct (ParseExpr lib l) as [lhe|]; [|exact Hnil].
    destruct (ParseExpr lib r) as [rhe|]; [|exact Hnil].
    destruct (compileAST lib rhe _) as [[| |] c1] eqn:E1; try exact Hnil.
    destruct (compileAST lib lhe _) as [[| |] c2] eqn:E2; try exact Hnil.
    cbn [fst]. by apply (HSet lhe rhe c1). }
  intros t lhexpr rhexpr expr. split; [apply HA|]. split; [apply HS|].
  unfold Compile. destruct (ParseExpr lib expr) as [t'|err]; [apply HA|].
  destruct (negb _); [|exact Hnil].
  destruct (isAssignment err) as [eqOff []]; [|exact Hnil].
  destruct (_ || _); [exact Hnil | apply HS].
Qed.

(** The programs that the three entry points return have what every
    context grown from the initial one has. *)
Lemma returned_programs `{OpArity} (lib : golib) (lk : evalLookup) (fl : Z)
    (P : list Op -> Prop) :
  P [] ->
  (forall c', grows Done {| elookup := lk; ops := []; allowCalls := true;
                            curCall := 0; flags := fl; firstCall := true |} c' ->
              P (ops c')) ->
  forall (t : ast.Expr) (lhexpr rhexpr expr : string),
    P (fst (CompileAST lib lk t fl)) /\
    P (fst (CompileSet lib lk lhexpr rhexpr fl)) /\
    P (fst (Compile lib lk expr fl)).
Proof.
  intros Hnil Hgrown. apply entry_programs; [exact Hnil | |].
  - intros t c1 E. apply Hgrown. by apply (grows_CompileAST lib t).
  - intros lhe rhe c1 c2 E1 E2. apply Hgrown.
    by apply (grows_CompileSet lib lhe rhe _ c1).
Qed.

(** X11. In every program that [CompileAST], [CompileSet] or [Compile]
    returns, each jump targets an index between 0 and the length of the
    program, so that [depthCheck], which indexes its table by the targets,
    does not panic on it. *)
Theorem compiled_jumps_inside `{OpArity} (lib : golib) (lk : evalLookup)
    (fl : Z) (t : ast.Expr) (lhexpr rhexpr expr : string) :
  jumps_inside (fst (CompileAST lib lk t fl)) /\
  jumps_inside (fst (CompileSet lib lk lhexpr rhexpr fl)) /\
  jumps_inside (fst (Compile lib lk expr fl)).
Proof.
  assert (Hin : forall ops, targets_in_range ops -> jumps_inside ops).
  { intros ops Hops. split; [done|]. intros e. by apply depthCheck_no_panic. }
  apply returned_programs.
  - apply Hin, targets_in_range_nil.
  - intros c' (_ & _ & _ & _ & Ht). apply Hin, Ht, targets_in_range_nil.
Qed.

(** X12. Without the [HasDebugPinner] flag the programs that [CompileAST],
    [CompileSet] and [Compile] return hold no operation that works on the
    debug pinner: no special call to [runtime.debugPinner], [Pin] or
    [Unpin], no [PushDebugPinner], [SetDebugPinner] or [PushPinAddress], no
    completion with [DoPinning] and no pinning loop. *)
Theorem unflagged_no_pinner_ops `{OpArity} (lib : golib) (lk : evalLookup)
    (fl : Z) (t : ast.Expr) (lhexpr rhexpr expr : string) :
  Z.land fl HasDebugPinner = 0 ->
  noPinnerOps (fst (CompileAST lib lk t fl)) /\
  noPinnerOps (fst (CompileSet lib lk lhexpr rhexpr fl)) /\
  noPinnerOps (fst (Compile lib lk expr fl)).
Proof.
  intros Hfl. apply returned_programs; [by constructor|].
  intros c' (_ & _ & _ & (code & -> & Hp) & _). cbn [ops app]. apply Hp.
  unfold hasDebugPinner. cbn [flags]. by rewrite Hfl.
Qed.

Lemma unflagged_no_pinner_ops_witness :
  noPinnerOps (fst (CompileAST (H := spec_arity) sample_lib sample_lookup
                      expr_foo_a_b 0)) /\
  noPinnerOps (fst (CompileSet (H := spec_arity) sample_lib sample_lookup
                      "x" (quoted "hi") 0)) /\
  noPinnerOps (fst (Compile (H := spec_arity) sample_lib sample_lookup "a" 0)).
Proof.
  apply (unflagged_no_pinner_ops (H := spec_arity)). reflexivity.
Defined.
(** *** The lowering of a call with the pinner *)

Lemma compileGetDebugPinner_ops (c : compileCtx) :
  compileGetDebugPinner c =
    if firstCall c && hasDebugPinner c
    then set_firstCall
           (set_curCall (set_ops c (ops c ++ acquireOps (curCall c)))
              (wrap_int (curCall c + 1))) false
    else c.
Proof.
  unfold compileGetDebugPinner.
  destruct (firstCall c && hasDebugPinner c); [|done].
  unfold compileSpecialCall_nopin, compileSpecialCall_with.
  ctx_fields. by rewrite <- !app_assoc.
Qed.

(** The argument loop of [compileFunctionCallNew], when it ends without
    error, has compiled the arguments from left to right. *)
Lemma compileFunctionCallNew_args_compiled (lib : golib) (Fun : ast.Expr)
    (Args : list ast.Expr) :
  forall (i : nat) (c c' : compileCtx),
    compileFunctionCallNew_args (compileAST lib) Fun i Args c = (Done, c') ->
    exists codes : list (list Op), argumentsCompiled lib Args c codes c'.
Proof.
  induction Args as [|a Args IH]; intros i c c' Hrun;
    cbn [compileFunctionCallNew_args] in Hrun.
  - injection Hrun as <-. by exists [].
  - destruct (compileAST lib a c) as [[|e|] c1] eqn:E1; try discriminate Hrun.
    destruct (IH _ _ _ Hrun) as [codes Hcodes].
    destruct (growing_compileAST lib a c _ _ E1)
      as (_ & _ & _ & (ecode & Hecode & _) & _).
    destruct (compileAllocLiteralString_shape c1) as (scode & (Hscode & _) & _).
    exists ((ecode ++ (if isStringLiteral a then scode else [])) :: codes).
    cbn [argumentsCompiled].
    exists c1, ecode, (if isStringLiteral a then scode else []).
    split; [done|]. split; [done|]. cbv zeta.
    split; [|split; [|split]]; try done.
    + destruct (isStringLiteral a); [done | by rewrite app_nil_r].
    + by intros ->.
Qed.

Lemma argumentsCompiled_ops (lib : golib) (Args : list ast.Expr) :
  forall (codes : list (list Op)) (c c' : compileCtx),
    argumentsCompiled lib Args c codes c' ->
    ops c' = ops c ++ concat codes /\ length codes = length Args.
Proof.
  induction Args as [|a Args IH]; intros [|code codes] c c' Hc;
    cbn [argumentsCompiled] in Hc; try done.
  - subst c'. by rewrite app_nil_r.
  - destruct Hc as (c1 & ecode & scode & _ & He & Hs & _ & -> & Hrest).
    destruct (IH _ _ _ Hrest) as [Ho Hl].
    split; [|by cbn; rewrite Hl].
    rewrite Ho, Hs, He. cbn [concat]. by rewrite <- !app_assoc.
Qed.

(** C6. With [HasDebugPinner] set, a call [F(a_0, ..., a_(n-1))] whose
    head is not a builtin is lowered, when no part fails, to: the
    acquisition of the pinner (first call only), the code of [F], the code
    of the arguments from left to right (each compiled where the one
    before has left the context, a string literal followed by its
    allocation), and then [Roll n], [CallInjectionStart] with [HasFunc],
    [Pop], [CallInjectionSetTarget], the [n] argument copies from
    [ArgNum n-1] down to [ArgNum 0] (each with the argument at that
    position), [CallInjectionComplete] with [DoPinning], and the pinning
    loop. *)
Theorem function_call_lowering (lib : golib) (node Fun : ast.Expr)
    (Args : list ast.Expr) (ctx ctx' : compileCtx) :
  hasDebugPinner ctx = true ->
  (forall name, Fun = ast.Ident name -> HasBuiltin (elookup ctx) name = false) ->
  compileFunctionCall (compileAST lib) node Fun Args ctx = (Done, ctx') ->
  let id := curCall ctx in
  let acq := if firstCall ctx then acquireOps (wrap_int (id + 1)) else [] in
  let cP := compileGetDebugPinner (set_curCall ctx (wrap_int (id + 1))) in
  exists (cF cA : compileCtx) (fcode : list Op) (acodes : list (list Op)),
    ops cP = ops ctx ++ acq
    /\ compileAST lib Fun cP = (Done, cF)
    /\ ops cF = ops ctx ++ acq ++ fcode
    /\ compileFunctionCallNew_args (compileAST lib) Fun 0 Args cF = (Done, cA)
    /\ argumentsCompiled lib Args cF acodes cA
    /\ length acodes = length Args
    /\ ops cA = ops ctx ++ acq ++ fcode ++ concat acodes
    /\ ops ctx' =
         ops ctx ++ acq ++ fcode ++ concat acodes
         ++ [Roll (Z.of_nat (length Args)); CallInjectionStart true id node;
             Pop; CallInjectionSetTarget id]
         ++ copyArgsReversed id Args
         ++ [CallInjectionComplete id true]
         ++ pinningLoopOps (length (ops cA) + 5 + length Args)
              (curCall cA) id.
Proof.
  intros Hflag Hnb Hrun id acq cP.
  unfold compileFunctionCall in Hrun.
  assert (Hbuiltin :
            match Fun with
            | ast.Ident Name =>
                if HasBuiltin (elookup ctx) Name then Some Name else None
            | _ => None
            end = None).
  { destruct Fun; try reflexivity. by rewrite (Hnb _ eq_refl). }
  rewrite Hbuiltin in Hrun.
  destruct (negb (allowCalls ctx)); [discriminate|].
  replace (hasDebugPinner (set_curCall ctx (wrap_int (curCall ctx + 1))))
    with true in Hrun by (symmetry; exact Hflag).
  unfold compileFunctionCallNew in Hrun.
  fold id in Hrun.
  unfold andThen in Hrun at 1. unfold lift in Hrun at 1.
  unfold andThen in Hrun at 1. fold cP in Hrun.
  assert (HP : ops cP = ops ctx ++ acq).
  { subst cP acq. rewrite compileGetDebugPinner_ops.
    replace (hasDebugPinner (set_curCall ctx (wrap_int (id + 1))))
      with true by (symmetry; exact Hflag).
    rewrite andb_true_r. ctx_read.
    destruct (firstCall ctx); ctx_read; [done | by rewrite app_nil_r]. }
  destruct (compileAST lib Fun cP) as [[| |] cF] eqn:EF; try discriminate.
  unfold andThen in Hrun at 1.
  destruct (compileFunctionCallNew_args (compileAST lib) Fun 0 Args cF)
    as [[| |] cA] eqn:EA; try discriminate.
  destruct (growing_compileAST lib Fun cP _ _ EF)
    as (_ & _ & _ & (fcode & HF & _) & _).
  destruct (compileFunctionCallNew_args_compiled lib Fun Args _ _ _ EA)
    as [acodes Hargs].
  destruct (argumentsCompiled_ops lib Args _ _ _ Hargs) as [HA Hlen'].
  assert (HF' : ops cF = ops ctx ++ acq ++ fcode).
  { by rewrite HF, HP, <- app_assoc. }
  assert (HA' : ops cA = ops ctx ++ acq ++ fcode ++ concat acodes).
  { by rewrite HA, HF', <- !app_assoc. }
  exists cF, cA, fcode, acodes.
  do 7 (split; [done|]).
  unfold andThen, lift in Hrun. injection Hrun as <-.
  rewrite compilePinningLoop_ops. ctx_read.
  rewrite compileFunctionCallNew_copy_ops. ctx_read.
  assert (Hlen : length (copyArgsReversed id Args) = length Args).
  { unfold copyArgsReversed. by rewrite length_rev, length_imap. }
  rewrite !length_app, Hlen. cbn [length].
  replace (length (ops cA) + 1 + 1 + 1 + 1 + length Args + 1)%nat
    with (length (ops cA) + 5 + length Args)%nat by lia.
  rewrite HA'. rewrite <- !app_assoc. reflexivity.
Qed.

Lemma function_call_lowering_witness :
  let ctx0 := {| elookup := sample_lookup; ops := []; allowCalls := true;
                 curCall := 0; flags := HasDebugPinner; firstCall := true |} in
  let Args := [ast.Ident "a"; ast.BasicLit token.STRING (quoted "b")] in
  let ctx' := snd (compileFunctionCall (compileAST sample_lib) expr_foo_a_b
                     (ast.Ident "foo") Args ctx0) in
  let acq := acquireOps 1 in
  let cP := compileGetDebugPinner (set_curCall ctx0 1) in
  exists (cF cA : compileCtx) (fcode : list Op) (acodes : list (list Op)),
    ops cP = acq
    /\ compileAST sample_lib (ast.Ident "foo") cP = (Done, cF)
    /\ ops cF = acq ++ fcode
    /\ compileFunctionCallNew_args (compileAST sample_lib) (ast.Ident "foo") 0
         Args cF = (Done, cA)
    /\ argumentsCompiled sample_lib Args cF acodes cA
    /\ length acodes = 2%nat
    /\ ops cA = acq ++ fcode ++ concat acodes
    /\ ops ctx' =
         acq ++ fcode ++ concat acodes
         ++ [Roll 2; CallInjectionStart true 0 expr_foo_a_b;
             Pop; CallInjectionSetTarget 0]
         ++ copyArgsReversed 0 Args
         ++ [CallInjectionComplete 0 true]
         ++ pinningLoopOps (length (ops cA) + 5 + 2) (curCall cA) 0.
Proof.
  intros ctx0 Args ctx' acq cP.
  apply (function_call_lowering sample_lib expr_foo_a_b (ast.Ident "foo") Args ctx0).
  - reflexivity.
  - intros name [= <-]. reflexivity.
  - vm_compute. reflexivity.
Defined.

(** ** The legacy lowering of a function call *)

Lemma grows_code (r : outcome) (c c' : compileCtx) :
  grows r c c' -> exists code, ops c' = ops c ++ code.
Proof. intros (_ & _ & _ & (code & Ho & _) & _). by exists code. Qed.




(** ** The program of an assignment *)

(** X16. A program that [CompileSet] returns (with or without an error of
    the depth check) is, in this order: the code of the right-hand side,
    for a string literal its allocation sequence, the code of the left-hand
    side, and [SetValue]; both sides parsed and compiled without error, and
    the error returned is that of the depth check for depth 0. *)
Theorem CompileSet_shape `{OpArity} (lib : golib) (lk : evalLookup)
    (lhexpr rhexpr : string) (fl : Z) (code : list Op) (out : outcome) :
  CompileSet lib lk lhexpr rhexpr fl = (code, out) ->
  code <> [] ->
  exists (lhe rhe : ast.Expr) (rcode acode lcode : list Op) (c1 c2 : compileCtx),
    ParseExpr lib lhexpr = inl lhe /\ ParseExpr lib rhexpr = inl rhe /\
    compileAST lib rhe {| elookup := lk; ops := []; allowCalls := true;
                          curCall := 0; flags := fl; firstCall := true |}
    = (Done, c1) /\
    ops c1 = rcode /\
    (let c1' := if isStringLiteral rhe then compileAllocLiteralString c1 else c1 in
     ops c1' = rcode ++ acode /\
     (isStringLiteral rhe = false -> acode = []) /\
     compileAST lib lhe c1' = (Done, c2)) /\
    ops c2 = rcode ++ acode ++ lcode /\
    code = rcode ++ acode ++ lcode ++ [SetValue (Some lhe) rhe] /\
    out = depthCheck code 0.
Proof.
  unfold CompileSet. intros Hrun Hne.
  destruct (ParseExpr lib lhexpr) as [lhe|]; [|by injection Hrun as <- _].
  destruct (ParseExpr lib rhexpr) as [rhe|]; [|by injection Hrun as <- _].
  destruct (compileAST lib rhe _) as [[| |] c1] eqn:E1;
    try (by injection Hrun as <- _).
  set (c1' := if isStringLiteral rhe then compileAllocLiteralString c1 else c1)
    in *.
  destruct (compileAST lib lhe c1') as [[| |] c2] eqn:E2;
    try (by injection Hrun as <- _).
  injection Hrun as <- <-.
  assert (Ha : exists acode, ops c1' = ops c1 ++ acode /\
                             (isStringLiteral rhe = false -> acode = [])).
  { subst c1'. destruct (isStringLiteral rhe).
    - destruct (grows_code _ _ _ (grows_allocLiteralString Done c1 c1
                                    (grows_refl _ _))) as [acode Hac].
      by exists acode.
    - exists []. by rewrite app_nil_r. }
  destruct Ha as (acode & Hac & Hnil).
  destruct (grows_code _ _ _ (growing_compileAST lib lhe _ _ _ E2)) as [lcode Hl].
  exists lhe, rhe, (ops c1), acode, lcode, c1, c2.
  do 4 (split; [done|]). split; [done|].
  split; [by rewrite Hl, Hac, <- app_assoc|].
  split; [|done]. ctx_read. by rewrite Hl, Hac, <- !app_assoc.
Qed.

Lemma CompileSet_shape_witness :
  let r := CompileSet (H := spec_arity) sample_lib sample_lookup "x" (quoted "hi") 0 in
  exists (lhe rhe : ast.Expr) (rcode acode lcode : list Op) (c1 c2 : compileCtx),
    ParseExpr sample_lib "x" = inl lhe /\
    ParseExpr sample_lib (quoted "hi") = inl rhe /\
    compileAST sample_lib rhe
      {| elookup := sample_lookup; ops := []; allowCalls := true;
         curCall := 0; flags := 0; firstCall := true |}
    = (Done, c1) /\
    ops c1 = rcode /\
    (let c1' := if isStringLiteral rhe then compileAllocLiteralString c1 else c1 in
     ops c1' = rcode ++ acode /\
     (isStringLiteral rhe = false -> acode = []) /\
     compileAST sample_lib lhe c1' = (Done, c2)) /\
    ops c2 = rcode ++ acode ++ lcode /\
    fst r = rcode ++ acode ++ lcode ++ [SetValue (Some lhe) rhe] /\
    snd r = depthCheck (H := spec_arity) (fst r) 0.
Proof.
  apply (CompileSet_shape (H := spec_arity) sample_lib sample_lookup "x"
           (quoted "hi") 0).
  - vm_compute. reflexivity.
  - vm_compute. discriminate.
Defined.
(** *** The order of pinner calls along [compileAST] *)

Lemma pinning_ordered_app (ops code : list Op) :
  pinning_ordered ops -> Forall (fun op => isPinningComplete op = false) code ->
  pinning_ordered (ops ++ code).
Proof.
  intros Ho Hc n id Hn.
  destruct (decide (n < length ops)%nat) as [Hlt|Hge].
  - rewrite lookup_app_l in Hn by done.
    destruct (Ho n id Hn) as (j & op & Hj & Hop & Hs).
    exists j, op. split; [done|]. split; [|done].
    rewrite lookup_app_l; [done | by apply lookup_lt_Some in Hop].
  - rewrite lookup_app_r in Hn by lia.
    by apply (Forall_lookup_1 _ _ _ _ Hc) in Hn.
Qed.

Lemma existsb_lookup (f : Op -> bool) (l : list Op) :
  existsb f l = true -> exists (j : nat) (op : Op), l !! j = Some op /\ f op = true.
Proof.
  intros Hex. apply existsb_exists in Hex as (op & Hin & Hf).
  apply list_elem_of_In, list_elem_of_lookup in Hin as [j Hj].
  by exists j, op.
Qed.

Lemma pinning_ordered_push (ops : list Op) (op : Op) :
  pinning_ordered ops -> existsb isStartSpecial ops = true ->
  pinning_ordered (ops ++ [op]).
Proof.
  intros Ho Hs n id Hn.
  destruct (decide (n < length ops)%nat) as [Hlt|Hge].
  - rewrite lookup_app_l in Hn by done.
    destruct (Ho n id Hn) as (j & op' & Hj & Hop & Hs').
    exists j, op'. split; [done|]. split; [|done].
    rewrite lookup_app_l; [done | by apply lookup_lt_Some in Hop].
  - destruct (existsb_lookup _ _ Hs) as (j & op' & Hj & Hop).
    pose proof (lookup_lt_Some _ _ _ Hj) as Hlt.
    exists j, op'. split; [lia|]. split; [|done].
    by rewrite lookup_app_l.
Qed.

Lemma setTarget_lookup_keep (at_ : nat) (t : Z) (l : list Op) (k : nat) (op : Op) :
  (forall w t' p n, op <> Jump w t' p n) ->
  setTarget at_ t l !! k = Some op <-> l !! k = Some op.
Proof.
  intros Hnj. unfold setTarget.
  destruct (l !! at_) as [o|] eqn:Hl; [|done].
  destruct o; try done.
  destruct (decide (k = at_)) as [->|Hne].
  - rewrite list_lookup_insert_eq by (by apply lookup_lt_Some in Hl).
    rewrite Hl. split; intros [= <-]; by edestruct Hnj.
  - by rewrite list_lookup_insert_ne.
Qed.

Lemma pinning_ordered_setTarget (at_ : nat) (t : Z) (l : list Op) :
  pinning_ordered l -> pinning_ordered (setTarget at_ t l).
Proof.
  intros Ho n id Hn. apply setTarget_lookup_keep in Hn; [|done].
  destruct (Ho n id Hn) as (j & op & Hj & Hop & Hs).
  exists j, op. split; [done|]. split; [|done].
  apply setTarget_lookup_keep; [|done]. intros w t' p n' ->. discriminate Hs.
Qed.

Lemma ofollows_refl (c : compileCtx) : ofollows c c.
Proof. split; [done|]. by split. Qed.

Lemma ofollows_trans (c1 c2 c3 : compileCtx) :
  ofollows c1 c2 -> ofollows c2 c3 -> ofollows c1 c3.
Proof.
  intros (Hf1 & Hc1 & Hi1) (Hf2 & Hc2 & Hi2).
  split; [congruence|]. split; auto.
Qed.

(** A context that differs in its program by operations that complete no
    call with pinning, and not in [firstCall], follows. *)
Lemma ofollows_code (c c' : compileCtx) (code : list Op) :
  ops c' = ops c ++ code -> flags c' = flags c -> firstCall c' = firstCall c ->
  Forall (fun op => isPinningComplete op = false) code ->
  ofollows c c'.
Proof.
  intros Hops Hfl Hfc Hcode. split; [done|]. split; [congruence|].
  intros (Ho & Hs & Hf). unfold ordered_inv.
  rewrite Hops, Hfc, (hasDebugPinner_flags _ _ Hfl).
  split; [by apply pinning_ordered_app|]. split; [|done].
  intros E. by rewrite existsb_app, (Hs E).
Qed.

Lemma ofollows_pushOp (op : Op) (c : compileCtx) :
  isPinningComplete op = false -> ofollows c (pushOp op c).
Proof.
  intros Hop. apply (ofollows_code c _ [op]); try reflexivity.
  by constructor.
Qed.

(** A completion with pinning may be appended once the pinner was
    acquired. *)
Lemma ofollows_push_pinning (id : Z) (b : bool) (c : compileCtx) :
  firstCall c = false -> ofollows c (pushOp (CallInjectionComplete id b) c).
Proof.
  intros Hfc. split; [done|]. split; [done|].
  intros (Ho & Hs & Hf). unfold ordered_inv. ctx_read.
  split; [by apply pinning_ordered_push; auto|]. split; [|done].
  intros _. by rewrite existsb_app, (Hs Hfc).
Qed.

Lemma ofollows_patchJump (at_ : nat) (c : compileCtx) : ofollows c (patchJump at_ c).
Proof.
  split; [done|]. split; [done|]. intros (Ho & Hs & Hf).
  unfold ordered_inv, patchJump. ctx_read.
  split; [by apply pinning_ordered_setTarget|]. split; [|done].
  intros E. rewrite existsb_setTarget by done. by apply Hs.
Qed.

Lemma ofollows_set_curCall (c : compileCtx) (n : Z) : ofollows c (set_curCall c n).
Proof. split; [done|]. by split. Qed.

Lemma ofollows_set_allowCalls (c : compileCtx) (b : bool) :
  ofollows c (set_allowCalls c b).
Proof. split; [done|]. by split. Qed.

Lemma ofollows_args (id : Z) (args : list (option Op)) :
  unpinnedArgs args ->
  forall (i : nat) (c : compileCtx), ofollows c (compileSpecialCall_args id i args c).
Proof.
  induction 1 as [|a args Ha Hargs IH]; intros i c; cbn [compileSpecialCall_args].
  - apply ofollows_refl.
  - eapply ofollows_trans; [|apply IH].
    eapply ofollows_trans; [|by apply ofollows_pushOp].
    destruct a; [by apply ofollows_pushOp | apply ofollows_refl].
Qed.

Lemma ofollows_nopin (fnname : string) (argAst : list (option ast.Expr))
    (args : list (option Op)) (c : compileCtx) :
  unpinnedArgs args ->
  ofollows c (compileSpecialCall_nopin fnname argAst args c).
Proof.
  intros Hargs. unfold compileSpecialCall_nopin, compileSpecialCall_with.
  cbn [andb].
  eapply ofollows_trans; [|by apply ofollows_pushOp].
  eapply ofollows_trans; [|by apply ofollows_args].
  eapply ofollows_trans; [|by apply ofollows_pushOp].
  eapply ofollows_trans; [|by apply ofollows_pushOp].
  apply ofollows_set_curCall.
Qed.

Lemma ofollows_pinningLoop (id : Z) (c : compileCtx) :
  ofollows c (compilePinningLoop id c).
Proof.
  unfold compilePinningLoop.
  eapply ofollows_trans; [|by apply ofollows_pushOp].
  eapply ofollows_trans; [|apply ofollows_patchJump].
  eapply ofollows_trans; [|by apply ofollows_pushOp].
  eapply ofollows_trans; [|by apply ofollows_pushOp].
  eapply ofollows_trans; [|apply ofollows_nopin; by repeat constructor].
  eapply ofollows_trans; [|by apply ofollows_pushOp].
  by apply ofollows_pushOp.
Qed.

(** The acquisition unsets [firstCall] and leaves a special call in the
    program. *)
Lemma ofollows_getDebugPinner (c : compileCtx) :
  ofollows c (compileGetDebugPinner c).
Proof.
  unfold compileGetDebugPinner.
  destruct (firstCall c) eqn:Hfc, (hasDebugPinner c) eqn:Hdp; cbn [andb];
    try apply ofollows_refl.
  split; [reflexivity|]. split; [done|]. intros (Ho & Hs & Hf).
  unfold ordered_inv, compileSpecialCall_nopin, compileSpecialCall_with.
  ctx_read. split; [|split].
  - rewrite <- !app_assoc. apply pinning_ordered_app; [done|].
    by repeat constructor.
  - intros _. rewrite !existsb_app. cbn. by rewrite !orb_true_r.
  - intros _. exact Hdp.
Qed.

Lemma compileGetDebugPinner_called (c : compileCtx) :
  hasDebugPinner c = true -> firstCall (compileGetDebugPinner c) = false.
Proof.
  intros Hdp. unfold compileGetDebugPinner. rewrite Hdp, andb_true_r.
  by destruct (firstCall c) eqn:Hfc.
Qed.

Lemma ofollows_specialCall (fnname : string) (argAst : list (option ast.Expr))
    (args : list (option Op)) (doPinning : bool) (c : compileCtx) :
  unpinnedArgs args ->
  ofollows c (compileSpecialCall fnname argAst args doPinning c).
Proof.
  intros Hargs. unfold compileSpecialCall, compileSpecialCall_with.
  set (c1 := if doPinning then compileGetDebugPinner c else c).
  assert (H1 : ofollows c c1).
  { subst c1. destruct doPinning; [apply ofollows_getDebugPinner | apply ofollows_refl]. }
  set (c3 := compileSpecialCall_args _ _ _ _).
  assert (H13 : ofollows c1 c3).
  { subst c3.
    eapply ofollows_trans; [|by apply ofollows_args].
    eapply ofollows_trans; [|by apply ofollows_pushOp].
    eapply ofollows_trans; [|by apply ofollows_pushOp].
    apply ofollows_set_curCall. }
  pose proof (ofollows_trans _ _ _ H1 H13) as H3.
  destruct (doPinning && hasDebugPinner c3) eqn:E.
  - apply andb_prop in E as [-> Hdp3].
    assert (Hfc3 : firstCall c3 = false).
    { apply H13. subst c1. apply compileGetDebugPinner_called.
      rewrite <- Hdp3. symmetry. apply hasDebugPinner_flags, H3. }
    eapply ofollows_trans; [|apply ofollows_pinningLoop].
    eapply ofollows_trans; [exact H3 | by apply ofollows_push_pinning].
  - eapply ofollows_trans; [exact H3 | by apply ofollows_pushOp].
Qed.

Lemma ofollows_allocLiteralString (c : compileCtx) :
  ofollows c (compileAllocLiteralString c).
Proof.
  unfold compileAllocLiteralString.
  eapply ofollows_trans; [|apply ofollows_patchJump].
  eapply ofollows_trans; [|by apply ofollows_pushOp].
  eapply ofollows_trans;
    [|apply ofollows_specialCall; by repeat constructor].
  by apply ofollows_pushOp.
Qed.

Lemma ofollows_debugUnpin (c : compileCtx) : ofollows c (compileDebugUnpin c).
Proof.
  unfold compileDebugUnpin.
  destruct (negb (firstCall c) && hasDebugPinner c); [|apply ofollows_refl].
  eapply ofollows_trans; [|by apply ofollows_pushOp].
  eapply ofollows_trans; [|by apply ofollows_pushOp].
  eapply ofollows_trans; [|by apply ofollows_pushOp].
  apply ofollows_specialCall. by repeat constructor.
Qed.

(** *** The methods keep the invariant *)

Lemma okeeps_ret : okeeps ret.
Proof. intros c r c' [= <- <-]. apply ofollows_refl. Qed.

Lemma okeeps_fail (e : error) : okeeps (fail e).
Proof. intros c r c' [= <- <-]. apply ofollows_refl. Qed.

Lemma okeeps_panic : okeeps panic.
Proof. intros c r c' [= <- <-]. apply ofollows_refl. Qed.

Lemma okeeps_lift (f : compileCtx -> compileCtx) :
  (forall c, ofollows c (f c)) -> okeeps (lift f).
Proof. intros Hf c r c' [= <- <-]. apply Hf. Qed.

Lemma okeeps_push (op : Op) : isPinningComplete op = false -> okeeps (lift (pushOp op)).
Proof. intros Hop. apply okeeps_lift. intros c. by apply ofollows_pushOp. Qed.

Lemma okeeps_andThen (m k : M) : okeeps m -> okeeps k -> okeeps (andThen m k).
Proof.
  intros Hm Hk c r c' Hrun. unfold andThen in Hrun.
  destruct (m c) as [r1 c1] eqn:Hm1. pose proof (Hm _ _ _ Hm1) as H1.
  destruct r1; try (injection Hrun as <- <-; exact H1).
  eapply ofollows_trans; [exact H1 | exact (Hk _ _ _ Hrun)].
Qed.

Lemma orun_push (op : Op) (c : compileCtx) (r : outcome) (c' : compileCtx) :
  lift (pushOp op) c = (r, c') -> isPinningComplete op = false -> ofollows c c'.
Proof. intros Hrun Hop. exact (okeeps_push op Hop c r c' Hrun). Qed.

Lemma orun_fail (e : error) (c : compileCtx) (r : outcome) (c' : compileCtx) :
  fail e c = (r, c') -> ofollows c c'.
Proof. apply okeeps_fail. Qed.

Ltac orun_leaf H :=
  first [ by eapply orun_push; [exact H | reflexivity]
        | by eapply orun_fail; exact H ].

Lemma okeeps_compileIdent (name : string) : okeeps (compileIdent name).
Proof.
  intros c r c' Hrun. unfold compileIdent in Hrun.
  run_cases Hrun; orun_leaf Hrun.
Qed.

Section OrderedMethods.
Variable lib : golib.
Variable rec : ast.Expr -> M.

Lemma okeeps_compileUnary (expr : ast.Expr) (op : Op) :
okeeps (rec expr) -> isPinningComplete op = false -> okeeps (compileUnary rec expr op).
Proof. intros Hrec Hop. apply okeeps_andThen; [done | by apply okeeps_push]. Qed.

Lemma okeeps_compileTypeAssert (node X : ast.Expr) (Type_ : option ast.Expr) :
okeeps (rec X) -> okeeps (compileTypeAssert rec node X Type_).
Proof.
intros Hrec. apply okeeps_andThen; [done|].
intros c r c' Hrun. cbv beta zeta in Hrun.
destruct (negb _).
- destruct (FindTypeExpr _ _) as [typ [err|]]; orun_leaf Hrun.
- orun_leaf Hrun.
Qed.

Lemma okeeps_compileBinary (a b : ast.Expr) (sop : option Op) (op : Op) :
okeeps (rec a) -> okeeps (rec b) ->
match sop with Some jmp => isPinningComplete jmp = false | None => True end ->
isPinningComplete op = false ->
forall c r c' at_,
  compileBinary rec a b sop op c = (r, c', at_) -> ofollows c c'.
Proof.
intros Ha Hb Hsop Hop c r c' at_ Hrun. unfold compileBinary in Hrun.
destruct (rec a c) as [r1 c1] eqn:H1. pose proof (Ha _ _ _ H1) as F1.
destruct r1; try (injection Hrun as <- <- <-; exact F1).
set (c2 := match sop with Some jmp => pushOp jmp c1 | None => c1 end) in *.
assert (F2 : ofollows c c2).
{ eapply ofollows_trans; [exact F1|]. subst c2.
  destruct sop; [by apply ofollows_pushOp | apply ofollows_refl]. }
destruct (rec b c2) as [r3 c3] eqn:H3. pose proof (Hb _ _ _ H3) as F3.
destruct r3; injection Hrun as <- <- <-;
  try (eapply ofollows_trans; [exact F2 | exact F3]).
eapply ofollows_trans; [exact F2|].
eapply ofollows_trans; [exact F3 | by apply ofollows_pushOp].
Qed.

Lemma okeeps_compileReslice (node X : ast.Expr) (Low High : option ast.Expr) :
okeeps (rec X) ->
(forall h, High = Some h -> okeeps (rec h)) ->
(forall l, Low = Some l -> okeeps (rec l)) ->
okeeps (compileReslice rec node X Low High).
Proof.
intros HX HH HL. unfold compileReslice.
apply okeeps_andThen; [done|]. apply okeeps_andThen.
{ destruct High; [by apply HH | apply okeeps_ret]. }
apply okeeps_andThen.
{ destruct Low; [by apply HL | by apply okeeps_push]. }
by apply okeeps_push.
Qed.

Lemma okeeps_compileBuiltinCall_args (args : list ast.Expr) :
Forall (fun a => okeeps (rec a)) args -> okeeps (compileBuiltinCall_args rec args).
Proof.
induction 1 as [|a args Ha Hargs IH]; cbn [compileBuiltinCall_args].
- apply okeeps_ret.
- by apply okeeps_andThen.
Qed.

Lemma okeeps_compileBuiltinCall (builtin : string) (args : list ast.Expr) :
Forall (fun a => okeeps (rec a)) args -> okeeps (compileBuiltinCall rec builtin args).
Proof.
intros Hargs. apply okeeps_andThen;
  [by apply okeeps_compileBuiltinCall_args | by apply okeeps_push].
Qed.

Lemma okeeps_compileTypeCast (node Fun : ast.Expr) (Args : list ast.Expr)
  (ambiguousErr : option error) :
Forall (fun a => okeeps (rec a)) Args ->
okeeps (compileTypeCast lib rec node Fun Args ambiguousErr).
Proof.
intros Hargs. unfold compileTypeCast.
destruct Hargs as [|arg0 rest Harg0 _]; [apply okeeps_panic|].
apply okeeps_andThen; [done|].
intros c r c' Hrun. cbv beta zeta in Hrun.
destruct (FindTypeExpr _ _) as [styp [err|]].
- run_cases Hrun; orun_leaf Hrun.
- orun_leaf Hrun.
Qed.
Lemma okeeps_compileFunctionCallOld_args (Fun : ast.Expr) (id : Z)
  (args : list ast.Expr) :
Forall (fun a => okeeps (rec a)) args ->
forall i, okeeps (compileFunctionCallOld_args rec Fun id i args).
Proof.
induction 1 as [|a args Ha Hargs IH]; intros i; cbn [compileFunctionCallOld_args].
- apply okeeps_ret.
- intros c r c' Hrun.
  destruct (rec a c) as [r1 c1] eqn:H1. pose proof (Ha _ _ _ H1) as F1.
  destruct r1; try (injection Hrun as <- <-; exact F1).
  eapply ofollows_trans; [exact F1|].
  eapply ofollows_trans; [|exact (IH _ _ _ _ Hrun)].
  eapply ofollows_trans; [|by apply ofollows_pushOp].
  destruct (isStringLiteral a);
    [apply ofollows_allocLiteralString | apply ofollows_refl].
Qed.

(** Without the [HasDebugPinner] flag [firstCall] stays set, so that
  putting back an earlier program, as [compileFunctionCallOld] does,
  keeps the invariant. *)
Lemma ofollows_restore (c c1 : compileCtx) :
hasDebugPinner c = false -> ofollows c c1 -> ofollows c (set_ops c1 (ops c)).
Proof.
intros Hdp (Hfl & Hfc & Hinv). split; [exact Hfl|]. split; [exact Hfc|].
intros Hc. destruct (Hinv Hc) as (Ho1 & Hs1 & Hf1).
destruct Hc as (Ho & Hs & Hf).
rewrite (hasDebugPinner_flags _ _ Hfl), Hdp in Hf1.
assert (E1 : firstCall c1 = true) by (destruct (firstCall c1); auto).
unfold ordered_inv, hasDebugPinner. ctx_read.
rewrite E1. by split.
Qed.

Lemma okeeps_callOld_tail (hasFunc : bool) (jmpif : nat) (id : Z) (Fun : ast.Expr)
  (Args : list ast.Expr) :
okeeps (rec Fun) -> Forall (fun a => okeeps (rec a)) Args ->
okeeps (rec Fun ;>
       lift (fun c => if hasFunc then patchJump jmpif c else c) ;>
       lift (pushOp (CallInjectionSetTarget id)) ;>
       compileFunctionCallOld_args rec Fun id 0 Args ;>
       lift (pushOp (CallInjectionComplete id false)))%compile.
Proof.
intros HFun HArgs. apply okeeps_andThen; [done|]. apply okeeps_andThen.
{ apply okeeps_lift. intros c.
  destruct hasFunc; [apply ofollows_patchJump | apply ofollows_refl]. }
apply okeeps_andThen; [by apply okeeps_push|].
apply okeeps_andThen; [by apply okeeps_compileFunctionCallOld_args|].
by apply okeeps_push.
Qed.

Lemma okeeps_compileFunctionCallOld (node Fun : ast.Expr) (Args : list ast.Expr)
  (id : Z) :
okeeps (rec Fun) -> Forall (fun a => okeeps (rec a)) Args ->
forall c r c', hasDebugPinner c = false ->
  compileFunctionCallOld rec node Fun Args id c = (r, c') -> ofollows c c'.
Proof.
intros HFun HArgs c r c' Hdp Hrun. unfold compileFunctionCallOld in Hrun.
destruct (rec Fun (set_allowCalls c false)) as [r1 c1] eqn:H1.
assert (F1 : ofollows c c1).
{ eapply ofollows_trans; [apply (ofollows_set_allowCalls c false)|].
  exact (HFun _ _ _ H1). }
assert (F2 : ofollows c (set_allowCalls c1 (allowCalls c))).
{ eapply ofollows_trans; [exact F1 | apply ofollows_set_allowCalls]. }
assert (F3 : ofollows c (set_ops (set_allowCalls c1 (allowCalls c)) (ops c))).
{ by apply ofollows_restore. }
destruct r1 as [|err|].
- cbv zeta iota beta in Hrun.
  eapply ofollows_trans;
    [|exact (okeeps_callOld_tail true _ id Fun Args HFun HArgs _ _ _ Hrun)].
  eapply ofollows_trans; [exact F2|].
  eapply ofollows_trans; [|by apply ofollows_pushOp].
  eapply ofollows_trans; [|by apply ofollows_pushOp].
  by apply ofollows_pushOp.
- cbv zeta iota beta in Hrun. destruct (negb (is_ErrFuncCallNotAllowed err)).
  + injection Hrun as <- <-. exact F3.
  + eapply ofollows_trans;
      [|exact (okeeps_callOld_tail false 0%nat id Fun Args HFun HArgs _ _ _ Hrun)].
    eapply ofollows_trans; [exact F3|].
    eapply ofollows_trans; [|by apply ofollows_pushOp].
    by apply ofollows_pushOp.
- injection Hrun as <- <-. exact F1.
Qed.

Lemma okeeps_compileFunctionCallNew_args (Fun : ast.Expr) (args : list ast.Expr) :
Forall (fun a => okeeps (rec a)) args ->
forall i, okeeps (compileFunctionCallNew_args rec Fun i args).
Proof.
induction 1 as [|a args Ha Hargs IH]; intros i; cbn [compileFunctionCallNew_args].
- apply okeeps_ret.
- intros c r c' Hrun.
  destruct (rec a c) as [r1 c1] eqn:H1. pose proof (Ha _ _ _ H1) as F1.
  assert (F2 : ofollows c (if isStringLiteral a
                          then compileAllocLiteralString c1 else c1)).
  { eapply ofollows_trans; [exact F1|].
    destruct (isStringLiteral a);
      [apply ofollows_allocLiteralString | apply ofollows_refl]. }
  destruct r1.
  + eapply ofollows_trans; [exact F2 | exact (IH _ _ _ _ Hrun)].
  + injection Hrun as <- <-. exact F2.
  + injection Hrun as <- <-. exact F1.
Qed.

Lemma ofollows_compileFunctionCallNew_copy (id : Z) (revArgs : list ast.Expr)
  (c : compileCtx) :
ofollows c (compileFunctionCallNew_copy id revArgs c).
Proof.
revert c. induction revArgs as [|a l IH]; intros c;
  cbn [compileFunctionCallNew_copy].
- apply ofollows_refl.
- eapply ofollows_trans; [|apply IH]. by apply ofollows_pushOp.
Qed.

Lemma okeeps_called_of (m : M) : okeeps m -> okeeps_called m.
Proof. intros Hm c r c' _ Hrun. exact (Hm _ _ _ Hrun). Qed.

Lemma okeeps_called_andThen (m k : M) :
okeeps_called m -> okeeps_called k -> okeeps_called (andThen m k).
Proof.
intros Hm Hk c r c' Hfc Hrun. unfold andThen in Hrun.
destruct (m c) as [r1 c1] eqn:Hm1. pose proof (Hm _ _ _ Hfc Hm1) as H1.
destruct r1; try (injection Hrun as <- <-; exact H1).
eapply ofollows_trans; [exact H1|].
apply (Hk _ _ _ (proj1 (proj2 H1) Hfc) Hrun).
Qed.

(** The new lowering runs under the flag: the acquisition has unset
  [firstCall] when the completion with pinning is appended. *)
Lemma okeeps_compileFunctionCallNew (node Fun : ast.Expr) (Args : list ast.Expr)
  (id : Z) :
okeeps (rec Fun) -> Forall (fun a => okeeps (rec a)) Args ->
forall c r c', hasDebugPinner c = true ->
  compileFunctionCallNew rec node Fun Args id c = (r, c') -> ofollows c c'.
Proof.
intros HFun HArgs c r c' Hdp Hrun. unfold compileFunctionCallNew in Hrun.
unfold andThen at 1 in Hrun. cbn [lift] in Hrun.
eapply ofollows_trans; [apply ofollows_getDebugPinner|].
match type of Hrun with
| ?m _ = _ =>
    enough (Htail : okeeps_called m)
      by exact (Htail _ _ _ (compileGetDebugPinner_called c Hdp) Hrun)
end.
apply okeeps_called_andThen; [by apply okeeps_called_of|].
apply okeeps_called_andThen;
  [by apply okeeps_called_of, okeeps_compileFunctionCallNew_args|].
do 4 (apply okeeps_called_andThen; [by apply okeeps_called_of, okeeps_push|]).
apply okeeps_called_andThen.
{ apply okeeps_called_of, okeeps_lift. intros c0.
  apply ofollows_compileFunctionCallNew_copy. }
apply okeeps_called_andThen.
{ intros c0 r0 c0' Hfc [= <- <-]. by apply ofollows_push_pinning. }
apply okeeps_called_of, okeeps_lift, ofollows_pinningLoop.
Qed.

Lemma okeeps_compileFunctionCall (node Fun : ast.Expr) (Args : list ast.Expr) :
okeeps (rec Fun) -> Forall (fun a => okeeps (rec a)) Args ->
okeeps (compileFunctionCall rec node Fun Args).
Proof.
intros HFun HArgs c r c' Hrun. unfold compileFunctionCall in Hrun.
cbv zeta in Hrun.
destruct (match Fun with
          | ast.Ident Name =>
              if HasBuiltin (elookup c) Name then Some Name else None
          | _ => None
          end) as [Name|].
{ exact (okeeps_compileBuiltinCall Name Args HArgs _ _ _ Hrun). }
destruct (negb (allowCalls c)); [exact (okeeps_fail _ _ _ _ Hrun)|].
destruct (hasDebugPinner (set_curCall c _)) eqn:Hdp.
- eapply ofollows_trans; [apply ofollows_set_curCall|].
  exact (okeeps_compileFunctionCallNew node Fun Args _ HFun HArgs _ _ _ Hdp Hrun).
- eapply ofollows_trans; [apply ofollows_set_curCall|].
  exact (okeeps_compileFunctionCallOld node Fun Args _ HFun HArgs _ _ _ Hdp Hrun).
Qed.

Lemma okeeps_compileTypeCastOrFuncCall (node Fun : ast.Expr) (Args : list ast.Expr) :
okeeps (rec Fun) -> Forall (fun a => okeeps (rec a)) Args ->
okeeps (compileTypeCastOrFuncCall lib rec node Fun Args).
Proof.
intros HFun HArgs c r c' Hrun. unfold compileTypeCastOrFuncCall in Hrun.
pose proof (okeeps_compileFunctionCall node Fun Args HFun HArgs) as HCall.
pose proof (fun e => okeeps_compileTypeCast node Fun Args e HArgs) as HCast.
destruct (negb _); [exact (HCall _ _ _ Hrun)|].
cbv zeta in Hrun.
repeat match type of Hrun with
       | compileFunctionCall _ _ _ _ _ = _ => exact (HCall _ _ _ Hrun)
       | compileTypeCast _ _ _ _ _ _ _ = _ => exact (HCast _ _ _ _ Hrun)
       | (_, ?x) = (_, _) => injection Hrun as <- <-
       | (if ?b then _ else _) = _ => destruct b
       | match ?x with _ => _ end = _ =>
           lazymatch x with
           | compileTypeCast _ _ _ _ _ _ _ =>
               let r1 := fresh "r" in let c1 := fresh "c" in
               let E := fresh "E" in
               destruct x as [r1 c1] eqn:E; apply HCast in E
           | rec _ _ => destruct x as [? ?]
           | _ => destruct x
           end
       end;
  first [ apply ofollows_refl | assumption
        | eapply ofollows_trans; [eassumption | exact (HCall _ _ _ Hrun)] ].
Qed.

Lemma okeeps_compileCompositeLit_elts (Field : list string) (elts : list ast.Expr) :
Forall (fun e => match e with
                 | ast.KeyValueExpr _ Value => okeeps (rec Value)
                 | _ => okeeps (rec e)
                 end) elts ->
forall i, okeeps (compileCompositeLit_elts rec Field i elts).
Proof.
induction 1 as [|elt elts Helt Helts IH]; intros i;
  cbn [compileCompositeLit_elts].
- apply okeeps_ret.
- intros c r c' Hrun.
  assert (Hgo : forall rhe field c1,
             ofollows c c1 ->
             compileCompositeLit_elts rec Field (S i) elts
               (pushOp (SetValue None rhe)
                  (pushOp (Select field) (pushOp Dup c1))) = (r, c') ->
             ofollows c c').
  { intros rhe field c1 F1 Hnext.
    eapply ofollows_trans; [exact F1|].
    eapply ofollows_trans; [|exact (IH _ _ _ _ Hnext)].
    eapply ofollows_trans; [|by apply ofollows_pushOp].
    eapply ofollows_trans; [|by apply ofollows_pushOp].
    by apply ofollows_pushOp. }
  destruct elt;
    match type of Hrun with
    | context [rec ?e c] =>
        destruct (rec e c) as [r1 c1] eqn:H1; pose proof (Helt _ _ _ H1) as F1
    end;
    cbv beta iota zeta in Hrun;
    repeat match type of Hrun with
           | (_, _) = (_, _) => injection Hrun as <- <-; exact F1
           | match ?x with _ => _ end = _ => destruct x
           end;
    exact (Hgo _ _ _ F1 Hrun).
Qed.

End OrderedMethods.

(** Every run of [compileAST] keeps the order of pinner calls. *)
Lemma okeeps_compileAST (lib : golib) (t : ast.Expr) : okeeps (compileAST lib t).
Proof.
  cut (okeeps (compileAST lib t) /\
       Forall (fun x => okeeps (compileAST lib x)) (children t)); [tauto|].
  induction t as [t IH] using Expr_children_ind.
  assert (Hch : Forall (fun x => okeeps (compileAST lib x)) (children t)).
  { eapply Forall_impl; [exact IH|]. by intros x [Hx _]. }
  split; [|exact Hch].
  destruct t as [ Name | Kind_ Value | X | X Sel | X Type_ | X Index_ | X Indices
                | X Low High Slice3 | X | Op_ X | X Op_ Y | Fun Args
                | Type_ Elts | Key Value | Elt | | | | Key Value | Value | | ];
    cbn [children] in Hch, IH; cbn [compileAST];
    try apply okeeps_fail.
  - (* Ident *) apply okeeps_compileIdent.
  - (* BasicLit *) by apply okeeps_push.
  - (* ParenExpr *) by split_children.
  - (* SelectorExpr *)
    split_children.
    pose proof (okeeps_compileUnary (compileAST lib) X (Select Sel)
                  ltac:(assumption) eq_refl) as HU.
    destruct X; try exact HU;
      intros c r c' Hrun; cbv zeta in Hrun; run_cases Hrun;
      first [ orun_leaf Hrun
            | exact (HU _ _ _ Hrun)
            | exact (okeeps_panic _ _ _ Hrun)
            | injection Hrun as <- <-;
              eapply ofollows_trans; by apply ofollows_pushOp ].
  - (* TypeAssertExpr *)
    apply okeeps_compileTypeAssert. by split_children.
  - (* IndexExpr *)
    split_children. intros c r c' Hrun.
    destruct (compileBinary _ _ _ _ _ _) as [[r1 c1] at_] eqn:E.
    cbn [fst] in Hrun. injection Hrun as <- <-.
    by eapply (okeeps_compileBinary (compileAST lib)); [| | | |exact E].
  - (* SliceExpr *)
    destruct Slice3; [apply okeeps_fail|].
    apply okeeps_compileReslice.
    + by split_children.
    + intros h ->. by split_children.
    + intros l ->. by split_children.
  - (* StarExpr *)
    apply okeeps_compileUnary; [by split_children | done].
  - (* UnaryExpr *)
    split_children. by destruct Op_; apply okeeps_compileUnary.
  - (* BinaryExpr *)
    split_children.
    destruct Op_; try apply okeeps_fail;
      intros c r c' Hrun; cbv zeta in Hrun;
      destruct (compileBinary _ _ _ _ _ _) as [[r1 c1] at_] eqn:E;
      apply (okeeps_compileBinary (compileAST lib)) in E; try done;
      destruct r1; injection Hrun as <- <-; try exact E;
      (eapply ofollows_trans; [exact E|]);
      (eapply ofollows_trans; [apply ofollows_patchJump | by apply ofollows_pushOp]).
  - (* CallExpr *)
    split_children. by apply okeeps_compileTypeCastOrFuncCall.
  - (* CompositeLit *)
    intros c r c' Hrun.
    assert (Helts : Forall (fun e => match e with
                                     | ast.KeyValueExpr _ Value =>
                                         okeeps (compileAST lib Value)
                                     | _ => okeeps (compileAST lib e)
                                     end) Elts).
    { apply Forall_app in IH as [_ IH].
      eapply Forall_impl; [exact IH|]. intros e [He Hce].
      destruct e; try exact He. cbn [children] in Hce. by split_children. }
    repeat match type of Hrun with
           | fail _ _ = _ => exact (okeeps_fail _ _ _ _ Hrun)
           | (if ?b then _ else _) = _ => destruct b
           | match ?x with _ => _ end = _ => destruct x
           end.
    eapply ofollows_trans;
      [|exact (okeeps_compileCompositeLit_elts _ _ _ Helts _ _ _ _ Hrun)].
    eapply ofollows_trans; [|by apply ofollows_pushOp].
    eapply ofollows_trans; [|by apply ofollows_pushOp].
    apply ofollows_specialCall. by repeat constructor.
Qed.

(** *** The release at the end of [CompileAST] *)

(** *** The pinning check of the verifier *)

Lemma checkAndSet_err `{OpArity} (depth : list Z) (err : option error) (j d : Z)
    (depth1 : list Z) (err1 : option error) :
  checkAndSet depth err j d = Some (depth1, err1) ->
  err1 = err \/ exists a b c e, err1 = Some (ErrDepthJumpTarget a b c e).
Proof.
  unfold checkAndSet. destruct (_ || _); [done|]. intros [= <- <-].
  destruct (negb _); [right; by eexists _, _, _, _ | by left].
Qed.

(** On an ordered program the loop of the verifier has seen a special call
    whenever it meets a completion with pinning. *)
Lemma depthCheck_loop_ordered `{OpArity} (ops : list Op) :
  pinning_ordered ops ->
  forall (rest : list Op) (i : nat) (depth : list Z) (seen : bool) (k : nat),
    ops = take i ops ++ rest ->
    seen = existsb isStartSpecial (take i ops) ->
    fst (depthCheck_loop i rest depth seen) <> Fail (ErrPinningBeforeDebugPinner k).
Proof.
  intros Hord. induction rest as [|op rest IH]; intros i depth seen k Hops Hseen;
    [done|].
  assert (Hilt : (i < length ops)%nat).
  { apply (f_equal length) in Hops.
    rewrite length_app, length_take in Hops. cbn [length] in Hops. lia. }
  assert (Hop : ops !! i = Some op).
  { rewrite Hops. rewrite lookup_app_r by (rewrite length_take; lia).
    rewrite length_take.
    by replace (i - i `min` length ops)%nat with 0%nat by lia. }
  assert (Htake : ops = take (S i) ops ++ rest).
  { rewrite (take_S_r _ _ _ Hop), <- app_assoc. exact Hops. }
  assert (Hnext : existsb isStartSpecial (take (S i) ops)
                  = seen || isStartSpecial op).
  { rewrite (take_S_r _ _ _ Hop), existsb_app, Hseen. cbn.
    by rewrite orb_false_r. }
  cbn [depthCheck_loop].
  destruct (Op_depthCheck op) as [npop npush].
  destruct (_ <? _); [done|].
  destruct (checkAndSet depth None _ _) as [[depth1 err1]|] eqn:E1; [|done].
  apply checkAndSet_err in E1.
  assert (Hgo : forall depth2,
             fst (match err1 with
                  | Some e => (Fail e, depth2)
                  | None => depthCheck_loop (S i) rest depth2
                              (seen || isStartSpecial op)
                  end) <> Fail (ErrPinningBeforeDebugPinner k)).
  { intros depth2. destruct E1 as [->|(a & b & c & e & ->)]; [|done].
    apply IH; [exact Htake | by rewrite Hnext]. }
  unfold depthCheck_switch.
  destruct op; cbn [isStartSpecial] in Hgo;
    rewrite ?orb_false_r, ?orb_true_r in Hgo; try apply Hgo.
  - (* Jump *)
    destruct (checkAndSet depth1 err1 _ _) as [[depth2 err2]|] eqn:E2; [|done].
    apply checkAndSet_err in E2.
    destruct E2 as [->|(a & b & c & e & ->)]; [apply Hgo | done].
  - (* CallInjectionComplete *)
    destruct DoPinning; cbn [andb]; [|apply Hgo].
    destruct (Hord i _ Hop) as (j & op' & Hj & Hop' & Hs).
    assert (Hex : existsb isStartSpecial (take i ops) = true).
    { apply existsb_exists. exists op'. split; [|done].
      apply list_elem_of_In, list_elem_of_lookup. exists j.
      by rewrite lookup_take_lt. }
    rewrite Hex in Hseen. subst seen. cbn [negb]. apply Hgo.
Qed.

Lemma depthCheck_ordered `{OpArity} (ops : list Op) (endDepth : Z) (k : nat) :
  pinning_ordered ops ->
  depthCheck ops endDepth <> Fail (ErrPinningBeforeDebugPinner k).
Proof.
  intros Hord. unfold depthCheck, depthCheck_run.
  pose proof (depthCheck_loop_ordered ops Hord ops 0 (depthCheck_init ops) false k
                eq_refl eq_refl) as Hloop.
  destruct (depthCheck_loop 0 ops (depthCheck_init ops) false) as [[| |] depth];
    cbn [fst] in *; try done.
  by destruct (negb _).
Qed.

(** X17. In every program that [CompileAST], [CompileSet] or [Compile]
    returns, each completion of a call with [DoPinning] stands after a
    [CallInjectionStartSpecial], whatever the expression and the flags, so
    that the depth check never reports a pinning call seen before the call
    to [runtime.debugPinner] on it. *)
Theorem compiled_pinning_checked `{OpArity} (lib : golib) (lk : evalLookup)
    (fl : Z) (t : ast.Expr) (lhexpr rhexpr expr : string) :
  pinning_checked (fst (CompileAST lib lk t fl)) /\
  pinning_checked (fst (CompileSet lib lk lhexpr rhexpr fl)) /\
  pinning_checked (fst (Compile lib lk expr fl)).
Proof.
  assert (Hin : forall ops, pinning_ordered ops -> pinning_checked ops).
  { intros ops Hops. split; [done|]. intros e i. by apply depthCheck_ordered. }
  assert (Hnil : pinning_ordered []) by (intros n id Hn; discriminate Hn).
  set (c0 := {| elookup := lk; ops := []; allowCalls := true; curCall := 0;
                flags := fl; firstCall := true |}).
  assert (I0 : ordered_inv c0) by (by split).
  apply entry_programs; [by apply Hin | |].
  - intros t' c1 E. apply Hin.
    apply (ofollows_trans _ _ _ (okeeps_compileAST lib t' _ _ _ E)
             (ofollows_debugUnpin c1)), I0.
  - intros lhe rhe c1 c2 E1 E2. apply Hin.
    refine (proj1 (proj2 (proj2 (ofollows_trans _ _ _ _ _)) I0)).
    + eapply ofollows_trans; [exact (okeeps_compileAST lib rhe _ _ _ E1)|].
      eapply ofollows_trans; [|exact (okeeps_compileAST lib lhe _ _ _ E2)].
      destruct (isStringLiteral rhe);
        [apply ofollows_allocLiteralString | apply ofollows_refl].
    + by apply ofollows_pushOp.
Qed.
(** *** No call is compiled where calls are not allowed *)

Lemma injections_app (l1 l2 : list Op) :
  injections (l1 ++ l2) = (injections l1 + injections l2)%nat.
Proof. unfold injections. by rewrite List.filter_app, length_app. Qed.

Lemma injections_insert (l : list Op) (i : nat) (x y : Op) :
  l !! i = Some x -> isCallInjection y = isCallInjection x ->
  injections (<[i := y]> l) = injections l.
Proof.
  revert i. induction l as [|a l IH]; intros [|i] Hl Hf; try discriminate Hl.
  - injection Hl as ->. unfold injections. cbn. rewrite Hf.
    by destruct (isCallInjection x).
  - specialize (IH i Hl Hf). unfold injections in *.
    change (<[S i := y]> (a :: l)) with (a :: <[i := y]> l).
    cbn [List.filter]. destruct (isCallInjection a); cbn [length]; by rewrite IH.
Qed.

Lemma injections_setTarget (at_ : nat) (t : Z) (l : list Op) :
  injections (setTarget at_ t l) = injections l.
Proof.
  unfold setTarget. destruct (l !! at_) as [op|] eqn:Hl; [|done].
  destruct op; try done. by apply (injections_insert l at_ _ _ Hl).
Qed.

Lemma injections_none (code : list Op) :
  injections code = 0%nat -> Forall (fun op => isCallInjection op = false) code.
Proof.
  unfold injections. induction code as [|a code IH]; [constructor|].
  cbn. destruct (isCallInjection a) eqn:Ha; [done|].
  intros Hc. constructor; auto.
Qed.

Lemma cfollows_refl (c : compileCtx) : cfollows c c.
Proof. by intros Hac. Qed.

Lemma cfollows_trans (c1 c2 c3 : compileCtx) :
  cfollows c1 c2 -> cfollows c2 c3 -> cfollows c1 c3.
Proof.
  intros H12 H23 Hac. destruct (H12 Hac) as (Ha & Hc & Hf & Hi).
  destruct (H23 Ha) as (Ha' & Hc' & Hf' & Hi').
  repeat split; congruence.
Qed.

Lemma cfollows_pushOp (op : Op) (c : compileCtx) :
  isCallInjection op = false -> cfollows c (pushOp op c).
Proof.
  intros Hop Hac. do 3 (split; [done|]). cbn [pushOp set_ops ops].
  rewrite injections_app. unfold injections at 2. cbn. rewrite Hop.
  cbn. lia.
Qed.

Lemma cfollows_patchJump (at_ : nat) (c : compileCtx) : cfollows c (patchJump at_ c).
Proof.
  intros Hac. do 3 (split; [done|]). unfold patchJump. ctx_read.
  apply injections_setTarget.
Qed.

(** *** The methods emit no call when calls are not allowed *)

Lemma ckeeps_ret : ckeeps ret.
Proof. intros c r c' [= <- <-]. apply cfollows_refl. Qed.

Lemma ckeeps_fail (e : error) : ckeeps (fail e).
Proof. intros c r c' [= <- <-]. apply cfollows_refl. Qed.

Lemma ckeeps_panic : ckeeps panic.
Proof. intros c r c' [= <- <-]. apply cfollows_refl. Qed.

Lemma ckeeps_lift (f : compileCtx -> compileCtx) :
  (forall c, cfollows c (f c)) -> ckeeps (lift f).
Proof. intros Hf c r c' [= <- <-]. apply Hf. Qed.

Lemma ckeeps_push (op : Op) : isCallInjection op = false -> ckeeps (lift (pushOp op)).
Proof. intros Hop. apply ckeeps_lift. intros c. by apply cfollows_pushOp. Qed.

Lemma ckeeps_andThen (m k : M) : ckeeps m -> ckeeps k -> ckeeps (andThen m k).
Proof.
  intros Hm Hk c r c' Hrun. unfold andThen in Hrun.
  destruct (m c) as [r1 c1] eqn:Hm1. pose proof (Hm _ _ _ Hm1) as H1.
  destruct r1; try (injection Hrun as <- <-; exact H1).
  eapply cfollows_trans; [exact H1 | exact (Hk _ _ _ Hrun)].
Qed.

Lemma crun_push (op : Op) (c : compileCtx) (r : outcome) (c' : compileCtx) :
  lift (pushOp op) c = (r, c') -> isCallInjection op = false -> cfollows c c'.
Proof. intros Hrun Hop. exact (ckeeps_push op Hop c r c' Hrun). Qed.

Lemma crun_fail (e : error) (c : compileCtx) (r : outcome) (c' : compileCtx) :
  fail e c = (r, c') -> cfollows c c'.
Proof. apply ckeeps_fail. Qed.

Ltac crun_leaf H :=
  first [ by eapply crun_push; [exact H | reflexivity]
        | by eapply crun_fail; exact H ].

Lemma ckeeps_compileIdent (name : string) : ckeeps (compileIdent name).
Proof.
  intros c r c' Hrun. unfold compileIdent in Hrun.
  run_cases Hrun; crun_leaf Hrun.
Qed.

Section CallFreeMethods.
Variable lib : golib.
Variable rec : ast.Expr -> M.

Lemma ckeeps_compileUnary (expr : ast.Expr) (op : Op) :
ckeeps (rec expr) -> isCallInjection op = false -> ckeeps (compileUnary rec expr op).
Proof. intros Hrec Hop. apply ckeeps_andThen; [done | by apply ckeeps_push]. Qed.

Lemma ckeeps_compileTypeAssert (node X : ast.Expr) (Type_ : option ast.Expr) :
ckeeps (rec X) -> ckeeps (compileTypeAssert rec node X Type_).
Proof.
intros Hrec. apply ckeeps_andThen; [done|].
intros c r c' Hrun. cbv beta zeta in Hrun.
destruct (negb _).
- destruct (FindTypeExpr _ _) as [typ [err|]]; crun_leaf Hrun.
- crun_leaf Hrun.
Qed.

Lemma ckeeps_compileBinary (a b : ast.Expr) (sop : option Op) (op : Op) :
ckeeps (rec a) -> ckeeps (rec b) ->
match sop with Some jmp => isCallInjection jmp = false | None => True end ->
isCallInjection op = false ->
forall c r c' at_,
  compileBinary rec a b sop op c = (r, c', at_) -> cfollows c c'.
Proof.
intros Ha Hb Hsop Hop c r c' at_ Hrun. unfold compileBinary in Hrun.
destruct (rec a c) as [r1 c1] eqn:H1. pose proof (Ha _ _ _ H1) as F1.
destruct r1; try (injection Hrun as <- <- <-; exact F1).
set (c2 := match sop with Some jmp => pushOp jmp c1 | None => c1 end) in *.
assert (F2 : cfollows c c2).
{ eapply cfollows_trans; [exact F1|]. subst c2.
  destruct sop; [by apply cfollows_pushOp | apply cfollows_refl]. }
destruct (rec b c2) as [r3 c3] eqn:H3. pose proof (Hb _ _ _ H3) as F3.
destruct r3; injection Hrun as <- <- <-;
  try (eapply cfollows_trans; [exact F2 | exact F3]).
eapply cfollows_trans; [exact F2|].
eapply cfollows_trans; [exact F3 | by apply cfollows_pushOp].
Qed.

Lemma ckeeps_compileReslice (node X : ast.Expr) (Low High : option ast.Expr) :
ckeeps (rec X) ->
(forall h, High = Some h -> ckeeps (rec h)) ->
(forall l, Low = Some l -> ckeeps (rec l)) ->
ckeeps (compileReslice rec node X Low High).
Proof.
intros HX HH HL. unfold compileReslice.
apply ckeeps_andThen; [done|]. apply ckeeps_andThen.
{ destruct High; [by apply HH | apply ckeeps_ret]. }
apply ckeeps_andThen.
{ destruct Low; [by apply HL | by apply ckeeps_push]. }
by apply ckeeps_push.
Qed.

Lemma ckeeps_compileBuiltinCall_args (args : list ast.Expr) :
Forall (fun a => ckeeps (rec a)) args -> ckeeps (compileBuiltinCall_args rec args).
Proof.
induction 1 as [|a args Ha Hargs IH]; cbn [compileBuiltinCall_args].
- apply ckeeps_ret.
- by apply ckeeps_andThen.
Qed.

Lemma ckeeps_compileBuiltinCall (builtin : string) (args : list ast.Expr) :
Forall (fun a => ckeeps (rec a)) args -> ckeeps (compileBuiltinCall rec builtin args).
Proof.
intros Hargs. apply ckeeps_andThen;
  [by apply ckeeps_compileBuiltinCall_args | by apply ckeeps_push].
Qed.

Lemma ckeeps_compileTypeCast (node Fun : ast.Expr) (Args : list ast.Expr)
  (ambiguousErr : option error) :
Forall (fun a => ckeeps (rec a)) Args ->
ckeeps (compileTypeCast lib rec node Fun Args ambiguousErr).
Proof.
intros Hargs. unfold compileTypeCast.
destruct Hargs as [|arg0 rest Harg0 _]; [apply ckeeps_panic|].
apply ckeeps_andThen; [done|].
intros c r c' Hrun. cbv beta zeta in Hrun.
destruct (FindTypeExpr _ _) as [styp [err|]].
- run_cases Hrun; crun_leaf Hrun.
- crun_leaf Hrun.
Qed.
(** A call that is no built-in fails before any code is emitted. *)
Lemma ckeeps_compileFunctionCall (node Fun : ast.Expr) (Args : list ast.Expr) :
Forall (fun a => ckeeps (rec a)) Args ->
ckeeps (compileFunctionCall rec node Fun Args).
Proof.
intros HArgs c r c' Hrun Hac. unfold compileFunctionCall in Hrun.
cbv zeta in Hrun.
destruct (match Fun with
          | ast.Ident Name =>
              if HasBuiltin (elookup c) Name then Some Name else None
          | _ => None
          end) as [Name|].
{ exact (ckeeps_compileBuiltinCall Name Args HArgs _ _ _ Hrun Hac). }
rewrite Hac in Hrun. cbn [negb] in Hrun.
exact (ckeeps_fail _ _ _ _ Hrun Hac).
Qed.

Lemma ckeeps_compileTypeCastOrFuncCall (node Fun : ast.Expr) (Args : list ast.Expr) :
Forall (fun a => ckeeps (rec a)) Args ->
ckeeps (compileTypeCastOrFuncCall lib rec node Fun Args).
Proof.
intros HArgs c r c' Hrun. unfold compileTypeCastOrFuncCall in Hrun.
pose proof (ckeeps_compileFunctionCall node Fun Args HArgs) as HCall.
pose proof (fun e => ckeeps_compileTypeCast node Fun Args e HArgs) as HCast.
destruct (negb _); [exact (HCall _ _ _ Hrun)|].
cbv zeta in Hrun.
repeat match type of Hrun with
       | compileFunctionCall _ _ _ _ _ = _ => exact (HCall _ _ _ Hrun)
       | compileTypeCast _ _ _ _ _ _ _ = _ => exact (HCast _ _ _ _ Hrun)
       | (_, ?x) = (_, _) => injection Hrun as <- <-
       | (if ?b then _ else _) = _ => destruct b
       | match ?x with _ => _ end = _ =>
           lazymatch x with
           | compileTypeCast _ _ _ _ _ _ _ =>
               let r1 := fresh "r" in let c1 := fresh "c" in
               let E := fresh "E" in
               destruct x as [r1 c1] eqn:E; apply HCast in E
           | rec _ _ => destruct x as [? ?]
           | _ => destruct x
           end
       end;
  first [ apply cfollows_refl | assumption
        | eapply cfollows_trans; [eassumption | exact (HCall _ _ _ Hrun)] ].
Qed.

End CallFreeMethods.

(** No run of [compileAST] emits a call when calls are not allowed. *)
Lemma ckeeps_compileAST (lib : golib) (t : ast.Expr) : ckeeps (compileAST lib t).
Proof.
  cut (ckeeps (compileAST lib t) /\
       Forall (fun x => ckeeps (compileAST lib x)) (children t)); [tauto|].
  induction t as [t IH] using Expr_children_ind.
  assert (Hch : Forall (fun x => ckeeps (compileAST lib x)) (children t)).
  { eapply Forall_impl; [exact IH|]. by intros x [Hx _]. }
  split; [|exact Hch].
  destruct t as [ Name | Kind_ Value | X | X Sel | X Type_ | X Index_ | X Indices
                | X Low High Slice3 | X | Op_ X | X Op_ Y | Fun Args
                | Type_ Elts | Key Value | Elt | | | | Key Value | Value | | ];
    cbn [children] in Hch, IH; cbn [compileAST];
    try apply ckeeps_fail.
  - (* Ident *) apply ckeeps_compileIdent.
  - (* BasicLit *) by apply ckeeps_push.
  - (* ParenExpr *) by split_children.
  - (* SelectorExpr *)
    split_children.
    pose proof (ckeeps_compileUnary (compileAST lib) X (Select Sel)
                  ltac:(assumption) eq_refl) as HU.
    destruct X; try exact HU;
      intros c r c' Hrun; cbv zeta in Hrun; run_cases Hrun;
      first [ crun_leaf Hrun
            | exact (HU _ _ _ Hrun)
            | exact (ckeeps_panic _ _ _ Hrun)
            | injection Hrun as <- <-;
              eapply cfollows_trans; by apply cfollows_pushOp ].
  - (* TypeAssertExpr *)
    apply ckeeps_compileTypeAssert. by split_children.
  - (* IndexExpr *)
    split_children. intros c r c' Hrun.
    destruct (compileBinary _ _ _ _ _ _) as [[r1 c1] at_] eqn:E.
    cbn [fst] in Hrun. injection Hrun as <- <-.
    by eapply (ckeeps_compileBinary (compileAST lib)); [| | | |exact E].
  - (* SliceExpr *)
    destruct Slice3; [apply ckeeps_fail|].
    apply ckeeps_compileReslice.
    + by split_children.
    + intros h ->. by split_children.
    + intros l ->. by split_children.
  - (* StarExpr *)
    apply ckeeps_compileUnary; [by split_children | done].
  - (* UnaryExpr *)
    split_children. by destruct Op_; apply ckeeps_compileUnary.
  - (* BinaryExpr *)
    split_children.
    destruct Op_; try apply ckeeps_fail;
      intros c r c' Hrun; cbv zeta in Hrun;
      destruct (compileBinary _ _ _ _ _ _) as [[r1 c1] at_] eqn:E;
      apply (ckeeps_compileBinary (compileAST lib)) in E; try done;
      destruct r1; injection Hrun as <- <-; try exact E;
      (eapply cfollows_trans; [exact E|]);
      (eapply cfollows_trans; [apply cfollows_patchJump | by apply cfollows_pushOp]).
  - (* CallExpr *)
    split_children. by apply ckeeps_compileTypeCastOrFuncCall.
  - (* CompositeLit *)
    intros c r c' Hrun Hac. rewrite Hac in Hrun. cbn [negb] in Hrun.
    repeat match type of Hrun with
           | fail _ _ = _ => exact (ckeeps_fail _ _ _ _ Hrun Hac)
           | (if ?b then _ else _) = _ => destruct b
           | match ?x with _ => _ end = _ => destruct x
           end.
Qed.


(** X18. Where calls are not allowed [compileAST] compiles none: whatever it
    returns, the code it has appended holds no operation of a call
    injection (an expression that needs one fails instead), calls are still
    not allowed, and neither a call identifier was taken nor the pinner
    acquired. *)
Theorem compileAST_no_calls (lib : golib) (t : ast.Expr) (c c' : compileCtx)
    (r : outcome) :
  allowCalls c = false -> compileAST lib t c = (r, c') ->
  allowCalls c' = false /\ curCall c' = curCall c /\
  firstCall c' = firstCall c /\
  exists code : list Op,
    ops c' = ops c ++ code /\
    Forall (fun op => isCallInjection op = false) code.
Proof.
  intros Hac Hrun.
  destruct (ckeeps_compileAST lib t c r c' Hrun Hac) as (Ha & Hc & Hf & Hi).
  do 3 (split; [done|]).
  destruct (growing_compileAST lib t c r c' Hrun)
    as (_ & _ & _ & (code & Ho & _) & _).
  exists code. split; [done|]. apply injections_none.
  rewrite Ho, injections_app in Hi. lia.
Qed.

Lemma compileAST_no_calls_witness :
  let c := {| elookup := sample_lookup; ops := [PushNil]; allowCalls := false;
              curCall := 3; flags := 0; firstCall := true |} in
  let c' := snd (compileAST sample_lib expr_a_and_b c) in
  allowCalls c' = false /\ curCall c' = curCall c /\
  firstCall c' = firstCall c /\
  exists code : list Op,
    ops c' = ops c ++ code /\
    Forall (fun op => isCallInjection op = false) code.
Proof.
  apply (compileAST_no_calls sample_lib expr_a_and_b _ _ Done); [reflexivity|].
  vm_compute. reflexivity.
Defined.

(** ** The Swiss-table iterator *)

Lemma land_128 (n : Z) : Z.land n 128 = 128 <-> Z.testbit n 7 = true.
Proof.
  change 128 with (2 ^ 7). split.
  - intros Hl. pose proof (Z.land_spec n (2 ^ 7) 7) as Hs.
    rewrite Hl, Z.pow2_bits_true, andb_true_r in Hs by lia. by symmetry.
  - intros Hb. apply Z.bits_inj'. intros m Hm.
    rewrite Z.land_spec, Z.pow2_bits_eqb by lia.
    destruct (Z.eqb_spec 7 m) as [<-|Hne]; [by rewrite Hb | apply andb_false_r].
Qed.

Lemma byte_top_bit (n : Z) : 0 <= n < 256 -> (Z.testbit n 7 = true <-> 128 <= n).
Proof.
  intros Hn. rewrite Z.testbit_true by lia. change (2 ^ 7) with 128.
  assert (n / 128 = 0 \/ n / 128 = 1) as [Hq|Hq].
  { assert (0 <= n / 128 < 2) by (split; [apply Z.div_pos | apply Z.div_lt_upper_bound]; lia).
    lia. }
  - rewrite Hq. split; [discriminate|]. intros Hge.
    pose proof (Z.div_small_iff n 128 ltac:(lia)). lia.
  - rewrite Hq. split; [|reflexivity]. intros _.
    pose proof (Z.mul_div_le n 128 ltac:(lia)). lia.
Qed.

(** C2, as stated, fails: the control byte 0xFE of a deleted slot is not
    0x80, yet the slot is treated as empty and the iteration over the
    sample group (control bytes 5, 0x80, 0xFE, 0x12, 0x80, ...) yields the
    slots 0 and 3 only. *)
Lemma swiss_deleted_slot_counterexample :
  let vo := sample_varops swiss_mem in
  readUintRaw vo (Swiss.group (swiss_at_slot 0 2) + 2) 1 = (254, None)
  /\ 254 <> Swiss.swissTableCtrlEmpty
  /\ fst (Swiss.slotIsEmpty vo (swiss_at_slot 0 2) 2) = true
  /\ Swiss.next vo 3 (swiss_at_slot 0 2) = Ret (true, swiss_yield vo (swiss_at_slot 0 3) 3).
Proof. vm_compute. repeat split; discriminate. Qed.

(** A control byte that cannot be read makes the slot empty and marks the
    map unreadable. *)
Lemma swiss_slot_read_error (vo : varops) (it : Swiss.mapIteratorSwiss)
    (k n : Z) (err : merror) :
  readUintRaw vo (wrap_u64 (Swiss.group it + k)) 1 = (n, Some err) ->
  exists e, Swiss.slotIsEmpty vo it k = (true, Swiss.fail_with it e).
Proof. intros Hread. unfold Swiss.slotIsEmpty. rewrite Hread. eauto. Qed.

(** What [slotIsEmpty] answers for a control byte that was read, and the
    step of the slot loop that follows from it. *)
Lemma slotIsEmpty_read (vo : varops) (it : Swiss.mapIteratorSwiss) (k n : Z) :
  0 <= n < 256 ->
  readUintRaw vo (wrap_u64 (Swiss.group it + k)) 1 = (n, None) ->
  Swiss.slotIsEmpty vo it k = (128 <=? n, it).
Proof.
  intros Hn Hread. unfold Swiss.slotIsEmpty. rewrite Hread. f_equal.
  unfold Swiss.swissTableCtrlEmpty.
  destruct (Z.leb_spec 128 n) as [Hge|Hlt].
  - apply Z.eqb_eq, land_128, byte_top_bit; [done | lia].
  - apply Z.eqb_neq. intros Hl. apply land_128, byte_top_bit in Hl; [lia | done].
Qed.

Lemma next_slots_step (vo : varops) (it : Swiss.mapIteratorSwiss) (n : Z)
    (fuel : nat) :
  0 <= n < 256 ->
  readUintRaw vo (wrap_u64 (Swiss.group it + Swiss.slotIdx it)) 1 = (n, None) ->
  Swiss.slotIdx it < Swiss.swissMapGroupSlots ->
  Swiss.next_slots vo (S fuel) it =
    if 128 <=? n
    then Swiss.next_slots vo fuel (Swiss.set_slotIdx it (Swiss.slotIdx it + 1))
    else Ret (inl (swiss_yield vo it (Swiss.slotIdx it))).
Proof.
  intros Hn Hread Hlt. cbn [Swiss.next_slots].
  replace (Swiss.slotIdx it <? Swiss.swissMapGroupSlots) with true
    by (symmetry; by apply Z.ltb_lt).
  rewrite (slotIsEmpty_read vo it _ n Hn Hread).
  destruct (128 <=? n); reflexivity.
Qed.

(** C2, amended. A slot whose control byte [n] is read at [group + k] is
    treated as empty exactly when the byte has its top bit set
    ([n & 0x80 == 0x80], for a byte: [n >= 0x80], which covers the empty
    mark 0x80 and the deleted mark 0xFE); the slot loop yields a slot whose
    control byte is below 0x80 and passes over the others. *)
Theorem swiss_slot_empty_iff_top_bit (vo : varops)
    (it : Swiss.mapIteratorSwiss) (k n : Z) :
  0 <= n < 256 ->
  readUintRaw vo (wrap_u64 (Swiss.group it + k)) 1 = (n, None) ->
  (fst (Swiss.slotIsEmpty vo it k) = true <-> 128 <= n)
  /\ (Swiss.slotIdx it = k -> k < Swiss.swissMapGroupSlots ->
      forall fuel,
        Swiss.next_slots vo (S fuel) it =
          if 128 <=? n
          then Swiss.next_slots vo fuel (Swiss.set_slotIdx it (k + 1))
          else Ret (inl (swiss_yield vo it k))).
Proof.
  intros Hn Hread. split.
  - rewrite (slotIsEmpty_read vo it k n Hn Hread). cbn [fst]. apply Z.leb_le.
  - intros Hk Hlt fuel. subst k. by apply next_slots_step.
Qed.

Lemma swiss_slot_empty_iff_top_bit_witness :
  let vo := sample_varops swiss_mem in
  (fst (Swiss.slotIsEmpty vo (swiss_at_slot 0 2) 2) = true <-> 128 <= 254)
  /\ Swiss.next_slots vo 8 (swiss_at_slot 0 2)
     = Swiss.next_slots vo 7 (Swiss.set_slotIdx (swiss_at_slot 0 2) 3).
Proof.
  intros vo.
  destruct (swiss_slot_empty_iff_top_bit vo (swiss_at_slot 0 2) 2 254)
    as [Hempty Hstep].
  - lia.
  - reflexivity.
  - split; [exact Hempty|]. apply (Hstep eq_refl eq_refl 7%nat).
Defined.

(** ** The classic iterator *)

(** C3, as stated, fails: in the sample map (growing from one bucket to
    two, old bucket not evacuated) the new bucket 1 is the high half of the
    split of old bucket 0; the iterator does not iterate it directly but
    passes over it, and [nextBucket] reports the end of the buckets. *)
Lemma grow_high_half_counterexample :
  let vo := sample_varops growing_mem in
  let it := growing_map 1 in
  Classic.mapEvacuated vo it (sample_var 5000 reflect.Struct 0 bucketType) = Ret false
  /\ Z.land (Classic.bidx it) (Classic.oldmask it) <> Classic.bidx it
  /\ Classic.nextBucket vo it = Ret (false, Classic.set_bidx it 2)
  /\ Classic.b (Classic.set_bidx it 2) = None.
Proof. vm_compute. repeat split; discriminate. Qed.

(** When a bucket counts as evacuated. *)
Lemma mapEvacuated_spec (vo : varops) (it : Classic.mapIteratorClassic)
    (b : Variable_) (Field : list string) (tophashes tophash0var : option Variable_)
    (e1 e2 : option merror) (tophash0 : Z) :
  Addr b <> 0 ->
  DwarfType b = Some (godwarf.StructType Field) ->
  In "tophash" Field ->
  toField vo b "tophash" = (tophashes, e1) ->
  sliceAccess vo tophashes 0 = (tophash0var, e2) ->
  asUint vo tophash0var = (tophash0, None) ->
  Classic.mapEvacuated vo it b =
    Ret ((Classic.hashTophashEmptyOne_ it <? tophash0)
         && (tophash0 <? Classic.hashMinTopHash it)).
Proof.
  intros Haddr Htyp Hin Hfield Hslice Hread.
  unfold Classic.mapEvacuated, Classic.structFields.
  apply Z.eqb_neq in Haddr. rewrite Haddr, Htyp.
  replace (existsb (String.eqb "tophash") Field) with true.
  2: { symmetry. apply existsb_exists. exists "tophash". split; [done|].
       apply String.eqb_refl. }
  by rewrite Hfield, Hslice, Hread.
Qed.

(** C3, amended. While a grow is in progress ([oldbuckets] not null) the
    bucket loop, at new bucket [i] with old bucket [i & oldmask]:
    takes the new bucket [i] itself when the old bucket is evacuated; takes
    the old bucket in its place when the old bucket is not evacuated and
    [i = i & oldmask] (the low half of the split); and when the old bucket is
    not evacuated and [i] is the high half, takes neither: it passes over
    [i] and goes on with [i + 1]. *)
Theorem grow_bucket_choice (vo : varops) (it : Classic.mapIteratorClassic)
    (fuel : nat) (newb ob oldb : Variable_) (evacuated : bool) :
  Classic.bidx it < Classic.numbuckets it ->
  Classic.oldbuckets it = Some ob ->
  0 < Addr ob ->
  Classic.bucketAt vo (Classic.buckets it) (Classic.bidx it) = Ret newb ->
  Classic.bucketAt vo (Classic.oldbuckets it)
    (Z.land (Classic.bidx it) (Classic.oldmask it)) = Ret oldb ->
  Classic.mapEvacuated vo it oldb = Ret evacuated ->
  Classic.nextBucket_loop vo (S fuel) it =
    if evacuated then Ret (Classic.set_b it (Some newb))
    else if Z.land (Classic.bidx it) (Classic.oldmask it) =? Classic.bidx it
         then Ret (Classic.set_b it (Some oldb))
         else Classic.nextBucket_loop vo fuel
                (Classic.set_bidx (Classic.set_b it None)
                   (wrap_u64 (Classic.bidx it + 1))).
Proof.
  intros Hlt Hob Haddr Hnew Hold Hev.
  cbn [Classic.nextBucket_loop].
  replace (Classic.bidx it <? Classic.numbuckets it) with true
    by (symmetry; by apply Z.ltb_lt).
  rewrite Hnew.
  change (Classic.oldbuckets (Classic.set_b it (Some newb)))
    with (Classic.oldbuckets it).
  change (Classic.bidx (Classic.set_b it (Some newb))) with (Classic.bidx it).
  change (Classic.oldmask (Classic.set_b it (Some newb))) with (Classic.oldmask it).
  rewrite Hold, Hob.
  replace (Addr ob <=? 0) with false by (symmetry; apply Z.leb_gt; lia).
  change (Classic.mapEvacuated vo (Classic.set_b it (Some newb)) oldb)
    with (Classic.mapEvacuated vo it oldb).
  rewrite Hev. destruct evacuated; reflexivity.
Qed.

Lemma grow_bucket_choice_witness :
  let vo := sample_varops growing_mem in
  Classic.nextBucket_loop vo 1 (growing_map 1) =
    Classic.nextBucket_loop vo 0
      (Classic.set_bidx (Classic.set_b (growing_map 1) None) 2)
  /\ Classic.nextBucket_loop vo 1 (growing_map 0) =
       Ret (Classic.set_b (growing_map 0)
              (Some (sample_var 5000 reflect.Struct 0 bucketType))).
Proof.
  intros vo. split.
  - apply (grow_bucket_choice vo (growing_map 1) 0
             (sample_var 1144 reflect.Struct 0 bucketType)
             (sample_var 5000 reflect.Struct 0 bucketType)
             (sample_var 5000 reflect.Struct 0 bucketType) false);
      reflexivity.
  - apply (grow_bucket_choice vo (growing_map 0) 0
             (sample_var 1000 reflect.Struct 0 bucketType)
             (sample_var 5000 reflect.Struct 0 bucketType)
             (sample_var 5000 reflect.Struct 0 bucketType) false);
      reflexivity.
Defined.

(** C9. For a map variable whose header (a struct behind the map's
    typedef) is at address 0, [mapIterator] returns a classic iterator with
    [numbuckets = 0]; its [next] returns [false] at once, for any cap, and
    the variable's [Unreadable] is what it was: a nil map iterates as empty. *)
Theorem nil_map_iterates_empty (vo : varops) (v sv : Variable_)
    (maxNumBuckets : Z) (KeyType ElemType under : godwarf.Type_)
    (Field : list string) :
  RealType v = Some (godwarf.MapType KeyType ElemType under) ->
  maybeDereference vo
    (Some (set_RealType v (Some (ResolveTypedef (godwarf.TypedefType "" under)))))
    = Some sv ->
  RealType sv = Some (godwarf.StructType Field) ->
  Addr sv = 0 ->
  exists it : Classic.mapIteratorClassic,
    mapIterator vo v maxNumBuckets = Ret (Some (ClassicIt it), set_Base v 0)
    /\ Classic.numbuckets it = 0
    /\ Classic.v it = set_Base v 0
    /\ Unreadable (Classic.v it) = Unreadable v
    /\ forall fuel, exists it',
         Classic.next vo (S fuel) it = Ret (false, it')
         /\ Unreadable (Classic.v it') = Unreadable v.
Proof.
  intros Hmap Hderef Hstruct Haddr.
  exists (Classic.mk (set_Base v 0) 0 0 None None None 0 None None None None
            maxNumBuckets 0 0 0).
  split.
  { unfold mapIterator. by rewrite Hmap, Hderef, Hstruct, Haddr. }
  repeat split.
  intros fuel.
  assert (Hcap : (0 <? maxNumBuckets) && (maxNumBuckets <=? 0) = false).
  { apply andb_false_iff.
    destruct (Z.ltb_spec 0 maxNumBuckets); [right; apply Z.leb_gt; lia | by left]. }
  cbn -[Z.ltb Z.leb]. rewrite Hcap. cbn. eexists. split; reflexivity.
Qed.

Lemma nil_map_iterates_empty_witness :
  exists it : Classic.mapIteratorClassic,
    mapIterator nil_map_varops nil_map_var 0
    = Ret (Some (ClassicIt it), set_Base nil_map_var 0)
    /\ Classic.numbuckets it = 0
    /\ Classic.v it = set_Base nil_map_var 0
    /\ Unreadable (Classic.v it) = Unreadable nil_map_var
    /\ forall fuel, exists it',
         Classic.next nil_map_varops (S fuel) it = Ret (false, it')
         /\ Unreadable (Classic.v it') = Unreadable nil_map_var.
Proof.
  apply (nil_map_iterates_empty nil_map_varops nil_map_var
           (set_RealType (set_Addr nil_map_var 0)
              (Some (godwarf.StructType ["count"; "B"; "buckets"; "oldbuckets"])))
           0 wordType wordType
           (godwarf.PtrType (godwarf.StructType ["count"; "B"; "buckets"; "oldbuckets"]))
           ["count"; "B"; "buckets"; "oldbuckets"]);
    reflexivity.
Defined.

(** C10. The caps count only when positive. Classic iterator, about to pick
    bucket [bidx] of a map that is not growing: with [maxNumBuckets = 0]
    it goes on to that bucket however large [bidx] is; with a positive cap
    it stops exactly when [bidx >= maxNumBuckets]. Swiss iterator, standing
    on a slot in use: with [maxNumGroups = 0] it yields the slot; with a
    positive cap it stops exactly when
    [groupIdx + groupCount >= maxNumGroups]. *)
Theorem zero_cap_disables_limit (vo : varops)
    (it : Classic.mapIteratorClassic) (newb ob : Variable_)
    (its : Swiss.mapIteratorSwiss) (t : Swiss.swissTable) (k n : Z) (fuel : nat) :
  (* classic: no overflow bucket pending, bucket [bidx] exists, no grow *)
  match Classic.overflow it with Some o => Addr o <= 0 | None => True end ->
  Classic.bidx it < Classic.numbuckets it ->
  Classic.oldbuckets it = Some ob -> Addr ob <= 0 ->
  Classic.bucketAt vo (Classic.buckets it) (Classic.bidx it) = Ret newb ->
  (* Swiss: table and group loaded, slot [k] in use *)
  Swiss.tab its = Some t ->
  Swiss.groupIdx its <= Swiss.groupsLengthMask t ->
  Swiss.group its <> 0 ->
  Swiss.slotIdx its = k -> k < Swiss.swissMapGroupSlots ->
  0 <= n < 128 ->
  readUintRaw vo (wrap_u64 (Swiss.group its + k)) 1 = (n, None) ->
  let goes_on :=
    Classic.nextBucket_load vo
      (Classic.set_bidx (Classic.set_b it (Some newb))
         (wrap_u64 (Classic.bidx it + 1))) in
  let stops := Ret (false, Classic.set_b it None) in
  (Classic.maxNumBuckets it = 0 -> Classic.nextBucket vo it = goes_on)
  /\ (0 < Classic.maxNumBuckets it ->
      Classic.nextBucket vo it =
        if Classic.maxNumBuckets it <=? Classic.bidx it then stops else goes_on)
  /\ (Swiss.maxNumGroups its = 0 ->
      Swiss.next_groups vo (S fuel) its = Ret (inl (true, swiss_yield vo its k)))
  /\ (0 < Swiss.maxNumGroups its ->
      Swiss.next_groups vo (S fuel) its =
        if Swiss.maxNumGroups its
           <=? wrap_u64 (Swiss.groupIdx its + Swiss.groupCount its)
        then Ret (inl (false, its))
        else Ret (inl (true, swiss_yield vo its k))).
Proof.
  intros Hov Hlt Hob Hobaddr Hnew Htab Hgi Hgroup Hk Hk8 Hn Hread goes_on stops.
  (* classic *)
  assert (Hloop : Classic.nextBucket_loop vo
                    (Z.to_nat (Classic.numbuckets it - Classic.bidx it))
                    (Classic.set_b it None)
                  = Ret (Classic.set_b it (Some newb))).
  { destruct (Z.to_nat (Classic.numbuckets it - Classic.bidx it)) as [|m] eqn:Hm;
      [lia|].
    cbn [Classic.nextBucket_loop Classic.bidx Classic.numbuckets Classic.set_b
         Classic.buckets Classic.oldbuckets].
    replace (Classic.bidx it <? Classic.numbuckets it) with true
      by (symmetry; by apply Z.ltb_lt).
    rewrite Hnew, Hob.
    replace (Addr ob <=? 0) with true by (symmetry; by apply Z.leb_le).
    reflexivity. }
  assert (Hvia : match Classic.overflow it with
                 | Some o => 0 <? Addr o
                 | None => false
                 end = false).
  { destruct (Classic.overflow it); [apply Z.ltb_ge; lia | done]. }
  assert (Hclassic : Classic.nextBucket vo it =
            if (0 <? Classic.maxNumBuckets it)
               && (Classic.maxNumBuckets it <=? Classic.bidx it)
            then stops else goes_on).
  { unfold Classic.nextBucket. rewrite Hvia.
    change (Classic.maxNumBuckets (Classic.set_b it None))
      with (Classic.maxNumBuckets it).
    change (Classic.bidx (Classic.set_b it None)) with (Classic.bidx it).
    change (Classic.numbuckets (Classic.set_b it None)) with (Classic.numbuckets it).
    destruct ((0 <? Classic.maxNumBuckets it) && _); [reflexivity|].
    rewrite Hloop. reflexivity. }
  (* Swiss *)
  assert (Hslots : Swiss.next_slots vo 8 its = Ret (inl (swiss_yield vo its k))).
  { subst k. rewrite (next_slots_step vo its n 7 ltac:(lia) Hread Hk8).
    replace (128 <=? n) with false by (symmetry; apply Z.leb_gt; lia).
    reflexivity. }
  assert (Hswiss : Swiss.next_groups vo (S fuel) its =
            if (0 <? Swiss.maxNumGroups its)
               && (Swiss.maxNumGroups its
                   <=? wrap_u64 (Swiss.groupIdx its + Swiss.groupCount its))
            then Ret (inl (false, its))
            else Ret (inl (true, swiss_yield vo its k))).
  { cbn [Swiss.next_groups]. rewrite Htab.
    replace (Swiss.groupIdx its <=? Swiss.groupsLengthMask t) with true
      by (symmetry; by apply Z.leb_le).
    destruct ((0 <? Swiss.maxNumGroups its) && _); [reflexivity|].
    replace (Swiss.group its =? 0) with false by (symmetry; by apply Z.eqb_neq).
    replace (Swiss.group its =? 0) with false by (symmetry; by apply Z.eqb_neq).
    rewrite Hslots. reflexivity. }
  repeat split.
  - intros H0. rewrite Hclassic, H0. reflexivity.
  - intros Hpos. rewrite Hclassic.
    replace (0 <? Classic.maxNumBuckets it) with true
      by (symmetry; by apply Z.ltb_lt).
    reflexivity.
  - intros H0. rewrite Hswiss, H0. reflexivity.
  - intros Hpos. rewrite Hswiss.
    replace (0 <? Swiss.maxNumGroups its) with true by (symmetry; by apply Z.ltb_lt).
    reflexivity.
Qed.

Lemma zero_cap_disables_limit_witness :
  let vs := sample_varops swiss_mem in
  Classic.nextBucket vs (steady_map 0 3) =
    Classic.nextBucket_load vs
      (Classic.set_bidx
         (Classic.set_b (steady_map 0 3)
            (Some (sample_var 1432 reflect.Struct 0 bucketType))) 4)
  /\ Classic.nextBucket vs (steady_map 2 3)
     = Ret (false, Classic.set_b (steady_map 2 3) None)
  /\ Swiss.next_groups vs 1 (swiss_at 0 0 1)
     = Ret (inl (true, swiss_yield vs (swiss_at 0 0 1) 0))
  /\ Swiss.next_groups vs 1 (swiss_at 1 0 1) = Ret (inl (false, swiss_at 1 0 1)).
Proof.
  intros vs.
  pose proof (zero_cap_disables_limit vs (steady_map 0 3)
                (sample_var 1432 reflect.Struct 0 bucketType)
                (sample_var 0 reflect.Struct 0 bucketType)
                (swiss_at 0 0 1) (Swiss.mkTable 0 4096 0) 0 5 0
                I eq_refl eq_refl (Z.le_refl 0) eq_refl
                eq_refl (Z.le_refl 0) ltac:(discriminate) eq_refl eq_refl
                ltac:(lia) eq_refl) as (Hc0 & _ & Hs0 & _).
  pose proof (zero_cap_disables_limit vs (steady_map 2 3)
                (sample_var 1432 reflect.Struct 0 bucketType)
                (sample_var 0 reflect.Struct 0 bucketType)
                (swiss_at 1 0 1) (Swiss.mkTable 0 4096 0) 0 5 0
                I eq_refl eq_refl (Z.le_refl 0) eq_refl
                eq_refl (Z.le_refl 0) ltac:(discriminate) eq_refl eq_refl
                ltac:(lia) eq_refl) as (_ & Hc1 & _ & Hs1).
  split; [exact (Hc0 eq_refl)|]. split; [exact (Hc1 eq_refl)|].
  split; [exact (Hs0 eq_refl) | exact (Hs1 eq_refl)].
Defined.

(** ** Helpers on expressions and types *)

(** X3. [removeParen] strips every enclosing pair of parentheses: its result
    is no parenthesised expression, a second pass changes nothing, and the
    stripped expression is a string literal exactly when the original is. *)
Lemma removeParen_strips (n : ast.Expr) :
  (forall X, removeParen n <> ast.ParenExpr X) /\
  removeParen (removeParen n) = removeParen n /\
  isStringLiteral (removeParen n) = isStringLiteral n.
Proof.
  induction n using Expr_children_ind.
  destruct n; try (split; [intros ? [=] | split; reflexivity]).
  cbn [children] in H. apply Forall_cons in H as [IH _].
  cbn [removeParen isStringLiteral]. exact IH.
Qed.

(** X4. [ResolveTypedef] goes through every typedef and every qualifier:
    its result is neither, and resolving it again changes nothing. *)
Lemma ResolveTypedef_resolves (typ : godwarf.Type_) :
  (forall name t, ResolveTypedef typ <> godwarf.TypedefType name t) /\
  (forall t, ResolveTypedef typ <> godwarf.QualType t) /\
  ResolveTypedef (ResolveTypedef typ) = ResolveTypedef typ.
Proof.
  induction typ; cbn [ResolveTypedef]; try done.
Qed.

(** ** The map iterators: errors and what [next] leaves behind *)

Lemma mapIterator_fields_unreadable (vo : varops) (sv : Variable_)
    (Field : list string) (st : headerState) :
  match mapIterator_fields vo sv Field st with
  | inl st' => Unreadable (h_v st') = Unreadable (h_v st)
  | inr st' => is_Some (Unreadable (h_v st'))
  end.
Proof.
  revert st. induction Field as [|f rest IH]; intros st; [reflexivity|].
  cbn [mapIterator_fields].
  destruct (toField vo sv f) as [field ferr].
  repeat match goal with
         | |- context [String.eqb f ?s] => destruct (String.eqb f s)
         | |- context [asInt vo field] => destruct (asInt vo field) as [? [?|]]
         | |- context [asUint vo field] => destruct (asUint vo field) as [? [?|]]
         end;
    first [ by eexists
          | match goal with
            | |- context [mapIterator_fields vo sv rest ?s] =>
                specialize (IH s); destruct (mapIterator_fields vo sv rest s);
                exact IH
            end ].
Qed.

Lemma loadType_fields_v (vo : varops) (swisstyp : Variable_)
    (Field : list string) (it it' : Swiss.mapIteratorSwiss)
    (group group' : option Variable_) :
  Swiss.loadType_fields vo swisstyp Field it group = inl (it', group') ->
  Swiss.v it' = Swiss.v it.
Proof.
  revert it group. induction Field as [|f rest IH]; intros it group Hrun.
  - by injection Hrun as <- _.
  - cbn [Swiss.loadType_fields] in Hrun.
    destruct (toField vo swisstyp f) as [field ferr].
    repeat match type of Hrun with
           | context [String.eqb f ?s] => destruct (String.eqb f s)
           | context [asUint vo field] => destruct (asUint vo field) as [? [?|]]
           end;
      first [ discriminate Hrun | by rewrite (IH _ _ Hrun) ].
Qed.

Lemma loadType_v (vo : varops) (it it' : Swiss.mapIteratorSwiss)
    (swisstyp : Variable_) (e : option merror) :
  Swiss.loadType vo it swisstyp = Ret (it', e) -> Swiss.v it' = Swiss.v it.
Proof.
  unfold Swiss.loadType. intros Hrun.
  destruct (DwarfType swisstyp) as [t|]; [|discriminate Hrun].
  destruct (ResolveTypedef t); try by injection Hrun as <- _.
  destruct (Swiss.loadType_fields vo swisstyp Field it None)
    as [[it1 group]|err] eqn:Hfields; [|by injection Hrun as <- _].
  apply loadType_fields_v in Hfields.
  destruct group as [group|]; [|by injection Hrun as <- _].
  destruct (loadFieldNamed vo group "Size_"); [|by injection Hrun as <- _].
  destruct (asUint vo _) as [n [err|]]; by injection Hrun as <- _.
Qed.

(** X5. [mapIterator] returns no iterator exactly when it has recorded an
    error in the variable: with a nil result [Unreadable] is set, and with
    an iterator [Unreadable] is what it was before the call and the iterator
    works on the variable as the call leaves it. *)
Theorem mapIterator_nil_iff_unreadable (vo : varops) (v : Variable_)
    (maxNumBuckets : Z) (r : option mapIterator_) (v' : Variable_) :
  mapIterator vo v maxNumBuckets = Ret (r, v') ->
  match r with
  | None => is_Some (Unreadable v')
  | Some (ClassicIt it) => Unreadable v' = Unreadable v /\ Classic.v it = v'
  | Some (SwissIt it) => Unreadable v' = Unreadable v /\ Swiss.v it = v'
  end.
Proof.
  unfold mapIterator. intros Hrun.
  destruct (RealType v) as [[]|]; try discriminate Hrun.
  destruct (maybeDereference vo _) as [sv|]; [|discriminate Hrun].
  destruct (RealType sv) as [[]|];
    try (injection Hrun as <- <-; by eexists).
  destruct (Addr sv =? 0); [by injection Hrun as <- <-|].
  pose proof (mapIterator_fields_unreadable vo sv Field
                (mkHeader (set_Base v (Addr sv))
                   (Classic.mk (set_Base v (Addr sv)) 0 0 None None None 0 None
                      None None None maxNumBuckets 0 0 0)
                   (Swiss.mk (set_Base v (Addr sv)) None maxNumBuckets
                      (Some KeyType) (Some ElemType) 0 0 0 0 None 0 0 0 0
                      None None) None)) as Hfields.
  destruct (mapIterator_fields vo sv Field _) as [st|st];
    [|by injection Hrun as <- <-].
  cbn [h_v] in Hfields.
  repeat match type of Hrun with
         | Ret _ = Ret _ => injection Hrun as <- <-
         | GoPanic = _ => discriminate Hrun
         | OutOfFuel = _ => discriminate Hrun
         | context [Swiss.loadType vo ?i ?s] =>
             let E := fresh "E" in
             destruct (Swiss.loadType vo i s) as [[? [?|]]| |] eqn:E;
             [apply loadType_v in E| apply loadType_v in E | |]
         | match ?x with _ => _ end = _ => destruct x eqn:?
         | (if ?b then _ else _) = _ => destruct b
         end;
    first [ by eexists
          | split; [exact Hfields|]; first [done | by destruct (_ && _)] ].
Qed.

Lemma mapIterator_nil_iff_unreadable_witness :
  let v' := set_Unreadable (set_Base headless_map_var 700) (Some errWrongRealType) in
  mapIterator (sample_varops (fun _ => 0)) headless_map_var 0 = Ret (None, v')
  /\ is_Some (Unreadable v').
Proof.
  split; [vm_compute; reflexivity|].
  apply (mapIterator_nil_iff_unreadable (sample_varops (fun _ => 0))
           headless_map_var 0 None).
  vm_compute. reflexivity.
Defined.

(** *** The classic iterator *)

Lemma reflect_eqb_eq (a b : reflect.Kind) : reflect.eqb a b = true <-> a = b.
Proof. split; [by destruct a, b | intros ->; by destruct b]. Qed.

Lemma negb_reflect_eqb (a b : reflect.Kind) :
  negb (reflect.eqb a b) = false -> a = b.
Proof. intros Hn. by apply reflect_eqb_eq, negb_false_iff. Qed.

(** The field loop sets the four fields of the bucket and nothing else. *)
Lemma nextBucket_fields_true (vo : varops) (bv : Variable_) (Field : list string)
    (it it' : Classic.mapIteratorClassic) :
  Classic.nextBucket_fields vo bv Field it = Ret (true, it') ->
  it' = Classic.set_fields it (Classic.tophashes it') (Classic.keys it')
          (Classic.values it') (Classic.overflow it').
Proof.
  revert it. induction Field as [|f rest IH]; intros it Hrun.
  - injection Hrun as <-. by destruct it.
  - cbn [Classic.nextBucket_fields] in Hrun.
    destruct (toField vo bv f) as [[field|] [err|]]; try discriminate Hrun.
    destruct (Unreadable field); [discriminate Hrun|].
    apply IH in Hrun. rewrite Hrun at 1.
    repeat match goal with
           | |- context [String.eqb f ?s] => destruct (String.eqb f s)
           end; reflexivity.
Qed.

Lemma nextBucket_load_true (vo : varops) (it it' : Classic.mapIteratorClassic) :
  Classic.nextBucket_load vo it = Ret (true, it') ->
  bucket_loaded vo it' /\
  it' = Classic.set_fields it (Classic.tophashes it') (Classic.keys it')
          (Classic.values it') (Classic.overflow it').
Proof.
  unfold Classic.nextBucket_load. intros Hrun.
  destruct (Classic.b it) as [bv|] eqn:Hb; [|discriminate Hrun].
  destruct (Addr bv <=? 0) eqn:Haddr; [discriminate Hrun|].
  apply Z.leb_gt in Haddr.
  destruct (RealType bv); [|discriminate Hrun].
  destruct (Classic.structFields bv) as [Field|]; [|discriminate Hrun].
  destruct (Classic.nextBucket_fields vo bv Field _) as [[[] it1]| |] eqn:Hf;
    try discriminate Hrun.
  apply nextBucket_fields_true in Hf.
  destruct (Classic.tophashes it1) as [th|] eqn:Hth; [|discriminate Hrun].
  destruct (Classic.keys it1) as [ks|] eqn:Hks; [|discriminate Hrun].
  destruct (Classic.values it1) as [vs|] eqn:Hvs; [|discriminate Hrun].
  destruct (negb (reflect.eqb (Kind th) reflect.Array)) eqn:Kth;
    [discriminate Hrun|].
  destruct (negb (reflect.eqb (Kind ks) reflect.Array)) eqn:Kks;
    [discriminate Hrun|].
  destruct (negb (reflect.eqb (Kind vs) reflect.Array)) eqn:Kvs;
    [discriminate Hrun|].
  cbn [orb] in Hrun.
  destruct (negb (Len th =? Len ks)) eqn:Hlen; [discriminate Hrun|].
  apply negb_false_iff, Z.eqb_eq in Hlen.
  unfold Classic.fieldTypeSize in Hrun.
  destruct (fieldType vs) as [vt|] eqn:Hvt; [|discriminate Hrun].
  destruct ((0 <? Type_Size vo vt) && negb (Len th =? Len vs)) eqn:Hsz;
    [discriminate Hrun|].
  destruct (Classic.overflow it1) as [o|] eqn:Ho; [|discriminate Hrun].
  destruct (negb (reflect.eqb (Kind o) reflect.Struct)) eqn:Ko;
    [discriminate Hrun|].
  injection Hrun as <-.
  split.
  - exists bv, th, ks, vs, o, vt.
    rewrite Hf. cbn [Classic.b Classic.set_fields]. rewrite Hb.
    repeat split; auto using negb_reflect_eqb.
    intros Hpos. apply andb_false_iff in Hsz as [Hsz|Hsz].
    + apply Z.ltb_ge in Hsz. lia.
    + by apply negb_false_iff, Z.eqb_eq in Hsz.
  - rewrite Hth, Hks, Hvs, Ho. etrans; [exact Hf|]. by destruct it.
Qed.

(** The bucket loop moves [b] and [bidx] only. *)
Lemma nextBucket_loop_frame (vo : varops) (fuel : nat)
    (it it' : Classic.mapIteratorClassic) :
  Classic.nextBucket_loop vo fuel it = Ret it' ->
  it' = Classic.set_bidx (Classic.set_b it (Classic.b it')) (Classic.bidx it').
Proof.
  revert it. induction fuel as [|fuel IH]; intros it Hrun.
  - cbn [Classic.nextBucket_loop] in Hrun.
    destruct (_ <? _); [discriminate Hrun|]. injection Hrun as <-. by destruct it.
  - cbn [Classic.nextBucket_loop] in Hrun.
    destruct (_ <? _); [|injection Hrun as <-; by destruct it].
    destruct (Classic.bucketAt vo (Classic.buckets it) (Classic.bidx it))
      as [newb| |]; try discriminate Hrun.
    cbn [Classic.oldbuckets Classic.set_b] in Hrun.
    destruct (Classic.oldbuckets it) as [ob|]; [|discriminate Hrun].
    destruct (Addr ob <=? 0); [injection Hrun as <-; by destruct it|].
    destruct (Classic.bucketAt vo _ _) as [oldb| |]; try discriminate Hrun.
    destruct (Classic.mapEvacuated vo _ oldb) as [[]| |]; try discriminate Hrun.
    + injection Hrun as <-. by destruct it.
    + destruct (_ =? _); [injection Hrun as <-; by destruct it|].
      apply IH in Hrun. rewrite Hrun at 1. by destruct it.
Qed.

Lemma nextBucket_true (vo : varops) (it it' : Classic.mapIteratorClassic) :
  Classic.nextBucket vo it = Ret (true, it') ->
  bucket_loaded vo it' /\
  Classic.v it' = Classic.v it /\
  Classic.idx it' = Classic.idx it /\
  Classic.hashTophashEmptyOne_ it' = Classic.hashTophashEmptyOne_ it.
Proof.
  unfold Classic.nextBucket. intros Hrun.
  destruct (match Classic.overflow it with
            | Some o => 0 <? Addr o
            | None => false
            end).
  - apply nextBucket_load_true in Hrun as [Hl Hf]. split; [exact Hl|].
    rewrite Hf. done.
  - destruct (_ && _); [discriminate Hrun|].
    destruct (Classic.nextBucket_loop vo _ _) as [it1| |] eqn:Hloop;
      try discriminate Hrun.
    apply nextBucket_loop_frame in Hloop.
    destruct (Classic.b it1); [|discriminate Hrun].
    apply nextBucket_load_true in Hrun as [Hl Hf]. split; [exact Hl|].
    rewrite Hf, Hloop. done.
Qed.

(** X6. When [nextBucket] returns [true] the bucket has passed its sanity
    checks: it is at a non-null address, tophashes, keys and values are
    arrays, there are as many keys as tophashes, as many values too unless
    the value type has size zero, and the overflow field leads to a struct;
    the variable of the map is untouched (no error was recorded). *)
Theorem nextBucket_true_checked (vo : varops)
    (it it' : Classic.mapIteratorClassic) :
  Classic.nextBucket vo it = Ret (true, it') ->
  bucket_loaded vo it' /\ Classic.v it' = Classic.v it.
Proof.
  intros Hrun. apply nextBucket_true in Hrun as (Hl & Hv & _). by split.
Qed.

Lemma nextBucket_true_checked_witness :
  exists it',
    Classic.nextBucket (sample_varops (fun _ => 0)) (steady_map 0 0) = Ret (true, it')
    /\ bucket_loaded (sample_varops (fun _ => 0)) it'
    /\ Classic.v it' = Classic.v (steady_map 0 0).
Proof.
  eexists. split; [vm_compute; reflexivity|].
  apply nextBucket_true_checked. vm_compute. reflexivity.
Defined.

Lemma wrap_int_small (z : Z) : - 2 ^ 63 <= z < 2 ^ 63 -> wrap_int z = z.
Proof. intros Hz. unfold wrap_int. rewrite Z.mod_small; lia. Qed.

Lemma nextBucket_fields_lengths (vo : varops) (bv : Variable_)
    (Field : list string) (it it' : Classic.mapIteratorClassic) (r : bool) :
  int64_lengths vo ->
  (forall th, Classic.tophashes it = Some th -> Len th < 2 ^ 63) ->
  Classic.nextBucket_fields vo bv Field it = Ret (r, it') ->
  forall th, Classic.tophashes it' = Some th -> Len th < 2 ^ 63.
Proof.
  intros Hvo. revert it. induction Field as [|f rest IH]; intros it Hit Hrun.
  - by injection Hrun as <- <-.
  - cbn [Classic.nextBucket_fields] in Hrun.
    destruct (toField vo bv f) as [[field|] [err|]] eqn:Hfield;
      try discriminate Hrun; try (by injection Hrun as <- <-).
    destruct (Unreadable field); [by injection Hrun as <- <-|].
    refine (IH _ _ Hrun).
    repeat match goal with
           | |- context [String.eqb f ?s] => destruct (String.eqb f s)
           end; try exact Hit.
    intros th [= <-]. exact (Hvo _ _ _ _ Hfield).
Qed.

Lemma nextBucket_load_lengths (vo : varops)
    (it it' : Classic.mapIteratorClassic) :
  int64_lengths vo ->
  Classic.nextBucket_load vo it = Ret (true, it') ->
  forall th, Classic.tophashes it' = Some th -> Len th < 2 ^ 63.
Proof.
  intros Hvo Hrun. pose proof (nextBucket_load_true vo it it' Hrun) as [_ Hf].
  unfold Classic.nextBucket_load in Hrun.
  destruct (Classic.b it) as [bv|]; [|discriminate Hrun].
  destruct (Addr bv <=? 0); [discriminate Hrun|].
  destruct (RealType bv); [|discriminate Hrun].
  destruct (Classic.structFields bv) as [Field|]; [|discriminate Hrun].
  destruct (Classic.nextBucket_fields vo bv Field _) as [[[] it1]| |] eqn:Hfields;
    try discriminate Hrun.
  pose proof (nextBucket_fields_lengths vo bv Field
                (Classic.set_fields it None None None None) it1 true Hvo
                ltac:(intros th Hth; discriminate Hth) Hfields) as Hlen.
  assert (Heq : it' = it1).
  { repeat match type of Hrun with
           | Ret (_, ?x) = Ret (_, _) => injection Hrun as <-
           | match ?x with _ => _ end = _ => destruct x; try discriminate Hrun
           | (if ?b then _ else _) = _ => destruct b; try discriminate Hrun
           end. reflexivity. }
  intros th. rewrite Heq. apply Hlen.
Qed.

Lemma nextBucket_lengths (vo : varops) (it it' : Classic.mapIteratorClassic) :
  int64_lengths vo ->
  Classic.nextBucket vo it = Ret (true, it') ->
  forall th, Classic.tophashes it' = Some th -> Len th < 2 ^ 63.
Proof.
  intros Hvo. unfold Classic.nextBucket. intros Hrun.
  destruct (match Classic.overflow it with
            | Some o => 0 <? Addr o
            | None => false
            end).
  - exact (nextBucket_load_lengths vo _ it' Hvo Hrun).
  - destruct (_ && _); [discriminate Hrun|].
    destruct (Classic.nextBucket_loop vo _ _) as [it1| |]; try discriminate Hrun.
    destruct (Classic.b it1); [|discriminate Hrun].
    exact (nextBucket_load_lengths vo _ it' Hvo Hrun).
Qed.

Lemma next_true (vo : varops) (fuel : nat) :
  int64_lengths vo ->
  forall it it' : Classic.mapIteratorClassic,
    cell_inv it ->
    Classic.next vo fuel it = Ret (true, it') ->
    cell_inv it' /\
    exists (th : Variable_) (h : Z),
      let i := Classic.idx it' - 1 in
      Classic.tophashes it' = Some th /\
      0 <= i < 2 ^ 63 /\ (0 < Len th -> i < Len th) /\
      asUint vo (fst (sliceAccess vo (Some th) i)) = (h, None) /\
      h <> hashTophashEmptyZero vo /\ h <> Classic.hashTophashEmptyOne_ it'.
Proof.
  intros Hvo. induction fuel as [|fuel IH]; intros it it' Hinv Hrun;
    [discriminate Hrun|].
  cbn [Classic.next] in Hrun.
  (* the state in which the tophash is read *)
  assert (Hread : exists it1 th,
            Classic.tophashes it1 = Some th /\ Len th < 2 ^ 63 /\
            0 <= Classic.idx it1 /\
            (Classic.idx it1 < Len th \/ Classic.idx it1 = 0) /\
            match (let '(tophash, _) :=
                     sliceAccess vo (Classic.tophashes it1) (Classic.idx it1) in
                   match asUint vo tophash with
                   | (_, Some err) =>
                       Ret (false,
                            Classic.fail_with it1 (errWrap "unreadable tophash" err))
                   | (h, None) =>
                       let it := Classic.set_idx it1
                                   (wrap_int (Classic.idx it1 + 1)) in
                       if negb (h =? hashTophashEmptyZero vo)
                          && negb (h =? Classic.hashTophashEmptyOne_ it)
                       then Ret (true, it)
                       else Classic.next vo fuel it
                   end) with
            | r => r = Ret (true, it')
            end).
  { destruct Hinv as [Hidx Hlen].
    destruct (Classic.b it) as [bv|] eqn:Hb.
    - destruct (Classic.tophashes it) as [th|] eqn:Hth; [|discriminate Hrun].
      destruct (Len th <=? Classic.idx it) eqn:Hfull.
      + destruct (Classic.nextBucket vo it) as [[[] it1]| |] eqn:Hnb;
          try discriminate Hrun.
        pose proof (nextBucket_lengths vo it it1 Hvo Hnb) as Hlen1.
        apply nextBucket_true in Hnb as ((? & th1 & ? & ? & ? & ? & _ & _ & Hth1 & _) & _).
        exists (Classic.set_idx it1 0), th1.
        split; [exact Hth1|]. split; [by apply Hlen1|]. split; [done|].
        split; [by right | exact Hrun].
      + apply Z.leb_gt in Hfull. exists it, th.
        split; [exact Hth|]. split; [by apply Hlen|]. split; [done|].
        split; [by left|]. rewrite Hth in Hrun |- *. exact Hrun.
    - destruct (Classic.nextBucket vo it) as [[[] it1]| |] eqn:Hnb;
        try discriminate Hrun.
      pose proof (nextBucket_lengths vo it it1 Hvo Hnb) as Hlen1.
      apply nextBucket_true in Hnb as ((? & th1 & ? & ? & ? & ? & _ & _ & Hth1 & _) & _).
      exists (Classic.set_idx it1 0), th1.
      split; [exact Hth1|]. split; [by apply Hlen1|]. split; [done|].
      split; [by right | exact Hrun]. }
  clear Hrun Hinv. destruct Hread as (it1 & th & Hth & Hlen & Hidx & Hin & Hrun).
  rewrite Hth in Hrun.
  destruct (sliceAccess vo (Some th) (Classic.idx it1)) as [tophash serr] eqn:Hsl.
  destruct (asUint vo tophash) as [h [err|]] eqn:Hh; [discriminate Hrun|].
  cbv zeta in Hrun.
  rewrite wrap_int_small in Hrun by lia.
  assert (Hinv2 : cell_inv (Classic.set_idx it1 (Classic.idx it1 + 1))).
  { split; [cbn; lia|]. intros th2. cbn. rewrite Hth. intros [= <-]. exact Hlen. }
  destruct (negb (h =? hashTophashEmptyZero vo)
            && negb (h =? Classic.hashTophashEmptyOne_ _)) eqn:Hfound.
  - injection Hrun as <-. split; [exact Hinv2|].
    apply andb_true_iff in Hfound as [Hz Ho].
    apply negb_true_iff, Z.eqb_neq in Hz, Ho.
    exists th, h. cbn [Classic.idx Classic.set_idx Classic.tophashes].
    replace (Classic.idx it1 + 1 - 1) with (Classic.idx it1) by lia.
    rewrite Hsl. cbn [fst].
    split; [exact Hth|]. split; [lia|]. split; [lia|]. done.
  - exact (IH _ _ Hinv2 Hrun).
Qed.

(** X7. When the classic [next] returns [true], the cell it stands on, the
    one [key] and [value] read at index [idx - 1], is a cell of the current
    bucket (the index is not negative and, unless the tophash array is
    empty, below its length) whose tophash was read without error and is
    neither of the two marks of an empty cell. It takes [int64] lengths and
    a cell index that is not negative to begin with, which [next] keeps. *)
Theorem next_true_cell (vo : varops) (fuel : nat)
    (it it' : Classic.mapIteratorClassic) :
  int64_lengths vo ->
  cell_inv it ->
  Classic.next vo fuel it = Ret (true, it') ->
  cell_inv it' /\ on_full_cell vo it'.
Proof.
  intros Hvo Hinv Hrun.
  destruct (next_true vo fuel Hvo it it' Hinv Hrun)
    as (Hinv' & th & h & Hth & Hi & Hlt & Hh & Hz & Ho).
  cbv zeta in Hi, Hlt, Hh.
  split; [exact Hinv'|]. exists th, h. cbv zeta.
  split; [done|]. split; [lia|]. repeat (split; [done|]).
  unfold Classic.key. rewrite wrap_int_small; [done | lia].
Qed.

Lemma sample_int64_lengths (mem : Z -> Z) : int64_lengths (sample_varops mem).
Proof.
  intros x f fld e. cbn [toField sample_varops].
  repeat match goal with
         | |- context [String.eqb f ?s] => destruct (String.eqb f s)
         end;
    intros [= <- _]; try done.
Qed.

Lemma next_true_cell_witness :
  exists it',
    Classic.next (sample_varops growing_mem) 5 (growing_map 0) = Ret (true, it')
    /\ cell_inv it' /\ on_full_cell (sample_varops growing_mem) it'.
Proof.
  eexists. split; [vm_compute; reflexivity|].
  apply (next_true_cell (sample_varops growing_mem) 5 (growing_map 0)).
  - apply sample_int64_lengths.
  - split; [vm_compute; discriminate | intros th; discriminate].
  - vm_compute. reflexivity.
Defined.

(** *** The Swiss iterator *)

Lemma loadCurrentTable_cases (vo : varops) (it it' : Swiss.mapIteratorSwiss) :
  Swiss.loadCurrentTable vo it = Ret it' ->
  (exists r : Swiss.swissTable,
     it' = Swiss.set_table it (Swiss.dirIdx it) (Some r)) \/
  (exists e : merror, it' = Swiss.fail_with it e).
Proof.
  unfold Swiss.loadCurrentTable. intros Hrun.
  destruct (sliceAccess vo (Swiss.directory it) (Swiss.dirIdx it)) as [tab err].
  repeat match type of Hrun with
         | Ret _ = Ret _ => injection Hrun as <-
         | GoPanic = _ => discriminate Hrun
         | OutOfFuel = _ => discriminate Hrun
         | match ?x with _ => _ end = _ => destruct x
         | (if ?b then _ else _) = _ => destruct b
         end;
    first [ by left; eexists | by right; eexists ].
Qed.



Ltac slots_lia := unfold Swiss.swissMapGroupSlots in *; cbn in *; lia.

Lemma but_for_error_group (it it0 : Swiss.mapIteratorSwiss) :
  but_for_error it it0 ->
  Swiss.group it0 = Swiss.group it /\ Swiss.slotIdx it0 = Swiss.slotIdx it.
Proof. by intros [->|[e ->]]. Qed.

(** One more error recorded, and the slot index moved: still the same
    iterator but for an error. *)
Lemma but_for_error_step (it it1 it0 : Swiss.mapIteratorSwiss) (s k : Z) :
  but_for_error it it1 ->
  but_for_error (Swiss.set_slotIdx it1 s) it0 ->
  exists it0', but_for_error it it0' /\
               Swiss.set_slotIdx it0' k = Swiss.set_slotIdx it0 k.
Proof.
  intros [->|[e ->]] [->|[e' ->]].
  - exists it. split; [by left | by destruct it].
  - exists (Swiss.fail_with it e'). split; [right; by eexists | by destruct it].
  - exists (Swiss.fail_with it e). split; [right; by eexists | by destruct it].
  - exists (Swiss.fail_with it e'). split; [right; by eexists | by destruct it].
Qed.

Lemma first_full_slot_skip (vo : varops) (it it1 : Swiss.mapIteratorSwiss)
    (r : run (Swiss.mapIteratorSwiss + Swiss.mapIteratorSwiss)) :
  but_for_error it it1 ->
  ~ slot_full vo (Swiss.group it) (Swiss.slotIdx it) ->
  first_full_slot vo (Swiss.set_slotIdx it1 (Swiss.slotIdx it + 1)) r ->
  first_full_slot vo it r.
Proof.
  intros Hb Hempty Hr.
  destruct (but_for_error_group _ _ Hb) as [Hg Hs].
  assert (Hskip : forall j k,
            (forall j, Swiss.slotIdx it + 1 <= j < k ->
               ~ slot_full vo (Swiss.group it) j) ->
            Swiss.slotIdx it <= j < k -> ~ slot_full vo (Swiss.group it) j).
  { intros j k Hrest Hj.
    destruct (decide (j = Swiss.slotIdx it)) as [->|Hne]; [done|].
    apply Hrest. lia. }
  destruct r as [[it'|it']| |]; cbn [first_full_slot] in Hr |- *; try done.
  - destruct Hr as (k & it0 & Hk & Hfull & Hrest & Hb0 & ->).
    cbn [Swiss.group Swiss.slotIdx Swiss.set_slotIdx] in Hk, Hfull, Hrest.
    rewrite Hg in Hfull, Hrest.
    destruct (but_for_error_step it it1 it0 _ k Hb Hb0) as (it0' & Hb' & Heq).
    exists k, it0'. split; [lia|]. split; [done|].
    split; [intros j Hj; by apply (Hskip j k)|]. split; [done|]. by rewrite Heq.
  - destruct Hr as (it0 & Hrest & Hb0 & ->).
    cbn [Swiss.group Swiss.slotIdx Swiss.set_slotIdx] in Hrest.
    rewrite Hg in Hrest.
    destruct (but_for_error_step it it1 it0 _ Swiss.swissMapGroupSlots Hb Hb0)
      as (it0' & Hb' & Heq).
    exists it0'. split; [intros j Hj; by apply (Hskip j Swiss.swissMapGroupSlots)|].
    split; [done|]. by rewrite Heq.
Qed.


Lemma next_slots_spec (vo : varops) (n : nat) :
  forall it : Swiss.mapIteratorSwiss,
    0 <= Swiss.slotIdx it <= Swiss.swissMapGroupSlots ->
    Swiss.swissMapGroupSlots - Swiss.slotIdx it <= Z.of_nat n ->
    first_full_slot vo it (Swiss.next_slots vo n it).
Proof.
  assert (Hend : forall it : Swiss.mapIteratorSwiss,
            Swiss.slotIdx it = 8 ->
            first_full_slot vo it (Ret (inr it))).
  { intros it Hs. exists it. split; [intros j Hj; slots_lia|].
    split; [by left|]. destruct it; cbn in Hs; by subst. }
  induction n as [|n IH]; intros it Hidx Hfuel.
  - assert (Hs : Swiss.slotIdx it = 8) by slots_lia.
    cbn [Swiss.next_slots]. unfold Swiss.swissMapGroupSlots at 1. rewrite Hs.
    cbn [Z.ltb Z.compare Pos.compare Pos.compare_cont]. by apply Hend.
  - cbn [Swiss.next_slots]. unfold Swiss.swissMapGroupSlots at 1.
    destruct (Swiss.slotIdx it <? 8) eqn:Hlt.
    2:{ apply Z.ltb_ge in Hlt. apply Hend. slots_lia. }
    apply Z.ltb_lt in Hlt. unfold Swiss.slotIsEmpty.
    destruct (readUintRaw vo (wrap_u64 (Swiss.group it + Swiss.slotIdx it)) 1)
      as [c [err|]] eqn:Hread.
    + (* the control byte is unreadable *)
      set (it1 := Swiss.fail_with it (errWrap "control array" err)).
      specialize (IH (Swiss.set_slotIdx it1 (Swiss.slotIdx it1 + 1))
                    ltac:(slots_lia) ltac:(slots_lia)).
      apply (first_full_slot_skip vo it it1); [right; by eexists | | exact IH].
      intros (c' & Hc' & _). rewrite Hread in Hc'. discriminate Hc'.
    + destruct (Z.land c Swiss.swissTableCtrlEmpty =? Swiss.swissTableCtrlEmpty)
        eqn:Hempty.
      * (* empty or deleted *)
        apply Z.eqb_eq in Hempty.
        specialize (IH (Swiss.set_slotIdx it (Swiss.slotIdx it + 1))
                      ltac:(slots_lia) ltac:(slots_lia)).
        apply (first_full_slot_skip vo it it); [by left | | exact IH].
        intros (c' & Hc' & Hne). rewrite Hread in Hc'. by injection Hc' as <-.
      * (* in use *)
        apply Z.eqb_neq in Hempty.
        exists (Swiss.slotIdx it), it.
        split; [slots_lia|]. split; [by exists c|].
        split; [intros j Hj; lia|]. split; [by left|].
        unfold swiss_yield. by destruct it.
Qed.

(** X9. The slot loop of the Swiss [next] finds the first slot in use: from
    slot [slotIdx] on it passes over the slots whose control byte is
    unreadable or has the top bit set, and returns at the first other slot
    [k] with the key and the value of that slot and with [slotIdx] moved
    past it; when there is none it ends with [slotIdx] at 8. Eight rounds
    are enough. Apart from that a read error may have been recorded. *)
Theorem next_slots_first_full (vo : varops) (it : Swiss.mapIteratorSwiss) :
  0 <= Swiss.slotIdx it <= Swiss.swissMapGroupSlots ->
  first_full_slot vo it (Swiss.next_slots vo 8 it).
Proof. intros Hidx. apply next_slots_spec; [done | slots_lia]. Qed.

Lemma next_slots_first_full_witness :
  first_full_slot (sample_varops swiss_mem) (swiss_at_slot 0 1)
    (Swiss.next_slots (sample_varops swiss_mem) 8 (swiss_at_slot 0 1)).
Proof.
  apply (next_slots_first_full (sample_varops swiss_mem) (swiss_at_slot 0 1)).
  vm_compute. split; discriminate.
Defined.

(** *** The classic iterator: the choice of the next bucket ends *)

Lemma wrap_u64_small (z : Z) : 0 <= z < 2 ^ 64 -> wrap_u64 z = z.
Proof. intros Hz. unfold wrap_u64. by rewrite Z.mod_small. Qed.

Lemma mapEvacuated_no_fuel (vo : varops) (it : Classic.mapIteratorClassic)
    (b : Variable_) :
  Classic.mapEvacuated vo it b <> OutOfFuel.
Proof.
  unfold Classic.mapEvacuated.
  destruct (Addr b =? 0); [done|].
  destruct (Classic.structFields b); [|done].
  destruct (existsb _ _); [|done].
  destruct (toField vo b "tophash") as [th ?].
  destruct (sliceAccess vo th 0) as [t0 ?].
  by destruct (asUint vo t0) as [? [?|]].
Qed.

Lemma nextBucket_loop_ends (vo : varops) (fuel : nat) :
  forall it : Classic.mapIteratorClassic,
    0 <= Classic.bidx it -> Classic.numbuckets it < 2 ^ 64 ->
    Classic.b it = None ->
    Classic.numbuckets it - Classic.bidx it <= Z.of_nat fuel ->
    match Classic.nextBucket_loop vo fuel it with
    | Ret it' =>
        Classic.bidx it <= Classic.bidx it' /\
        (is_Some (Classic.b it') -> Classic.bidx it' < Classic.numbuckets it)
    | GoPanic => True
    | OutOfFuel => False
    end.
Proof.
  induction fuel as [|fuel IH]; intros it Hb Hn Hnil Hfuel;
    cbn [Classic.nextBucket_loop];
    destruct (Classic.bidx it <? Classic.numbuckets it) eqn:Hlt;
    try (apply Z.ltb_lt in Hlt; lia);
    try (rewrite Hnil; split; [lia | by intros [? ?]]).
  apply Z.ltb_lt in Hlt.
  destruct (Classic.bucketAt vo (Classic.buckets it) (Classic.bidx it))
    as [newb| |] eqn:Hat; [|done|].
  2:{ unfold Classic.bucketAt in Hat.
      destruct (Classic.buckets it) as [x|]; [|done]. by destruct (DwarfType x). }
  cbn [Classic.oldbuckets Classic.set_b Classic.bidx Classic.oldmask].
  destruct (Classic.oldbuckets it) as [ob|]; [|done].
  destruct (Addr ob <=? 0); [cbn; split; [lia | done]|].
  destruct (Classic.bucketAt vo (Some ob) _) as [oldb| |] eqn:Hold; [|done|].
  2:{ unfold Classic.bucketAt in Hold. by destruct (DwarfType ob). }
  pose proof (mapEvacuated_no_fuel vo
                (Classic.set_b it (Some newb)) oldb) as Hev.
  destruct (Classic.mapEvacuated vo _ oldb) as [[]| |]; try done.
  destruct (_ =? _); [cbn; split; [lia | done]|].
  rewrite wrap_u64_small by lia.
  specialize (IH (Classic.set_bidx (Classic.set_b (Classic.set_b it (Some newb)) None)
                    (Classic.bidx it + 1))).
  cbn [Classic.bidx Classic.set_bidx Classic.set_b Classic.numbuckets Classic.b]
    in IH.
  specialize (IH ltac:(lia) Hn eq_refl ltac:(lia)).
  destruct (Classic.nextBucket_loop vo fuel _) as [it'| |]; [|done|done].
  destruct IH as [Hle Hsome]. split; [lia | done].
Qed.

Lemma nextBucket_fields_no_fuel (vo : varops) (bv : Variable_)
    (Field : list string) (it : Classic.mapIteratorClassic) :
  Classic.nextBucket_fields vo bv Field it <> OutOfFuel.
Proof.
  revert it. induction Field as [|f rest IH]; intros it; [done|].
  cbn [Classic.nextBucket_fields].
  destruct (toField vo bv f) as [[field|] [err|]]; try done.
  destruct (Unreadable field); [done | apply IH].
Qed.

Lemma nextBucket_load_no_fuel (vo : varops) (it : Classic.mapIteratorClassic) :
  Classic.nextBucket_load vo it <> OutOfFuel.
Proof.
  unfold Classic.nextBucket_load.
  destruct (Classic.b it) as [bv|]; [|done].
  destruct (Addr bv <=? 0); [done|].
  destruct (RealType bv); [|done].
  destruct (Classic.structFields bv) as [Field|]; [|done].
  pose proof (nextBucket_fields_no_fuel vo bv Field
                (Classic.set_fields it None None None None)) as Hf.
  destruct (Classic.nextBucket_fields vo bv Field _) as [[[] it1]| |]; try done.
  unfold Classic.fieldTypeSize.
  destruct (Classic.tophashes it1); [|done].
  destruct (Classic.keys it1); [|done].
  destruct (Classic.values it1) as [vs|]; [|done].
  destruct (_ || _); [done|]. destruct (negb _); [done|].
  destruct (fieldType vs); [|done].
  destruct (_ && _); [done|].
  destruct (Classic.overflow it1); [|done].
  by destruct (negb _).
Qed.

(** X14. [nextBucket] always comes to an end (the loop over the bucket
    indices runs at most [numbuckets - bidx] times), and when it returns
    [true] it has either moved to the pending overflow bucket, [bidx]
    unchanged, or, with no overflow bucket pending, to a bucket index
    further on: [bidx] has grown and is at most [numbuckets]. *)
Theorem nextBucket_ends_and_advances (vo : varops)
    (it : Classic.mapIteratorClassic) :
  0 <= Classic.bidx it -> Classic.numbuckets it < 2 ^ 64 ->
  Classic.nextBucket vo it <> OutOfFuel /\
  forall it', Classic.nextBucket vo it = Ret (true, it') ->
    (forall o, Classic.overflow it = Some o -> 0 < Addr o ->
       Classic.b it' = Some o /\ Classic.bidx it' = Classic.bidx it) /\
    ((forall o, Classic.overflow it = Some o -> Addr o <= 0) ->
       Classic.bidx it < Classic.bidx it' <= Classic.numbuckets it).
Proof.
  intros Hb Hn. unfold Classic.nextBucket.
  destruct (match Classic.overflow it with
            | Some o => 0 <? Addr o
            | None => false
            end) eqn:Hvia.
  - split; [apply nextBucket_load_no_fuel|]. intros it' Hrun.
    apply nextBucket_load_true in Hrun as [_ Hf]. split.
    + intros o Ho _. rewrite Hf. cbn. by rewrite Ho.
    + intros Hno. destruct (Classic.overflow it) as [o|]; [|done].
      apply Z.ltb_lt in Hvia. specialize (Hno o eq_refl). lia.
  - destruct (_ && _); [split; [done | intros it' [=]]|].
    pose proof (nextBucket_loop_ends vo
                  (Z.to_nat (Classic.numbuckets (Classic.set_b it None)
                             - Classic.bidx (Classic.set_b it None)))
                  (Classic.set_b it None) Hb Hn eq_refl ltac:(cbn; lia)) as Hloop.
    destruct (Classic.nextBucket_loop vo _ _) as [it1| |]; [|done|done].
    destruct Hloop as [Hle Hsome].
    destruct (Classic.b it1) as [bv|] eqn:Hb1; [|split; [done | intros it' [=]]].
    specialize (Hsome ltac:(by eexists)).
    cbn [Classic.bidx Classic.set_b Classic.numbuckets] in Hle, Hsome.
    split; [apply nextBucket_load_no_fuel|]. intros it' Hrun.
    apply nextBucket_load_true in Hrun as [_ Hf]. split.
    + intros o Ho Hpos. rewrite Ho in Hvia. apply Z.ltb_ge in Hvia. lia.
    + intros _. rewrite Hf. cbn [Classic.bidx Classic.set_fields Classic.set_bidx].
      rewrite wrap_u64_small by lia. lia.
Qed.

Lemma nextBucket_ends_and_advances_witness :
  let vo := sample_varops (fun _ => 0) in
  Classic.nextBucket vo (steady_map 0 0) <> OutOfFuel /\
  forall it', Classic.nextBucket vo (steady_map 0 0) = Ret (true, it') ->
    (forall o, Classic.overflow (steady_map 0 0) = Some o -> 0 < Addr o ->
       Classic.b it' = Some o /\ Classic.bidx it' = Classic.bidx (steady_map 0 0)) /\
    ((forall o, Classic.overflow (steady_map 0 0) = Some o -> Addr o <= 0) ->
       Classic.bidx (steady_map 0 0) < Classic.bidx it'
       <= Classic.numbuckets (steady_map 0 0)).
Proof.
  apply (nextBucket_ends_and_advances (sample_varops (fun _ => 0)) (steady_map 0 0)).
  - vm_compute. discriminate.
  - reflexivity.
Defined.

(** *** The Swiss iterator yields from the table of the directory entry *)

Lemma next_slots_tab (vo : varops) (n : nat) :
  forall (it : Swiss.mapIteratorSwiss)
         (r : Swiss.mapIteratorSwiss + Swiss.mapIteratorSwiss),
    Swiss.next_slots vo n it = Ret r ->
    let it' := match r with inl x | inr x => x end in
    Swiss.tab it' = Swiss.tab it /\ Swiss.dirIdx it' = Swiss.dirIdx it.
Proof.
  induction n as [|n IH]; intros it r Hrun; cbn [Swiss.next_slots] in Hrun;
    destruct (Swiss.slotIdx it <? Swiss.swissMapGroupSlots);
    try discriminate Hrun; try (by injection Hrun as <-).
  unfold Swiss.slotIsEmpty in Hrun.
  destruct (readUintRaw vo _ 1) as [c [err|]].
  - apply IH in Hrun. exact Hrun.
  - destruct (_ =? _).
    + apply IH in Hrun. exact Hrun.
    + injection Hrun as <-. cbv zeta. by destruct (_ <=? _).
Qed.

Lemma next_groups_tab (vo : varops) (fuel : nat) :
  forall (it : Swiss.mapIteratorSwiss)
         (r : bool * Swiss.mapIteratorSwiss + Swiss.mapIteratorSwiss),
    Swiss.next_groups vo fuel it = Ret r ->
    let it' := match r with inl (_, x) | inr x => x end in
    Swiss.tab it' = Swiss.tab it /\ Swiss.dirIdx it' = Swiss.dirIdx it.
Proof.
  induction fuel as [|fuel IH]; intros it r Hrun; cbn [Swiss.next_groups] in Hrun;
    destruct (Swiss.tab it) as [t|] eqn:Htab; try discriminate Hrun;
    destruct (Swiss.groupIdx it <=? Swiss.groupsLengthMask t);
    try discriminate Hrun; try (by injection Hrun as <-).
  destruct (_ && _); [by injection Hrun as <-|].
  assert (Hload : exists it1,
            (if Swiss.group it =? 0 then Swiss.loadCurrentGroup it else Ret it)
            = Ret it1 /\
            Swiss.tab it1 = Swiss.tab it /\ Swiss.dirIdx it1 = Swiss.dirIdx it).
  { destruct (Swiss.group it =? 0); [|by exists it].
    unfold Swiss.loadCurrentGroup. rewrite Htab. by eexists. }
  destruct Hload as (it1 & Hl & Ht1 & Hd1). rewrite Hl in Hrun.
  destruct (Swiss.group it1 =? 0); [injection Hrun as <-; by rewrite <- Htab|].
  destruct (Swiss.next_slots vo 8 it1) as [[it2|it2]| |] eqn:Hslots;
    try discriminate Hrun; apply next_slots_tab in Hslots as [Ht2 Hd2].
  - injection Hrun as <-. cbv zeta. split; congruence.
  - apply IH in Hrun. cbn in Hrun. destruct Hrun as [Ht3 Hd3].
    split; congruence.
Qed.

Lemma next_own_table (vo : varops) (fuel : nat) :
  forall it it' : Swiss.mapIteratorSwiss,
    (forall t, Swiss.tab it = Some t -> Swiss.index t = Swiss.dirIdx it) ->
    Swiss.next vo fuel it = Ret (true, it') ->
    exists t, Swiss.tab it' = Some t /\ Swiss.index t = Swiss.dirIdx it'.
Proof.
  induction fuel as [|fuel IH]; intros it it' Hown Hrun; cbn [Swiss.next] in Hrun;
    destruct (Swiss.directory it) as [dir|]; try discriminate Hrun;
    destruct (Swiss.dirIdx it <? Len dir); try discriminate Hrun.
  assert (Hgroups : forall it1 t,
            Swiss.tab it1 = Some t -> Swiss.index t = Swiss.dirIdx it1 ->
            match Swiss.next_groups vo fuel it1 with
            | Ret (inl r) => Ret r
            | Ret (inr it) =>
                Swiss.next vo fuel
                  (Swiss.nextTable
                     (Swiss.set_group
                        (Swiss.set_groupCount it
                           (wrap_u64 (Swiss.groupCount it + Swiss.groupIdx it)))
                        0 0))
            | GoPanic => GoPanic
            | OutOfFuel => OutOfFuel
            end = Ret (true, it') ->
            exists t, Swiss.tab it' = Some t /\ Swiss.index t = Swiss.dirIdx it').
  { intros it1 t Ht Hidx Hgo.
    destruct (Swiss.next_groups vo fuel it1) as [[[b it2]|it2]| |] eqn:Hg;
      try discriminate Hgo.
    - injection Hgo as -> ->. apply next_groups_tab in Hg as [Ht2 Hd2].
      exists t. split; congruence.
    - apply IH in Hgo; [done|]. intros t'. cbn. discriminate. }
  destruct (Swiss.tab it) as [t|] eqn:Htab.
  - exact (Hgroups it t Htab (Hown t eq_refl) Hrun).
  - destruct (Swiss.loadCurrentTable vo it) as [it1| |] eqn:Hload;
      try discriminate Hrun.
    apply loadCurrentTable_cases in Hload as [[r ->]|[e ->]].
    + cbn [Swiss.tab Swiss.set_table Swiss.dirIdx] in Hrun.
      destruct (Swiss.index r =? Swiss.dirIdx it) eqn:Hidx; cbn [negb] in Hrun.
      * apply Z.eqb_eq in Hidx.
        by apply (Hgroups (Swiss.set_table it (Swiss.dirIdx it) (Some r)) r eq_refl Hidx).
      * apply IH in Hrun; [done|]. intros t'. cbn. discriminate.
    + cbn [Swiss.tab Swiss.fail_with Swiss.set_v] in Hrun. rewrite Htab in Hrun.
      discriminate Hrun.
Qed.

(** X15. The Swiss [next] yields only from the table that belongs to the
    directory entry it stands on: when it returns [true] a table is loaded
    and its [index] field equals [dirIdx]. A table met at another position
    of the directory (a table fills several entries while the map grows) is
    passed over, so that its slots are yielded once. It is enough that the
    iterator starts without a table, as [mapIterator] makes it, or with one
    of that kind. *)
Theorem swiss_next_own_table (vo : varops) (fuel : nat)
    (it it' : Swiss.mapIteratorSwiss) :
  (forall t, Swiss.tab it = Some t -> Swiss.index t = Swiss.dirIdx it) ->
  Swiss.next vo fuel it = Ret (true, it') ->
  exists t, Swiss.tab it' = Some t /\ Swiss.index t = Swiss.dirIdx it'.
Proof. apply next_own_table. Qed.

Lemma swiss_next_own_table_witness :
  exists it' t,
    Swiss.next (sample_varops swiss_mem) 5 (swiss_map 0) = Ret (true, it')
    /\ Swiss.tab it' = Some t /\ Swiss.index t = Swiss.dirIdx it'.
Proof.
  eexists.
  assert (Hrun : Swiss.next (sample_varops swiss_mem) 5 (swiss_map 0)
                 = Ret (true, _)) by (vm_compute; reflexivity).
  destruct (swiss_next_own_table (sample_varops swiss_mem) 5 (swiss_map 0) _
              ltac:(intros t; discriminate) Hrun) as (t & Ht & Hidx).
  exists t. split; [exact Hrun|]. by split.
Defined.
